(** * Parsr: a shallow embedding of [parsr.py] and its verified properties

    The development follows the layout of the Python module:

    - values, exceptions and the outcome of a computation;
    - the symbol graph ([token], [chain], [repeat], [oneOf], [definedLater]);
    - [token.match] and the mode-stacked lexer [grammar.lex];
    - the heap of parser states and the methods of [parserState],
      [parserRootState] and the four [stateType] classes;
    - [grammar.parse];
    - the theorems.

    Python objects that are compared by identity (symbols, parser states) are
    modelled by their identity: a natural number indexing a table. *)

From Stdlib Require Import ZArith String Ascii Lia Bool Permutation.
From stdpp Require Import base option list.

#[local] Set Warnings "-register-all".

Local Open Scope string_scope.
Local Open Scope list_scope.
Local Open Scope nat_scope.

(** ** Identities *)

(** Identity of a symbol object (an index into the symbol table). *)
Abbreviation symid := nat.

(** Identity of a parser state object (an index into the heap). *)
Abbreviation sid := nat.

(** ** Values *)

(** The Python values that matches, results and mergers exchange. *)
Inductive value :=
| VNone
| VInt (z : Z)
| VStr (s : string)
| VList (l : list value)
| VDict (d : list (string * value)).

(** The [context] dict handed to [grammar.parse] and on to every merger. *)
Definition context := list (string * value).

(** ** Lexer states *)

(** [class lexerState]: [pushOn] is a token, a list of tokens or [None];
    a single token is the singleton list and [None] the empty list (an empty
    list is falsy, so [lex] skips it like [None]). *)
Record lexerState := {
  ls_tokens : list symid;
  ls_omit : list symid;
  ls_pushOn : list symid;
  ls_popOn : option symid;
  ls_name : string
}.

(** ** Exceptions and outcomes *)

Inductive exn :=
| LexerError (text : string) (pos : nat) (mode : lexerState)
| StatesExhausted (state : sid) (expectedTokens : option (list sid))
| NotCompleted (state : sid)
| AmbigiousResults (state : sid)
| InfiniteStateExpansion (state : option sid)
| ValueError (msg : string)
| RuntimeError (msg : string)
| AttributeError (msg : string)
| TypeError (msg : string)
| KeyError
| IndexError
| AssertionError
| NotImplementedError
| UserError (msg : string).

(** Outcome of a Python computation: a returned value or a raised exception.
    [Stuck] is not a Python outcome: it marks a run of the model that used up
    the iteration budget of a loop or met a dangling identity. *)
Inductive res (A : Type) :=
| Ret (a : A)
| Raise (e : exn)
| Stuck.
Arguments Ret {A} a.
Arguments Raise {A} e.
Arguments Stuck {A}.

Definition res_bind {A B} (r : res A) (k : A -> res B) : res B :=
  match r with
  | Ret a => k a
  | Raise e => Raise e
  | Stuck => Stuck
  end.

(** ** Symbols *)

(** [re.compile(regexp).match(text, pos)] as far as [token.match] reads it:
    [None] when the pattern does not match at [pos], otherwise the length of
    [group(0)] and [groupdict()] (a group that did not take part maps to
    [None]). *)
Record re_match := {
  re_len : nat;
  re_groupdict : list (string * option string)
}.

Definition regex := string -> nat -> option re_match.

(** A merger [f(res, **context)]; it may raise. *)
Definition merger_fn := value -> context -> res value.

(** The symbol classes. [optional] is [repeat] with [From = 0], [To = 1]. *)
Inductive symbol :=
| token (regexp : regex) (merger : option merger_fn)
| chain (symbols : list symid) (merger : option merger_fn)
| repeat (sym : symid) (From To : Z) (merger : option merger_fn)
| oneOf (symbols : list symid) (merger : option merger_fn)
| definedLater (name : string).

Definition optional (sym : symid) (merger : option merger_fn) : symbol :=
  repeat sym 0 1 merger.

(** [self.symbols] of a [containsSymbols] instance. *)
Definition symbols_of (s : symbol) : list symid :=
  match s with
  | chain l _ => l
  | repeat x _ _ _ => [x]
  | oneOf l _ => l
  | _ => []
  end.

Definition merger_of (s : symbol) : option merger_fn :=
  match s with
  | token _ m => m
  | chain _ m => m
  | repeat _ _ _ m => m
  | oneOf _ m => m
  | definedLater _ => None
  end.

(** [class grammar]: the symbol objects, the lexer states and the start
    symbol. *)
Record grammar := {
  symtab : list symbol;
  lexerStates : list lexerState;
  lexerStartState : lexerState;
  startSymbol : symid
}.

(** ** [token.match] *)

(** [token.matchType] *)
Record matchType := {
  m_token : symid;
  m_text : string;
  m_result : value;
  m_start : nat;
  m_end : nat
}.

Definition groupdict_value (d : list (string * option string)) : value :=
  VDict (map (fun kv => (fst kv, match snd kv with Some s => VStr s | None => VNone end)) d).

Definition zero_length_msg : string :=
  "Don't use tokens that match strings with zero length.".

(** [token.match(self, text, pos)]; [self] is the identity of the token. *)
Definition token_match (self : symid) (regexp : regex) (text : string) (pos : nat)
  : res (option matchType) :=
  match regexp text pos with
  | None => Ret None
  | Some r =>
      let group0 := substring pos (re_len r) text in
      if String.length group0 =? 0 then Raise (ValueError zero_length_msg)
      else
        let matchResult :=
          if length (re_groupdict r) =? 0 then VStr group0
          else groupdict_value (re_groupdict r) in
        Ret (Some {| m_token := self; m_text := group0; m_result := matchResult;
                     m_start := pos; m_end := pos + String.length group0 |})
  end.

(** [tok.match(text, pos)] for an entry of a lexer state. *)
Definition match_at (tab : list symbol) (tok : symid) (text : string) (pos : nat)
  : res (option matchType) :=
  match tab !! tok with
  | Some (token regexp _) => token_match tok regexp text pos
  | Some _ => Raise (AttributeError "match")
  | None => Stuck
  end.

(** ** [grammar.lex] *)

(** The [pushOn] dict built at the start of [lex]: a later lexer state
    overwrites the entry of an earlier one. *)
Definition pushOn_table (states : list lexerState) (tok : symid) : option lexerState :=
  fold_left (fun acc st => if bool_decide (tok ∈ ls_pushOn st) then Some st else acc)
            states None.

(** The two [for tok in ...] loops of [lex]: the first token that matches. *)
Inductive tried :=
| NoMatch
| Matched (tok : symid) (m : matchType).

Fixpoint first_match (tab : list symbol) (toks : list symid) (text : string) (pos : nat)
  : res tried :=
  match toks with
  | [] => Ret NoMatch
  | tok :: rest =>
      match match_at tab tok text pos with
      | Ret (Some m) => Ret (Matched tok m)
      | Ret None => first_match tab rest text pos
      | Raise e => Raise e
      | Stuck => Stuck
      end
  end.

(** The mode stack is a Python list; its top is the last element. *)
Definition pop_state (tok : symid) (states : list lexerState) : list lexerState :=
  match last states with
  | Some top => if bool_decide (ls_popOn top = Some tok) then removelast states else states
  | None => states
  end.

Definition push_state (g : grammar) (tok : symid) (states : list lexerState)
  : list lexerState :=
  match pushOn_table (lexerStates g) tok with
  | Some st => states ++ [st]
  | None => states
  end.

(** The block run on a match, the same in both loops:
    [if states[-1].popOn == tok: states.pop()] and then
    [if tok in pushOn: states.append(pushOn[tok])]. *)
Definition switch_states (g : grammar) (tok : symid) (states : list lexerState)
  : list lexerState :=
  push_state g tok (pop_state tok states).

Record lex_vars := {
  lx_states : list lexerState;
  lx_pos : nat;
  lx_tokStream : list matchType
}.

(** One pass through the body of [while pos < len(text)]. The class never
    sets an attribute [lexerState], so [states = [self.lexerState]] raises. *)
Definition lex_body (g : grammar) (text : string) (v : lex_vars) : res lex_vars :=
  match last (lx_states v) with
  | None => Raise (AttributeError "lexerState")
  | Some top =>
      res_bind (first_match (symtab g) (ls_omit top) text (lx_pos v)) (fun o =>
      match o with
      | Matched tok m =>
          Ret {| lx_states := switch_states g tok (lx_states v);
                 lx_pos := m_end m;
                 lx_tokStream := lx_tokStream v |}
      | NoMatch =>
          res_bind (first_match (symtab g) (ls_tokens top) text (lx_pos v)) (fun a =>
          match a with
          | Matched tok m =>
              Ret {| lx_states := switch_states g tok (lx_states v);
                     lx_pos := m_end m;
                     lx_tokStream := lx_tokStream v ++ [m] |}
          | NoMatch => Raise (LexerError text (lx_pos v) top)
          end)
      end)
  end.

Fixpoint lex_loop (fuel : nat) (g : grammar) (text : string) (v : lex_vars)
  : res (list matchType) :=
  if lx_pos v <? String.length text then
    match fuel with
    | 0 => Stuck
    | S fuel' => res_bind (lex_body g text v) (lex_loop fuel' g text)
    end
  else Ret (lx_tokStream v).

Definition lex_start (g : grammar) : lex_vars :=
  {| lx_states := [lexerStartState g]; lx_pos := 0; lx_tokStream := [] |}.

(** [grammar.lex(self, text)]. The loop runs at most [len(text)] times
    (see [lex_loop_total]). *)
Definition lex (g : grammar) (text : string) : res (list matchType) :=
  lex_loop (String.length text) g text (lex_start g).

(** ** Python lists and dicts *)

(** [x in l] *)
Definition mem (x : sid) (l : list sid) : bool := existsb (Nat.eqb x) l.

(** [l.index(x)]: the first position of [x]; [None] stands for the
    [ValueError] Python raises. *)
Fixpoint index_of (x : sid) (l : list sid) : option nat :=
  match l with
  | [] => None
  | y :: r => if Nat.eqb x y then Some 0 else option_map S (index_of x r)
  end.

(** [l.remove(x)]: drops the first occurrence. *)
Fixpoint remove_first (x : sid) (l : list sid) : list sid :=
  match l with
  | [] => []
  | y :: r => if Nat.eqb x y then r else y :: remove_first x r
  end.

(** Keys of [results] and [currentPositions]: a parser state or [None]. *)
Definition key := option sid.

Definition key_eqb (a b : key) : bool :=
  match a, b with
  | Some x, Some y => Nat.eqb x y
  | None, None => true
  | _, _ => false
  end.

(** A dict with keys of type [key], as the list of its items. The order of
    the list is the order in which the keys were first set; Python 2 iterates
    a dict in the order of its hash table, see [dict_order] below. *)
Definition pydict (V : Type) := list (key * V).

Fixpoint dict_get {V} (k : key) (d : pydict V) : option V :=
  match d with
  | [] => None
  | (k', v) :: r => if key_eqb k k' then Some v else dict_get k r
  end.

Definition dict_has {V} (k : key) (d : pydict V) : bool :=
  match dict_get k d with Some _ => true | None => false end.

(** [d[k] = v] *)
Fixpoint dict_set {V} (k : key) (v : V) (d : pydict V) : pydict V :=
  match d with
  | [] => [(k, v)]
  | (k', v') :: r => if key_eqb k k' then (k, v) :: r else (k', v') :: dict_set k v r
  end.

(** [del d[k]] (the callers test [k in d] first) *)
Fixpoint dict_del {V} (k : key) (d : pydict V) : pydict V :=
  match d with
  | [] => []
  | (k', v') :: r => if key_eqb k k' then dict_del k r else (k', v') :: dict_del k r
  end.

(** [d.viewvalues()] of a Python 2 dict yields the values in the order of
    the hash table, which for keys hashed by their address is unrelated to
    the order of insertion. The order is a parameter of the model: any
    function that permutes the values. *)
Record dict_order := {
  viewvalues : pydict (list sid) -> list (list sid);
  viewvalues_perm : forall d, Permutation (viewvalues d) (map snd d)
}.

(** ** Parser states *)

(** The class of a parser state object. *)
Inductive kind := KRoot | KToken | KChain | KRepeat | KOneOf.

(** The attributes of [parserState] and of its subclasses
    ([validPossibilities], [lastTokens]: [parserRootState]; [_result]:
    [token.stateType]; [currentPositions], [results], [currentlyWorksOn]:
    [chain.stateType] and its subclasses). *)
Record pstate := {
  st_class : kind;
  st_symbol : symid;
  st_parent : option sid;
  _possibilities : list sid;
  _addedPossibilities : list sid;
  _removedPossibilities : list sid;
  _yieldsPossibilities : bool;
  validPossibilities : list sid;
  lastTokens : list sid;
  _result : option matchType;
  currentPositions : pydict nat;
  results : pydict (list sid);
  currentlyWorksOn : option sid
}.

(** [parserState.__init__] *)
Definition new_state (c : kind) (sym : symid) (par : option sid) : pstate :=
  {| st_class := c; st_symbol := sym; st_parent := par;
     _possibilities := []; _addedPossibilities := []; _removedPossibilities := [];
     _yieldsPossibilities := false; validPossibilities := []; lastTokens := [];
     _result := None; currentPositions := []; results := []; currentlyWorksOn := None |}.

Definition set_possibilities (v : list sid) (st : pstate) : pstate :=
  {| st_class := st_class st; st_symbol := st_symbol st; st_parent := st_parent st;
     _possibilities := v; _addedPossibilities := _addedPossibilities st;
     _removedPossibilities := _removedPossibilities st;
     _yieldsPossibilities := _yieldsPossibilities st;
     validPossibilities := validPossibilities st; lastTokens := lastTokens st;
     _result := _result st; currentPositions := currentPositions st;
     results := results st; currentlyWorksOn := currentlyWorksOn st |}.

Definition set_addedPossibilities (v : list sid) (st : pstate) : pstate :=
  {| st_class := st_class st; st_symbol := st_symbol st; st_parent := st_parent st;
     _possibilities := _possibilities st; _addedPossibilities := v;
     _removedPossibilities := _removedPossibilities st;
     _yieldsPossibilities := _yieldsPossibilities st;
     validPossibilities := validPossibilities st; lastTokens := lastTokens st;
     _result := _result st; currentPositions := currentPositions st;
     results := results st; currentlyWorksOn := currentlyWorksOn st |}.

Definition set_removedPossibilities (v : list sid) (st : pstate) : pstate :=
  {| st_class := st_class st; st_symbol := st_symbol st; st_parent := st_parent st;
     _possibilities := _possibilities st; _addedPossibilities := _addedPossibilities st;
     _removedPossibilities := v;
     _yieldsPossibilities := _yieldsPossibilities st;
     validPossibilities := validPossibilities st; lastTokens := lastTokens st;
     _result := _result st; currentPositions := currentPositions st;
     results := results st; currentlyWorksOn := currentlyWorksOn st |}.

Definition set_yieldsPossibilities (v : bool) (st : pstate) : pstate :=
  {| st_class := st_class st; st_symbol := st_symbol st; st_parent := st_parent st;
     _possibilities := _possibilities st; _addedPossibilities := _addedPossibilities st;
     _removedPossibilities := _removedPossibilities st;
     _yieldsPossibilities := v;
     validPossibilities := validPossibilities st; lastTokens := lastTokens st;
     _result := _result st; currentPositions := currentPositions st;
     results := results st; currentlyWorksOn := currentlyWorksOn st |}.

Definition set_validPossibilities (v : list sid) (st : pstate) : pstate :=
  {| st_class := st_class st; st_symbol := st_symbol st; st_parent := st_parent st;
     _possibilities := _possibilities st; _addedPossibilities := _addedPossibilities st;
     _removedPossibilities := _removedPossibilities st;
     _yieldsPossibilities := _yieldsPossibilities st;
     validPossibilities := v; lastTokens := lastTokens st;
     _result := _result st; currentPositions := currentPositions st;
     results := results st; currentlyWorksOn := currentlyWorksOn st |}.

Definition set_lastTokens (v : list sid) (st : pstate) : pstate :=
  {| st_class := st_class st; st_symbol := st_symbol st; st_parent := st_parent st;
     _possibilities := _possibilities st; _addedPossibilities := _addedPossibilities st;
     _removedPossibilities := _removedPossibilities st;
     _yieldsPossibilities := _yieldsPossibilities st;
     validPossibilities := validPossibilities st; lastTokens := v;
     _result := _result st; currentPositions := currentPositions st;
     results := results st; currentlyWorksOn := currentlyWorksOn st |}.

Definition set_result (v : option matchType) (st : pstate) : pstate :=
  {| st_class := st_class st; st_symbol := st_symbol st; st_parent := st_parent st;
     _possibilities := _possibilities st; _addedPossibilities := _addedPossibilities st;
     _removedPossibilities := _removedPossibilities st;
     _yieldsPossibilities := _yieldsPossibilities st;
     validPossibilities := validPossibilities st; lastTokens := lastTokens st;
     _result := v; currentPositions := currentPositions st;
     results := results st; currentlyWorksOn := currentlyWorksOn st |}.

Definition set_currentPositions (v : pydict nat) (st : pstate) : pstate :=
  {| st_class := st_class st; st_symbol := st_symbol st; st_parent := st_parent st;
     _possibilities := _possibilities st; _addedPossibilities := _addedPossibilities st;
     _removedPossibilities := _removedPossibilities st;
     _yieldsPossibilities := _yieldsPossibilities st;
     validPossibilities := validPossibilities st; lastTokens := lastTokens st;
     _result := _result st; currentPositions := v;
     results := results st; currentlyWorksOn := currentlyWorksOn st |}.

Definition set_results (v : pydict (list sid)) (st : pstate) : pstate :=
  {| st_class := st_class st; st_symbol := st_symbol st; st_parent := st_parent st;
     _possibilities := _possibilities st; _addedPossibilities := _addedPossibilities st;
     _removedPossibilities := _removedPossibilities st;
     _yieldsPossibilities := _yieldsPossibilities st;
     validPossibilities := validPossibilities st; lastTokens := lastTokens st;
     _result := _result st; currentPositions := currentPositions st;
     results := v; currentlyWorksOn := currentlyWorksOn st |}.

Definition set_currentlyWorksOn (v : option sid) (st : pstate) : pstate :=
  {| st_class := st_class st; st_symbol := st_symbol st; st_parent := st_parent st;
     _possibilities := _possibilities st; _addedPossibilities := _addedPossibilities st;
     _removedPossibilities := _removedPossibilities st;
     _yieldsPossibilities := _yieldsPossibilities st;
     validPossibilities := validPossibilities st; lastTokens := lastTokens st;
     _result := _result st; currentPositions := currentPositions st;
     results := results st; currentlyWorksOn := v |}.

(** [isinstance(self, chain.stateType)]: [repeat.stateType] and
    [oneOf.stateType] derive from [chain.stateType]. *)
Definition is_chain_type (c : kind) : bool :=
  match c with
  | KChain | KRepeat | KOneOf => true
  | KRoot | KToken => false
  end.

(** ** The heap and its monad *)

(** The parser states created so far; a state's identity is its index. *)
Abbreviation heap := (list pstate).

(** A method that reads and updates parser states. *)
Definition M (A : Type) := heap -> res (A * heap).

Definition ret {A} (a : A) : M A := fun h => Ret (a, h).

Definition raise {A} (e : exn) : M A := fun _ => Raise e.

Definition bind {A B} (c : M A) (k : A -> M B) : M B :=
  fun h =>
    match c h with
    | Ret (a, h') => k a h'
    | Raise e => Raise e
    | Stuck => Stuck
    end.

Notation "x <- c ;; k" := (bind c (fun x => k))
  (at level 100, c at next level, right associativity).
Notation "c ;; k" := (bind c (fun _ => k))
  (at level 100, right associativity).

(** Object creation. *)
Definition alloc (st : pstate) : M sid := fun h => Ret (length h, h ++ [st]).

(** Reading the attributes of an object. *)
Definition get (s : sid) : M pstate :=
  fun h => match h !! s with Some st => Ret (st, h) | None => Stuck end.

(** Assigning to an attribute of an object. *)
Definition modify (s : sid) (f : pstate -> pstate) : M unit :=
  fun h => match h !! s with Some st => Ret (tt, <[s := f st]> h) | None => Stuck end.

(** [assert b] *)
Definition assert_ (b : bool) : M unit :=
  if b then ret tt else raise AssertionError.

(** A lookup that raises [e] on a miss. *)
Definition lookup_or {A} (e : exn) (o : option A) : M A :=
  match o with Some a => ret a | None => raise e end.

(** [assert self.parent] *)
Definition assert_parent (st : pstate) : M unit :=
  assert_ (match st_parent st with Some _ => true | None => false end).

(** ** The methods of the parser states *)

(** The methods that call each other through the object tree. A method body
    below takes the [engine] of the calls it makes, one frame deeper on the
    Python stack. *)
Record engine := {
  e_getState : symid -> sid -> M sid;
  e_pushToken : sid -> matchType -> M unit;
  e_leafs : sid -> M (list sid);
  e_makeValid : sid -> M unit;
  e_makeInvalid : sid -> M unit
}.

Definition recursion_msg : string := "maximum recursion depth exceeded".

(** The frame that exceeds the recursion limit of the interpreter. *)
Definition engine_overflow : engine :=
  {| e_getState := fun _ _ => raise (RuntimeError recursion_msg);
     e_pushToken := fun _ _ => raise (RuntimeError recursion_msg);
     e_leafs := fun _ => raise (RuntimeError recursion_msg);
     e_makeValid := fun _ => raise (RuntimeError recursion_msg);
     e_makeInvalid := fun _ => raise (RuntimeError recursion_msg) |}.

Definition no_substate_msg : string := "State is no substate of me.".
Definition not_in_list_msg : string := "list.remove(x): x not in list".

Section Methods.

(** The symbol objects of the grammar. *)
Variable tab : list symbol.

(** Iteration budget of one run of the generator [possibilities]. *)
Variable gas : nat.

(** The methods one frame deeper. *)
Variable e : engine.

(** [self.symbol] *)
Definition symbol_of (st : pstate) : M symbol :=
  fun h => match tab !! st_symbol st with Some sy => Ret (sy, h) | None => Stuck end.

(** [parserState.addPossibility] *)
Definition addPossibility (s p : sid) : M unit :=
  modify s (fun st =>
    if _yieldsPossibilities st
    then set_addedPossibilities (_addedPossibilities st ++ [p]) st
    else set_possibilities (_possibilities st ++ [p]) st).

(** [parserState.addPossibilityNow] *)
Definition addPossibilityNow (s p : sid) : M unit :=
  modify s (fun st => set_possibilities (_possibilities st ++ [p]) st).

(** [parserState.removePossibility] *)
Definition removePossibility (s p : sid) : M unit :=
  st <- get s ;;
  if negb (mem p (_possibilities st)) && negb (mem p (_addedPossibilities st))
  then raise (ValueError no_substate_msg)
  else if _yieldsPossibilities st
  then modify s (fun st => set_removedPossibilities (_removedPossibilities st ++ [p]) st)
  else if mem p (_possibilities st)
  then modify s (fun st => set_possibilities (remove_first p (_possibilities st)) st)
  else raise (ValueError not_in_list_msg).

(** [chain.stateType.copyResAndCurPosFor] *)
Definition copyResAndCurPosFor (s p : sid) : M unit :=
  st <- get s ;;
  assert_parent st ;;
  match currentlyWorksOn st with
  | None =>
      modify s (fun st => set_results (dict_set (Some p) [] (results st)) st) ;;
      modify s (fun st => set_currentPositions (dict_set (Some p) 0 (currentPositions st)) st)
  | Some w =>
      r <- lookup_or KeyError (dict_get (Some w) (results st)) ;;
      modify s (fun st => set_results (dict_set (Some p) r (results st)) st) ;;
      c <- lookup_or KeyError (dict_get (Some w) (currentPositions st)) ;;
      modify s (fun st => set_currentPositions (dict_set (Some p) c (currentPositions st)) st)
  end.

(** The two asserts that close [addPossibility] and [addPossibilityNow] of
    [chain.stateType]. *)
Definition assert_tracked (s p : sid) : M unit :=
  st <- get s ;;
  assert_ (dict_has (Some p) (results st)) ;;
  assert_ (dict_has (Some p) (currentPositions st)).

(** [chain.stateType.addPossibility] *)
Definition chain_addPossibility (s p : sid) : M unit :=
  st <- get s ;;
  assert_parent st ;;
  addPossibility s p ;;
  copyResAndCurPosFor s p ;;
  assert_tracked s p.

(** [chain.stateType.addPossibilityNow] *)
Definition chain_addPossibilityNow (s p : sid) : M unit :=
  st <- get s ;;
  assert_parent st ;;
  addPossibilityNow s p ;;
  copyResAndCurPosFor s p ;;
  assert_tracked s p.

(** [chain.stateType.removePossibility] *)
Definition chain_removePossibility (s p : sid) : M unit :=
  removePossibility s p ;;
  modify s (fun st =>
    if dict_has (Some p) (results st)
    then set_results (dict_del (Some p) (results st)) st else st) ;;
  modify s (fun st =>
    if dict_has (Some p) (currentPositions st)
    then set_currentPositions (dict_del (Some p) (currentPositions st)) st else st).

(** [s.addPossibility(p)], resolved by the class of [s]. *)
Definition call_addPossibility (s p : sid) : M unit :=
  st <- get s ;;
  if is_chain_type (st_class st) then chain_addPossibility s p else addPossibility s p.

(** [s.removePossibility(p)], resolved by the class of [s]. *)
Definition call_removePossibility (s p : sid) : M unit :=
  st <- get s ;;
  if is_chain_type (st_class st) then chain_removePossibility s p else removePossibility s p.

(** [chain.stateType.fork]; [self.__class__(...)] with
    [withInitialPossibility = False] creates a bare state of the class of
    [self] (for [repeat.stateType] the call of
    [_addEmptyResultToParentEventually] finds [results] empty and returns). *)
Definition fork (s validState : sid) : M sid :=
  st <- get s ;;
  match st_parent st with
  | None => raise (RuntimeError "No parent to fork.")
  | Some par =>
      copy <- alloc (new_state (st_class st) (st_symbol st) (Some par)) ;;
      r <- lookup_or KeyError (dict_get (Some validState) (results st)) ;;
      modify copy (set_results [(Some validState, r)]) ;;
      c <- lookup_or KeyError (dict_get (Some validState) (currentPositions st)) ;;
      modify copy (set_currentPositions [(Some validState, c)]) ;;
      chain_removePossibility s validState ;;
      call_addPossibility par copy ;;
      pst <- get par ;;
      (if is_chain_type (st_class pst)
       then assert_ (dict_has (Some copy) (currentPositions pst)) ;;
            assert_ (dict_has (Some copy) (results pst))
       else ret tt) ;;
      ret copy
  end.

(** [chain.stateType.createNextState] *)
Definition createNextState (s validState : sid) : M unit :=
  st <- get s ;;
  let curWorksOn := currentlyWorksOn st in
  modify s (set_currentlyWorksOn (Some validState)) ;;
  pos <- lookup_or KeyError (dict_get (Some validState) (currentPositions st)) ;;
  sy <- symbol_of st ;;
  sym <- lookup_or IndexError (symbols_of sy !! pos) ;;
  nextState <- e_getState e sym s ;;
  st' <- get s ;;
  (if negb (mem validState (_possibilities st')) then chain_addPossibility s nextState
   else match curWorksOn with
        | None => chain_addPossibility s nextState
        | Some cur =>
            iv <- lookup_or (ValueError "not in list") (index_of validState (_possibilities st')) ;;
            ic <- lookup_or (ValueError "not in list") (index_of cur (_possibilities st')) ;;
            if iv <=? ic then chain_addPossibility s nextState
            else chain_addPossibilityNow s nextState
        end) ;;
  modify s (set_currentlyWorksOn curWorksOn).

(** [self.results[state].append(state)] *)
Definition append_result (s state : sid) : M unit :=
  st <- get s ;;
  r <- lookup_or KeyError (dict_get (Some state) (results st)) ;;
  modify s (fun st => set_results (dict_set (Some state) (r ++ [state]) (results st)) st).

(** [len(self.results[state])] *)
Definition result_count (s state : sid) : M nat :=
  st <- get s ;;
  r <- lookup_or KeyError (dict_get (Some state) (results st)) ;;
  ret (length r).

(** [parserRootState.setValidPossibility] *)
Definition root_setValidPossibility (s state : sid) : M unit :=
  modify s (fun st => set_validPossibilities (validPossibilities st ++ [state]) st) ;;
  removePossibility s state.

(** [chain.stateType.setValidPossibility] *)
Definition chain_setValidPossibility (s state : sid) : M unit :=
  st <- get s ;;
  assert_ (dict_has (Some state) (results st)) ;;
  append_result s state ;;
  c <- lookup_or KeyError (dict_get (Some state) (currentPositions st)) ;;
  modify s (fun st => set_currentPositions (dict_set (Some state) (c + 1) (currentPositions st)) st) ;;
  sy <- symbol_of st ;;
  if length (symbols_of sy) =? c + 1
  then newState <- fork s state ;; e_makeValid e newState
  else createNextState s state ;; chain_removePossibility s state.

(** [repeat.stateType.setValidPossibility] *)
Definition repeat_setValidPossibility (s state : sid) : M unit :=
  st <- get s ;;
  assert_parent st ;;
  sy <- symbol_of st ;;
  match sy with
  | repeat _ From To _ =>
      append_result s state ;;
      n <- result_count s state ;;
      (if (Z.of_nat n <? To)%Z || (To =? -1)%Z then createNextState s state else ret tt) ;;
      n' <- result_count s state ;;
      if (Z.of_nat n' >=? From)%Z
      then newState <- fork s state ;; e_makeValid e newState
      else chain_removePossibility s state
  | _ => raise (AttributeError "From")
  end.

(** [oneOf.stateType.setValidPossibility] *)
Definition oneOf_setValidPossibility (s state : sid) : M unit :=
  append_result s state ;;
  newState <- fork s state ;;
  e_makeValid e newState ;;
  chain_removePossibility s state.

(** [s.setValidPossibility(state)], resolved by the class of [s]. *)
Definition setValidPossibility (s state : sid) : M unit :=
  st <- get s ;;
  match st_class st with
  | KRoot => root_setValidPossibility s state
  | KChain => chain_setValidPossibility s state
  | KRepeat => repeat_setValidPossibility s state
  | KOneOf => oneOf_setValidPossibility s state
  | KToken => raise NotImplementedError
  end.

(** [parserState.makeValid] *)
Definition makeValid (s : sid) : M unit :=
  st <- get s ;;
  match st_parent st with
  | None => ret tt
  | Some par => setValidPossibility par s
  end.

(** [parserState.setInvalidPossibility] *)
Definition setInvalidPossibility (s state : sid) : M unit :=
  call_removePossibility s state ;;
  st <- get s ;;
  if length (_possibilities st) =? 0 then e_makeInvalid e s else ret tt.

(** [parserState.makeInvalid] *)
Definition makeInvalid (s : sid) : M unit :=
  st <- get s ;;
  match st_parent st with
  | None => raise (StatesExhausted s None)
  | Some par => setInvalidPossibility par s
  end.

(** [isInvalid], overridden by [parserRootState]. *)
Definition isInvalid (st : pstate) : bool :=
  match st_class st with
  | KRoot => (length (_possibilities st) =? 0) && (length (validPossibilities st) =? 0)
  | _ => length (_possibilities st) =? 0
  end.

(** The [for p in self._possibilities] loop of the generator
    [possibilities]: Python's list iterator reads the live list by index,
    so an element appended while the loop runs is visited too. [body] is
    what the consumer of the generator does with [p]; the lists it returns
    are concatenated. *)
Fixpoint possibilities_from (n : nat) (s : sid) (body : sid -> M (list sid))
         (i : nat) (acc : list sid) : M (list sid) :=
  fun h =>
    match h !! s with
    | None => Stuck
    | Some st =>
        match _possibilities st !! i with
        | None => Ret (acc, h)
        | Some p =>
            match n with
            | 0 => Stuck
            | S n' =>
                if mem p (_removedPossibilities st)
                then possibilities_from n' s body (S i) acc h
                else
                  match body p h with
                  | Ret (l, h') => possibilities_from n' s body (S i) (acc ++ l) h'
                  | Raise ex => Raise ex
                  | Stuck => Stuck
                  end
            end
        end
    end.

(** What [possibilities] does once the loop is exhausted. *)
Definition possibilities_end (s : sid) : M unit :=
  modify s (fun st =>
    set_possibilities (_possibilities st ++ _addedPossibilities st) st) ;;
  modify s (set_addedPossibilities []) ;;
  modify s (fun st =>
    set_possibilities
      (fold_left (fun l p => if mem p l then remove_first p l else l)
                 (_removedPossibilities st) (_possibilities st)) st) ;;
  modify s (set_removedPossibilities []) ;;
  modify s (set_yieldsPossibilities false) ;;
  st <- get s ;;
  if isInvalid st then makeInvalid s else ret tt.

(** [for p in self.possibilities(): body(p)] *)
Definition possibilities (s : sid) (body : sid -> M (list sid)) : M (list sid) :=
  modify s (set_yieldsPossibilities true) ;;
  l <- possibilities_from gas s body 0 [] ;;
  possibilities_end s ;;
  ret l.

(** [leafs]: [token.stateType] yields itself, the other classes the leafs
    of their possibilities. *)
Definition leafs (s : sid) : M (list sid) :=
  st <- get s ;;
  match st_class st with
  | KToken => ret [s]
  | _ => possibilities s (e_leafs e)
  end.

(** [token.stateType.pushToken] *)
Definition token_pushToken (s : sid) (tok : matchType) : M unit :=
  st <- get s ;;
  assert_parent st ;;
  if m_token tok =? st_symbol st
  then modify s (set_result (Some tok)) ;; makeValid s
  else makeInvalid s.

(** [chain.stateType.pushToken], inherited by [repeat] and [oneOf]. *)
Definition chain_pushToken (s : sid) (tok : matchType) : M unit :=
  st <- get s ;;
  assert_ (match currentlyWorksOn st with None => true | Some _ => false end) ;;
  assert_parent st ;;
  possibilities s (fun p =>
    st <- get s ;;
    assert_ (dict_has (Some p) (currentPositions st)) ;;
    assert_ (dict_has (Some p) (results st)) ;;
    modify s (set_currentlyWorksOn (Some p)) ;;
    e_pushToken e p tok ;;
    ret []) ;;
  modify s (set_currentlyWorksOn None).

(** [parserRootState.pushToken] *)
Definition root_pushToken (s : sid) (tok : matchType) : M unit :=
  modify s (set_validPossibilities []) ;;
  st <- get s ;;
  if length (_possibilities st) =? 0
  then raise (StatesExhausted s (Some (lastTokens st)))
  else
    modify s (set_lastTokens []) ;;
    ls <- possibilities s (e_leafs e) ;;
    modify s (set_lastTokens ls) ;;
    possibilities s (fun p => e_pushToken e p tok ;; ret []) ;;
    ret tt.

(** [s.pushToken(tok)], resolved by the class of [s]. *)
Definition pushToken (s : sid) (tok : matchType) : M unit :=
  st <- get s ;;
  match st_class st with
  | KRoot => root_pushToken s tok
  | KToken => token_pushToken s tok
  | KChain | KRepeat | KOneOf => chain_pushToken s tok
  end.

(** The initial possibility of [chain.stateType.__init__]. *)
Definition chain_init (s : sid) (symbols : list symid) : M unit :=
  sym <- lookup_or IndexError (symbols !! 0) ;;
  initialPossibility <- e_getState e sym s ;;
  chain_addPossibility s initialPossibility.

(** [repeat.stateType._addEmptyResultToParentEventually] *)
Definition addEmptyResultToParentEventually (s : sid) (From : Z) : M unit :=
  st <- get s ;;
  match results st, st_parent st with
  | [(_, [])], Some par =>
      if (From =? 0)%Z then
        emptyResult <- alloc (set_results [(None, [])]
                                (new_state KRepeat (st_symbol st) (Some par))) ;;
        call_addPossibility par emptyResult ;;
        e_makeValid e emptyResult
      else ret tt
  | _, _ => ret tt
  end.

(** The initial possibilities of [oneOf.stateType.__init__]. *)
Fixpoint oneOf_init (s : sid) (symbols : list symid) : M unit :=
  match symbols with
  | [] => ret tt
  | sym :: rest =>
      poss <- e_getState e sym s ;;
      chain_addPossibility s poss ;;
      oneOf_init s rest
  end.

(** [symbol.getState(parent = par)]: creates the state of the class
    [stateType] of the symbol and runs its [__init__]. *)
Definition getState (sym : symid) (par : sid) : M sid :=
  sy <- (fun h => match tab !! sym with Some sy => Ret (sy, h) | None => Stuck end) ;;
  match sy with
  | token _ _ => alloc (new_state KToken sym (Some par))
  | chain symbols _ =>
      s <- alloc (new_state KChain sym (Some par)) ;;
      chain_init s symbols ;;
      ret s
  | repeat x From _ _ =>
      s <- alloc (new_state KRepeat sym (Some par)) ;;
      chain_init s [x] ;;
      addEmptyResultToParentEventually s From ;;
      ret s
  | oneOf symbols _ =>
      s <- alloc (new_state KOneOf sym (Some par)) ;;
      oneOf_init s symbols ;;
      ret s
  | definedLater name => raise (RuntimeError (name ++ " not defined."))
  end.

End Methods.

(** The methods with [depth] frames left on the Python stack. *)
Fixpoint engine_at (tab : list symbol) (gas : nat) (depth : nat) : engine :=
  match depth with
  | 0 => engine_overflow
  | S d =>
      let e := engine_at tab gas d in
      {| e_getState := getState tab e;
         e_pushToken := pushToken tab gas e;
         e_leafs := leafs gas e;
         e_makeValid := makeValid tab e;
         e_makeInvalid := makeInvalid e |}
  end.

(** ** Evaluation: the [result] methods *)

(** [f(res, **context)] if the symbol has a merger, else [res]. *)
Definition apply_merger (m : option merger_fn) (v : value) (ctx : context) : res value :=
  match m with
  | Some f => f v ctx
  | None => Ret v
  end.

(** The loop [for r in posResults: if len(r) > len(res): res = r] of
    [repeat.stateType.result]. *)
Definition longest (first : list sid) (posResults : list (list sid)) : list sid :=
  fold_left (fun best r => if length best <? length r then r else best) posResults first.

(** The filter of [repeat.stateType.result]. *)
Definition admissible (From To : Z) (r : list sid) : bool :=
  (Z.of_nat (length r) >=? From)%Z
  && ((Z.of_nat (length r) <=? To)%Z || (To =? -1)%Z).

Section Result.

Variable tab : list symbol.
Variable ord : dict_order.
Variable h : heap.
Variable ctx : context.

(** [[i.result(context) for i in l]] with [rec] for the method. *)
Fixpoint results_of (rec : sid -> res value) (l : list sid) : res (list value) :=
  match l with
  | [] => Ret []
  | i :: r =>
      res_bind (rec i) (fun v =>
      res_bind (results_of rec r) (fun vs => Ret (v :: vs)))
  end.

(** [token.stateType.result] *)
Definition token_result (st : pstate) (m : option merger_fn) : res value :=
  match st_parent st, _result st with
  | None, _ => Raise AssertionError
  | Some _, None => Raise AssertionError
  | Some _, Some r => apply_merger m (m_result r) ctx
  end.

(** [chain.stateType.result] *)
Definition chain_result (rec : sid -> res value) (s : sid) (st : pstate)
           (symbols : list symid) (m : option merger_fn) : res value :=
  match st_parent st with
  | None => Raise AssertionError
  | Some _ =>
      match List.filter (fun r => length r =? length symbols) (viewvalues ord (results st)) with
      | [] => Raise (NotCompleted s)
      | [r] => res_bind (results_of rec r) (fun l => apply_merger m (VList l) ctx)
      | _ => Raise (AmbigiousResults s)
      end
  end.

(** [repeat.stateType.result] *)
Definition repeat_result (rec : sid -> res value) (s : sid) (st : pstate)
           (From To : Z) (m : option merger_fn) : res value :=
  match st_parent st with
  | None => Raise AssertionError
  | Some _ =>
      match List.filter (admissible From To) (viewvalues ord (results st)) with
      | [] => Raise (NotCompleted s)
      | first :: rest =>
          res_bind (results_of rec (longest first (first :: rest))) (fun l =>
          apply_merger m (VList l) ctx)
      end
  end.

(** [oneOf.stateType.result] *)
Definition oneOf_result (rec : sid -> res value) (s : sid) (st : pstate)
           (m : option merger_fn) : res value :=
  if forallb (fun r => length r <=? 1) (viewvalues ord (results st)) then
    match List.filter (fun r => length r =? 1) (viewvalues ord (results st)) with
    | [] => Raise (NotCompleted s)
    | [r] =>
        match r with
        | i :: _ => res_bind (rec i) (fun l => apply_merger m l ctx)
        | [] => Raise IndexError
        end
    | _ => Raise (AmbigiousResults s)
    end
  else Raise AssertionError.

(** [s.result(context)] for the states below the root, with [depth] frames
    left on the Python stack. *)
Fixpoint result (depth : nat) (s : sid) : res value :=
  match depth with
  | 0 => Raise (RuntimeError recursion_msg)
  | S d =>
      match h !! s with
      | None => Stuck
      | Some st =>
          match tab !! st_symbol st with
          | None => Stuck
          | Some sy =>
              match st_class st, sy with
              | KToken, token _ m => token_result st m
              | KChain, chain symbols m => chain_result (result d) s st symbols m
              | KRepeat, repeat _ From To m => repeat_result (result d) s st From To m
              | KOneOf, oneOf _ m => oneOf_result (result d) s st m
              | _, _ => Raise (TypeError "result")
              end
          end
      end
  end.

(** [parserRootState.result] *)
Definition root_result (depth : nat) (s : sid) : res value :=
  match h !! s with
  | None => Stuck
  | Some st =>
      match validPossibilities st with
      | [] => Raise (NotCompleted s)
      | [p] => result depth p
      | _ => Raise (AmbigiousResults s)
      end
  end.

End Result.

(** ** [grammar.parse] *)

(** What the host interpreter bounds: the depth of the Python stack, and (for
    the model only) the iterations of one run of [possibilities]. *)
Record limits := {
  recursion_limit : nat;
  loop_gas : nat
}.

(** [parserRootState.__init__] *)
Definition parserRootState_init (e : engine) (symbol : symid) : M sid :=
  root <- alloc (new_state KRoot symbol None) ;;
  p <- e_getState e symbol root ;;
  addPossibility root p ;;
  ret root.

(** [for t in tokens: state.pushToken(t)] *)
Fixpoint push_tokens (e : engine) (state : sid) (tokens : list matchType) : M unit :=
  match tokens with
  | [] => ret tt
  | t :: rest => e_pushToken e state t ;; push_tokens e state rest
  end.

(** The handler [except RuntimeError as e] of [parse]; [state] is the local
    variable of [parse], still [None] while the root state is built. *)
Definition reraise (state : option sid) (ex : exn) : exn :=
  match ex with
  | RuntimeError msg =>
      if String.prefix "maxim" msg then InfiniteStateExpansion state else ex
  | _ => ex
  end.

Definition except_RuntimeError {A} (state : option sid) (r : res A) : res A :=
  match r with
  | Raise ex => Raise (reraise state ex)
  | _ => r
  end.

(** [grammar.parse(self, text, context)] with [verbose = False]. *)
Definition parse (lim : limits) (ord : dict_order) (g : grammar)
           (text : string) (ctx : context) : res value :=
  res_bind (lex g text) (fun tokens =>
  let e := engine_at (symtab g) (loop_gas lim) (recursion_limit lim) in
  res_bind (except_RuntimeError None
              (parserRootState_init e (startSymbol g) [])) (fun built =>
  let '(state, h) := built in
  res_bind (except_RuntimeError (Some state) (push_tokens e state tokens h)) (fun pushed =>
  root_result (symtab g) ord (snd pushed) ctx (recursion_limit lim) state))).

(** ** Grammars of the test suite *)

(** Compiled patterns, as the functions [match(text, pos)] they denote. *)

(** A pattern without groups that matches the literal [lit]. *)
Definition re_literal (lit : string) : regex :=
  fun text pos =>
    if String.eqb (substring pos (String.length lit) text) lit
    then Some {| re_len := String.length lit; re_groupdict := [] |}
    else None.

(** [(?P<name>lit)] *)
Definition re_named (name lit : string) : regex :=
  fun text pos =>
    if String.eqb (substring pos (String.length lit) text) lit
    then Some {| re_len := String.length lit; re_groupdict := [(name, Some lit)] |}
    else None.

(** The number of leading characters [c] of [s]. *)
Fixpoint run_length (c : ascii) (s : string) : nat :=
  match s with
  | String d r => if Ascii.eqb c d then S (run_length c r) else 0
  | EmptyString => 0
  end.

(** [c*]: always matches, possibly the empty string (as [\s*] in the test
    [oneChar]). *)
Definition re_star (c : ascii) : regex :=
  fun text pos =>
    Some {| re_len := run_length c (substring pos (String.length text - pos) text);
            re_groupdict := [] |}.

(** A dict that is iterated in the order of insertion. *)
Definition ord_insertion : dict_order :=
  {| viewvalues := map snd;
     viewvalues_perm := fun d => Permutation_refl (map snd d) |}.

(** A dict that is iterated against the order of insertion. *)
Definition ord_reversed : dict_order :=
  {| viewvalues := fun d => rev (map snd d);
     viewvalues_perm := fun d => Permutation_sym (Permutation_rev (map snd d)) |}.

(** [sys.getrecursionlimit()] of CPython. *)
Definition default_limits : limits :=
  {| recursion_limit := 1000; loop_gas := 1000 |}.

(** [lexerState(tokens, [])] *)
Definition plain_lexerState (tokens : list symid) : lexerState :=
  {| ls_tokens := tokens; ls_omit := []; ls_pushOn := []; ls_popOn := None;
     ls_name := "lexerState" |}.

(** [grammar.fromSymbol(symbol)], given the tokens [symbol.getTokens()]. *)
Definition fromSymbol (tab : list symbol) (tokens : list symid) (start : symid) : grammar :=
  {| symtab := tab;
     lexerStates := [plain_lexerState tokens];
     lexerStartState := plain_lexerState tokens;
     startSymbol := start |}.

(** [tokenTests]: [tokA = token("(?P<a>a)")]. *)
Definition tokA : symbol := token (re_named "a" "a") None.

Definition tokenTests_grA : grammar := fromSymbol [tokA] [0] 0.

(** [tokenTests.oneChar]: [grammar.fromSymbol(token("\s*"))]. *)
Definition oneChar_grammar : grammar := fromSymbol [token (re_star " ") None] [0] 0.

(** [generalTests.infiniteExpansion]: [a = repeat(b)], [b = repeat(a)]. *)
Definition infiniteExpansion_grammar : grammar :=
  fromSymbol [repeat 1 0 (-1) None; repeat 0 0 (-1) None] [] 0.

(** [stateTests]: the tokens [a], [b], [c], [/b], [[ ]+]; [aState] accepts
    the first four, [bState] also omits blanks, is pushed on [b] and popped
    on [/b]. The blank token matches one or more blanks. *)
Definition re_blanks : regex :=
  fun text pos =>
    match run_length " " (substring pos (String.length text - pos) text) with
    | 0 => None
    | n => Some {| re_len := n; re_groupdict := [] |}
    end.

Definition stateTests_symbols : list symbol :=
  [token (re_literal "a") None; token (re_literal "b") None;
   token (re_literal "c") None; token (re_literal "/b") None;
   token re_blanks None;
   oneOf [0; 1; 2; 3] None; repeat 5 1 (-1) None].

Definition aState : lexerState :=
  {| ls_tokens := [0; 1; 2; 3]; ls_omit := []; ls_pushOn := []; ls_popOn := None;
     ls_name := "aState" |}.

Definition bState : lexerState :=
  {| ls_tokens := [0; 1; 2; 3]; ls_omit := [4]; ls_pushOn := [1]; ls_popOn := Some 3;
     ls_name := "bState" |}.

Definition stateTests_grammar : grammar :=
  {| symtab := stateTests_symbols; lexerStates := [aState; bState];
     lexerStartState := aState; startSymbol := 6 |}.

(** A grammar whose start lexer state is popped on its own token [a]. *)
Definition popped_start : lexerState :=
  {| ls_tokens := [0]; ls_omit := []; ls_pushOn := []; ls_popOn := Some 0;
     ls_name := "lexerStartState" |}.

Definition popped_start_grammar : grammar :=
  {| symtab := [token (re_literal "a") None; repeat 0 0 (-1) None];
     lexerStates := [popped_start]; lexerStartState := popped_start;
     startSymbol := 1 |}.

(** [chainTests]: [chain([a, b])] over the tokens [a] and [b]. *)
Definition chain_ab_symbols : list symbol :=
  [token (re_literal "a") None; token (re_literal "b") None; chain [0; 1] None].

Definition chain_ab_grammar : grammar := fromSymbol chain_ab_symbols [0; 1] 2.

Definition match_a : matchType :=
  {| m_token := 0; m_text := "a"; m_result := VStr "a"; m_start := 0; m_end := 1 |}.

(** The states of [chain_ab_grammar] while the root pushes the token [a]:
    the root (0) and the chain state (1) are iterating their possibilities,
    the chain state works on its token state (2), which has just stored the
    match and is about to call [makeValid]. *)
Definition chain_ab_pushing : heap :=
  [ set_yieldsPossibilities true
      (set_lastTokens [2] (set_possibilities [1] (new_state KRoot 2 None)));
    set_currentlyWorksOn (Some 2)
      (set_yieldsPossibilities true
         (set_currentPositions [(Some 2, 0)]
            (set_results [(Some 2, [])]
               (set_possibilities [2] (new_state KChain 2 (Some 0))))));
    set_result (Some match_a) (new_state KToken 0 (Some 1)) ].

(** The same states once [setValidPossibility] has recorded the valid token
    state and calls [createNextState]. *)
Definition chain_ab_recorded : heap :=
  [ set_yieldsPossibilities true
      (set_lastTokens [2] (set_possibilities [1] (new_state KRoot 2 None)));
    set_currentlyWorksOn (Some 2)
      (set_yieldsPossibilities true
         (set_currentPositions [(Some 2, 1)]
            (set_results [(Some 2, [2])]
               (set_possibilities [2] (new_state KChain 2 (Some 0))))));
    set_result (Some match_a) (new_state KToken 0 (Some 1)) ].

Definition chain_ab_engine : engine := engine_at chain_ab_symbols 10 10.

(** The heap a run leaves; the empty heap if it does not return. *)
Definition heap_after {A} (r : res (A * list pstate)) : heap :=
  match r with
  | Ret (_, h) => h
  | _ => []
  end.

(** [repeat(a)], [repeat(repeat(a))] and [repeat(optional(a), 0, 2)]. *)
Definition repeat_token_grammar : grammar :=
  fromSymbol [token (re_literal "a") None; repeat 0 0 (-1) None] [0] 1.

Definition nested_repeat_grammar : grammar :=
  fromSymbol [token (re_literal "a") None; repeat 0 0 (-1) None; repeat 1 0 (-1) None]
             [0] 2.

Definition repeat_optional_grammar : grammar :=
  fromSymbol [token (re_literal "a") None; optional 0 None; repeat 1 0 2 None] [0] 2.

(** ** States of the runs on [chain([a, b])] *)

(** The heap the root state of [chain_ab_grammar] builds, and the heap once
    the token [a] has been pushed. *)
Definition chain_ab_built : heap :=
  heap_after (parserRootState_init chain_ab_engine 2 []).

Definition chain_ab_after_a : heap :=
  heap_after (push_tokens chain_ab_engine 0 [match_a] chain_ab_built).

(** The chain state (1) in [chain_ab_recorded]: it iterates and works on
    the token state of [a]. *)
Definition chain_ab_working : pstate :=
  set_currentlyWorksOn (Some 2)
    (set_yieldsPossibilities true
       (set_currentPositions [(Some 2, 1)]
          (set_results [(Some 2, [2])]
             (set_possibilities [2] (new_state KChain 2 (Some 0)))))).

(** The chain state (1) in [chain_ab_after_a]: it waits for [b]. *)
Definition chain_ab_waiting : pstate :=
  set_currentPositions [(Some 3, 1)]
    (set_results [(Some 3, [2])]
       (set_possibilities [3] (new_state KChain 2 (Some 0)))).


(** ** Predicates of the specification *)

(** The errors the lexer can raise. *)
Definition lex_error (text : string) (e : exn) : Prop :=
  (exists pos mode, e = LexerError text pos mode)
  \/ e = ValueError zero_length_msg
  \/ e = AttributeError "lexerState"
  \/ e = AttributeError "match".

(** Every token of a lexer state is a symbol of the grammar. *)
Definition mode_defined (tab : list symbol) (ls : lexerState) : Prop :=
  Forall (fun tok => is_Some (tab !! tok)) (ls_omit ls ++ ls_tokens ls).

Definition lexer_defined (g : grammar) : Prop :=
  mode_defined (symtab g) (lexerStartState g)
  /\ Forall (mode_defined (symtab g)) (lexerStates g).

(** [best] is the first among the longest lists of [l]. *)
Definition is_first_longest (best : list sid) (l : list (list sid)) : Prop :=
  exists i,
    l !! i = Some best
    /\ (forall r, In r l -> length r <= length best)
    /\ (forall j r, j < i -> l !! j = Some r -> length r < length best).

(** [validState] is in the list [l] behind the alternative [cur] that is
    being iterated. *)
Definition after_current (validState : sid) (cur : option sid) (l : list sid) : Prop :=
  exists c iv ic,
    cur = Some c
    /\ index_of validState l = Some iv
    /\ index_of c l = Some ic
    /\ ic < iv.

(** The state [copyResAndCurPosFor] leaves: [p] has the result list [r] and
    the position [c]. *)
Definition with_entries (p : sid) (r : list sid) (c : nat) (st : pstate) : pstate :=
  set_currentPositions (dict_set (Some p) c (currentPositions st))
    (set_results (dict_set (Some p) r (results st)) st).

(** The entries a new possibility starts with: those of the branch the state
    works on, or the empty list and position 0. *)
Definition copied_entries (st : pstate) (r : list sid) (c : nat) : Prop :=
  match currentlyWorksOn st with
  | None => r = [] /\ c = 0
  | Some w =>
      dict_get (Some w) (results st) = Some r
      /\ dict_get (Some w) (currentPositions st) = Some c
  end.

(** The state [parserState.addPossibility] leaves. *)
Definition with_possibility (p : sid) (st : pstate) : pstate :=
  if _yieldsPossibilities st
  then set_addedPossibilities (_addedPossibilities st ++ [p]) st
  else set_possibilities (_possibilities st ++ [p]) st.

(** The state [parserState.removePossibility] leaves. *)
Definition without_possibility (p : sid) (st : pstate) : pstate :=
  if _yieldsPossibilities st
  then set_removedPossibilities (_removedPossibilities st ++ [p]) st
  else set_possibilities (remove_first p (_possibilities st)) st.

(** The state [chain.stateType.removePossibility] leaves. *)
Definition without_entries (p : sid) (st : pstate) : pstate :=
  set_currentPositions (dict_del (Some p) (currentPositions st))
    (set_results (dict_del (Some p) (results st)) st).


(** The alternatives of a state: the live list and those waiting to join it. *)
Definition members (st : pstate) : list sid :=
  _possibilities st ++ _addedPossibilities st.

(** Every alternative that is not pending removal has an entry in [results]
    and in [currentPositions]. *)
Definition tracked (st : pstate) : Prop :=
  forall p,
    In p (members st) ->
    ~ In p (_removedPossibilities st) ->
    dict_has (Some p) (results st) = true
    /\ dict_has (Some p) (currentPositions st) = true.

(** A state of a heap with [n] objects: its alternatives are objects of the
    heap, and a chain-type state tracks each alternative once. *)
Definition wf_state (n : nat) (st : pstate) : Prop :=
  (forall p, In p (members st) -> p < n)
  /\ (is_chain_type (st_class st) = true -> tracked st /\ NoDup (members st)).

Definition wf_heap (h : heap) : Prop :=
  forall s st, h !! s = Some st -> wf_state (length h) st.

(** From [h] to [h'] every object kept its class, and a state gained only
    alternatives created at or after the [n]-th object. *)
Definition grows (n : nat) (h h' : heap) : Prop :=
  length h <= length h'
  /\ (forall s st,
        h !! s = Some st -> exists st', h' !! s = Some st' /\ st_class st' = st_class st)
  /\ forall s st' q,
       h' !! s = Some st' -> In q (members st') ->
       n <= q \/ exists st, h !! s = Some st /\ In q (members st).

(** The object [p] is nobody's alternative. *)
Definition fresh (p : sid) (h : heap) : Prop :=
  forall s st, h !! s = Some st -> ~ In p (members st).

(** The heap [h] of a run that started in the well-formed heap [h0]. *)
Definition run_ok (n : nat) (h0 h : heap) : Prop :=
  wf_heap h /\ n <= length h /\ grows n h0 h.

(** A method that keeps the heap well-formed. *)
Definition keeps {A} (c : M A) : Prop :=
  forall h a h', wf_heap h -> c h = Ret (a, h') -> wf_heap h' /\ grows (length h) h h'.

(** A method that creates the object it returns. *)
Definition creates (c : M sid) : Prop :=
  forall h p h',
    wf_heap h -> c h = Ret (p, h') ->
    wf_heap h' /\ p = length h /\ length h < length h' /\ grows (S (length h)) h h'.

Definition engine_ok (e : engine) : Prop :=
  (forall sym par, creates (e_getState e sym par))
  /\ (forall s tok, keeps (e_pushToken e s tok))
  /\ (forall s, keeps (e_leafs e s))
  /\ (forall s, keeps (e_makeValid e s))
  /\ (forall s, keeps (e_makeInvalid e s)).

(** The checks that let [removePossibility] return. *)
Definition removable (p : sid) (st : pstate) : Prop :=
  (In p (_possibilities st) \/ In p (_addedPossibilities st))
  /\ (_yieldsPossibilities st = false -> In p (_possibilities st)).

(** The bookkeeping at the end of [possibilities]. *)
Definition settled (st : pstate) : pstate :=
  set_yieldsPossibilities false
    (set_removedPossibilities []
       (set_possibilities
          (fold_left (fun l p => if mem p l then remove_first p l else l)
                     (_removedPossibilities st)
                     (_possibilities st ++ _addedPossibilities st))
          (set_addedPossibilities [] st))).


(** The test of [_addEmptyResultToParentEventually] on [results]: exactly one
    entry, and that entry empty. *)
Definition single_empty (d : pydict (list sid)) : bool :=
  match d with
  | [(_, [])] => true
  | _ => false
  end.

(** The empty twin of a repetition state: no possibility, no completed
    child. *)
Definition twin_state (sym : symid) (par : sid) : pstate :=
  set_results [(None, [])] (new_state KRepeat sym (Some par)).

(** The copy [fork] makes of the branch of [validState]. *)
Definition forked_state (st : pstate) (par validState : sid) (r : list sid) (c : nat)
  : pstate :=
  set_currentPositions [(Some validState, c)]
    (set_results [(Some validState, r)]
       (new_state (st_class st) (st_symbol st) (Some par))).

(** [st] is an empty twin of the symbol [sym]. *)
Definition is_empty_twin (sym : symid) (st : pstate) : bool :=
  (st_symbol st =? sym)
  && match results st with
     | [(None, [])] => true
     | _ => false
     end.
(** The lexer states the lexer can be in: the start state and the states
    that a token pushes. *)
Definition modes (g : grammar) : list lexerState :=
  lexerStartState g :: lexerStates g.

(** The matches of [l] lie in [text] one behind the other, from the position
    [from] on: each spans at least one character inside the text, carries
    the slice it spans, and starts where the one before ended or later. *)
Fixpoint in_order (text : string) (from : nat) (l : list matchType) : Prop :=
  match l with
  | [] => True
  | m :: r =>
      from <= m_start m
      /\ m_start m < m_end m
      /\ m_end m <= String.length text
      /\ m_text m = substring (m_start m) (m_end m - m_start m) text
      /\ in_order text (m_end m) r
  end.

(** The texts of the matches, joined. *)
Definition joined (l : list matchType) : string :=
  fold_right (fun m s => (m_text m ++ s)%string) "" l.

(** No token of [toks] matches [text] at [pos]. *)
Definition none_matches (tab : list symbol) (toks : list symid) (text : string) (pos : nat)
  : Prop :=
  Forall (fun tok => match_at tab tok text pos = Ret None) toks.

(** [repeat] and [optional] symbols. *)
Definition is_repeat (sy : symbol) : bool :=
  match sy with
  | repeat _ _ _ _ => true
  | _ => false
  end.

(** A grammar without [repeat] and [optional] symbols. *)
Definition repeat_free (tab : list symbol) : Prop :=
  forallb (fun sy => negb (is_repeat sy)) tab = true.

(** The symbol whose state is built first when the state of [sy] is built:
    the first of [symbols]; a token builds no further state. *)
Definition first_symbol (sy : symbol) : option symid := symbols_of sy !! 0.

(** The symbol reached from [a] after [k] steps from a symbol to its first
    symbol. *)
Fixpoint descend (tab : list symbol) (k : nat) (a : symid) : option symid :=
  match k with
  | 0 => Some a
  | S k' =>
      match tab !! a with
      | Some sy =>
          match first_symbol sy with
          | Some b => descend tab k' b
          | None => None
          end
      | None => None
      end
  end.

(** The way along first symbols never ends: the symbol is left-recursive. *)
Definition left_recursive (tab : list symbol) (a : symid) : Prop :=
  forall k, is_Some (descend tab k a).

(** No two branches of [l] have the same number of completed children. *)
Definition tie_free (l : list (list sid)) : Prop :=
  forall r1 r2, In r1 l -> In r2 l -> length r1 = length r2 -> r1 = r2.

(** The admissible branches of a repetition state, in the order in which
    their keys were inserted into [results]. *)
Definition admissible_branches (From To : Z) (st : pstate) : list (list sid) :=
  List.filter (admissible From To) (map snd (results st)).

(** What the evaluation makes of the branch [best]: the list of the results
    of its children, or what the merger makes of this list. *)
Definition evaluated (rec : sid -> res value) (m : option merger_fn) (ctx : context)
           (best : list sid) : res value :=
  res_bind (results_of rec best) (fun l => apply_merger m (VList l) ctx).

(** The states of [repeat_token_grammar] once "aa" has been pushed, and the
    heap [repeat(a)] builds. *)
Definition repeat_token_engine : engine := engine_at (symtab repeat_token_grammar) 10 10.

Definition repeat_aa_tokens : list matchType :=
  [ {| m_token := 0; m_text := "a"; m_result := VStr "a"; m_start := 0; m_end := 1 |};
    {| m_token := 0; m_text := "a"; m_result := VStr "a"; m_start := 1; m_end := 2 |} ].

Definition repeat_aa_heap : heap :=
  heap_after (push_tokens repeat_token_engine 0 repeat_aa_tokens
                (heap_after (parserRootState_init repeat_token_engine 1 []))).


(** The repetition state (7) of [repeat_aa_heap] that the root holds as its
    valid possibility. *)
Definition repeat_aa_valid : pstate :=
  set_currentPositions [(Some 4, 0)]
    (set_results [(Some 4, [2; 4])] (new_state KRepeat 1 (Some 0))).

(** The heap in which the state of [repeat(a)] has got its initial child,
    below a root state, and this state. *)
Definition repeat_a_started : heap :=
  heap_after (chain_init (engine_at (symtab repeat_token_grammar) 10 9) 1 [0]
                ([new_state KRoot 1 None] ++ [new_state KRepeat 1 (Some 0)])).

Definition repeat_a_state : pstate :=
  set_currentPositions [(Some 2, 0)]
    (set_results [(Some 2, [])]
       (set_possibilities [2] (new_state KRepeat 1 (Some 0)))).

(** The heap the root state of [repeat(optional(a), 0, 2)] builds. *)
Definition repeat_optional_built : heap :=
  heap_after (parserRootState_init
                (engine_at (symtab repeat_optional_grammar) 10 10) 2 []).
(** The attribute [lastTokens] of the object [s0], if the heap has it. *)
Definition lastTokens_of (s0 : sid) (h : heap) : option (list sid) :=
  lastTokens <$> h !! s0.

(** A run from [h] to [h'] in which [s0] stays outside every list of
    alternatives and nothing is assigned to its [lastTokens]; no object
    changes its class. *)
Definition undisturbed (s0 : sid) (h h' : heap) : Prop :=
  s0 < length h'
  /\ fresh s0 h'
  /\ lastTokens_of s0 h' = lastTokens_of s0 h
  /\ forall s st, h !! s = Some st ->
       exists st', h' !! s = Some st' /\ st_class st' = st_class st.

(** A method that leaves the object [s0] undisturbed when [s0] is nobody's
    alternative, and whose value satisfies [post]. *)
Definition steady (s0 : sid) {A} (c : M A) (post : A -> Prop) : Prop :=
  forall h a h',
    s0 < length h -> fresh s0 h -> c h = Ret (a, h') ->
    undisturbed s0 h h' /\ post a.

(** The methods one frame deeper leave [s0] undisturbed; a token is pushed
    to objects other than [s0] only. *)
Definition engine_steady (s0 : sid) (e : engine) : Prop :=
  (forall sym par, steady s0 (e_getState e sym par) (fun p => p <> s0))
  /\ (forall s tok, s <> s0 -> steady s0 (e_pushToken e s tok) (fun _ => True))
  /\ (forall s, steady s0 (e_leafs e s) (fun _ => True))
  /\ (forall s, steady s0 (e_makeValid e s) (fun _ => True))
  /\ (forall s, steady s0 (e_makeInvalid e s) (fun _ => True)).

(** The objects of [l] are token states of the heap. *)
Definition token_states (h : heap) (l : list sid) : Prop :=
  Forall (fun p => exists st, h !! p = Some st /\ st_class st = KToken) l.

(** The heap in which [pushToken] of the root [s] collects the leafs: the
    valid possibilities and the last tokens are cleared. *)
Definition cleared (s : sid) (st : pstate) (h : heap) : heap :=
  <[s := set_lastTokens [] (set_validPossibilities [] st)]> h.

(** The states of [chain_ab_grammar] once "ab" has been pushed, and the
    token [b]. *)
Definition match_b : matchType :=
  {| m_token := 1; m_text := "b"; m_result := VStr "b"; m_start := 1; m_end := 2 |}.

Definition chain_ab_after_ab : heap :=
  heap_after (push_tokens chain_ab_engine 0 [match_a; match_b] chain_ab_built).

(** [p] is nobody's alternative, as a test. *)
Definition freshb (p : sid) (h : heap) : bool :=
  forallb (fun st => negb (mem p (members st))) h.

(** The root state of [chain_ab_grammar] once "a" has been pushed. *)
Definition chain_ab_root_after_a : pstate :=
  set_lastTokens [2] (set_possibilities [1] (new_state KRoot 2 None)).

(** ** The errors of [parse] *)

(** The errors the lexer raises on a grammar whose lexer states hold tokens
    and whose start state is never popped. *)
Definition lexing_error (text : string) (ex : exn) : Prop :=
  (exists pos mode, ex = LexerError text pos mode)
  \/ ex = ValueError zero_length_msg.

(** The errors raised while the states are built and the tokens pushed. *)
Definition running_error (ex : exn) : Prop :=
  match ex with
  | StatesExhausted _ _ => True
  | ValueError msg =>
      msg = no_substate_msg \/ msg = not_in_list_msg \/ msg = "not in list"
  | RuntimeError msg =>
      msg = recursion_msg \/ msg = "No parent to fork."
      \/ exists name, msg = (name ++ " not defined.")%string
  | AttributeError msg => msg = "From"
  | KeyError | IndexError | AssertionError | NotImplementedError => True
  | _ => False
  end.

(** What leaves the [try] block of [parse]: a [RuntimeError] whose message
    starts with "maxim" has become [InfiniteStateExpansion]. *)
Definition escaping_error (ex : exn) : Prop :=
  (exists state, ex = InfiniteStateExpansion state)
  \/ (running_error ex
      /\ forall msg, ex = RuntimeError msg -> String.prefix "maxim" msg = false).

(** The errors of the evaluation; the last are those of the mergers of the
    grammar. *)
Definition evaluation_error (tab : list symbol) (ctx : context) (ex : exn) : Prop :=
  (exists s, ex = NotCompleted s)
  \/ (exists s, ex = AmbigiousResults s)
  \/ ex = AssertionError
  \/ ex = IndexError
  \/ ex = TypeError "result"
  \/ ex = RuntimeError recursion_msg
  \/ (exists sy f v, In sy tab /\ merger_of sy = Some f /\ f v ctx = Raise ex).

(** A method that raises errors of [running_error] only. *)
Definition raises_in {A} (c : M A) : Prop :=
  forall h ex, c h = Raise ex -> running_error ex.

Definition engine_raises (e : engine) : Prop :=
  (forall sym par, raises_in (e_getState e sym par))
  /\ (forall s tok, raises_in (e_pushToken e s tok))
  /\ (forall s, raises_in (e_leafs e s))
  /\ (forall s, raises_in (e_makeValid e s))
  /\ (forall s, raises_in (e_makeInvalid e s)).

(** Every entry of a lexer state is a token of the grammar. *)
Definition mode_of_tokens (tab : list symbol) (ls : lexerState) : Prop :=
  Forall (fun tok => exists re m, tab !! tok = Some (token re m))
         (ls_omit ls ++ ls_tokens ls).

Definition lexer_of_tokens (g : grammar) : Prop :=
  mode_of_tokens (symtab g) (lexerStartState g)
  /\ Forall (mode_of_tokens (symtab g)) (lexerStates g).

(** [oneOf([optional(a), b])] and a start symbol that was never defined. *)
Definition oneOf_optional_grammar : grammar :=
  fromSymbol [token (re_literal "a") None; token (re_literal "b") None;
              optional 0 None; oneOf [2; 1] None] [0; 1] 3.

Definition undefined_start_grammar : grammar :=
  fromSymbol [token (re_literal "a") None; definedLater "x"] [0] 1.

(** * Theorems *)

(** ** The lexer *)

Lemma res_bind_Ret {A B} (r : res A) (k : A -> res B) (b : B) :
  res_bind r k = Ret b -> exists a, r = Ret a /\ k a = Ret b.
Proof. destruct r; simpl; intros H; try discriminate. exists a. auto. Qed.

Lemma res_bind_Raise {A B} (r : res A) (k : A -> res B) (e : exn) :
  res_bind r k = Raise e -> r = Raise e \/ exists a, r = Ret a /\ k a = Raise e.
Proof.
  destruct r; simpl; intros H; try discriminate.
  - right. exists a. auto.
  - left. injection H as <-. reflexivity.
Qed.

Lemma res_bind_Stuck {A B} (r : res A) (k : A -> res B) :
  res_bind r k = Stuck -> r = Stuck \/ exists a, r = Ret a /\ k a = Stuck.
Proof.
  destruct r; simpl; intros H; try discriminate.
  - right. exists a. auto.
  - left. reflexivity.
Qed.

(** A match returned by [token.match] starts at [pos] and ends after it. *)
Lemma token_match_Ret self regexp text pos m :
  token_match self regexp text pos = Ret (Some m) ->
  m_token m = self /\ m_start m = pos /\ pos < m_end m.
Proof.
  unfold token_match. destruct (regexp text pos) as [r|]; [|discriminate].
  destruct (Nat.eqb_spec (String.length (substring pos (re_len r) text)) 0) as [E|E];
    [discriminate|].
  intros H. injection H as <-. simpl. repeat split. lia.
Qed.

(** The errors [token.match] raises: only the zero-length [ValueError]. *)
Lemma token_match_Raise self regexp text pos e :
  token_match self regexp text pos = Raise e -> e = ValueError zero_length_msg.
Proof.
  unfold token_match. destruct (regexp text pos) as [r|]; [|discriminate].
  destruct (String.length (substring pos (re_len r) text) =? 0); [|discriminate].
  congruence.
Qed.

Lemma token_match_not_Stuck self regexp text pos :
  token_match self regexp text pos <> Stuck.
Proof.
  unfold token_match. destruct (regexp text pos) as [r|]; [|discriminate].
  destruct (String.length (substring pos (re_len r) text) =? 0); discriminate.
Qed.

Lemma first_match_Matched tab toks text pos tok m :
  first_match tab toks text pos = Ret (Matched tok m) ->
  In tok toks /\ m_token m = tok /\ pos < m_end m.
Proof.
  induction toks as [|t rest IH]; simpl; [discriminate|].
  unfold match_at. destruct (tab !! t) as [[re mg| | | |]|] eqn:Et; try discriminate.
  destruct (token_match t re text pos) as [[m'|]| |] eqn:Em; try discriminate.
  - intros H. injection H as <- <-.
    apply token_match_Ret in Em as (? & ? & ?). auto.
  - intros H. destruct (IH H) as (? & ? & ?). auto.
Qed.

Lemma first_match_Raise tab toks text pos e :
  first_match tab toks text pos = Raise e -> lex_error text e.
Proof.
  induction toks as [|t rest IH]; simpl; [discriminate|].
  unfold match_at. destruct (tab !! t) as [[re mg| | | |]|] eqn:Et; try discriminate;
    try (intros H; injection H as <-; right; right; right; reflexivity).
  destruct (token_match t re text pos) as [[m'|]| |] eqn:Em; try discriminate; auto.
  intros H. injection H as <-. apply token_match_Raise in Em. right; left. exact Em.
Qed.

Lemma first_match_not_Stuck tab toks text pos :
  Forall (fun tok => is_Some (tab !! tok)) toks ->
  first_match tab toks text pos <> Stuck.
Proof.
  induction 1 as [|t rest [sy Ht] _ IH]; simpl; [discriminate|].
  unfold match_at. rewrite Ht. destruct sy; try discriminate.
  destruct (token_match t regexp text pos) as [[m'|]| |] eqn:Em; try discriminate; auto.
  intros _. exact (token_match_not_Stuck _ _ _ _ Em).
Qed.

Lemma lex_body_advances g text v v' :
  lex_body g text v = Ret v' -> lx_pos v < lx_pos v'.
Proof.
  unfold lex_body. destruct (last (lx_states v)) as [top|]; [|discriminate].
  intros H. apply res_bind_Ret in H as ([|tok m] & Ho & H).
  - apply res_bind_Ret in H as ([|tok m] & Ha & H); [discriminate|].
    injection H as <-. simpl. apply first_match_Matched in Ha. tauto.
  - injection H as <-. simpl. apply first_match_Matched in Ho. tauto.
Qed.

Lemma lex_body_Raise g text v e :
  lex_body g text v = Raise e -> lex_error text e.
Proof.
  unfold lex_body. destruct (last (lx_states v)) as [top|].
  - intros H. apply res_bind_Raise in H as [H|([|tok m] & Ho & H)].
    + eapply first_match_Raise; eauto.
    + apply res_bind_Raise in H as [H|([|tok' m'] & Ha & H)].
      * eapply first_match_Raise; eauto.
      * injection H as <-. left. eauto.
      * discriminate.
    + discriminate.
  - intros H. injection H as <-. right; right; left. reflexivity.
Qed.

Lemma lex_loop_Raise fuel g text v e :
  lex_loop fuel g text v = Raise e -> lex_error text e.
Proof.
  revert v. induction fuel as [|n IH]; intros v; simpl;
    destruct (lx_pos v <? String.length text); try discriminate.
  intros H. apply res_bind_Raise in H as [H|(v' & _ & H)].
  - eapply lex_body_Raise; eauto.
  - eauto.
Qed.

Lemma pushOn_table_In states tok st :
  pushOn_table states tok = Some st -> In st states.
Proof.
  unfold pushOn_table.
  assert (G : forall acc, fold_left (fun acc st => if bool_decide (tok ∈ ls_pushOn st) then Some st else acc) states acc = Some st -> acc = Some st \/ In st states).
  { induction states as [|s r IH]; simpl; intros acc H; [auto|].
    apply IH in H as [H|H]; [|auto].
    destruct (bool_decide (tok ∈ ls_pushOn s)); [injection H as ->|]; auto. }
  intros H. apply G in H as [H|H]; [discriminate|auto].
Qed.

Lemma Forall_removelast {A} (P : A -> Prop) (l : list A) :
  Forall P l -> Forall P (removelast l).
Proof.
  induction 1 as [|x l Hx Hl IH]; simpl; [constructor|].
  destruct l; [constructor|]. constructor; auto.
Qed.

Lemma switch_states_defined g tok states :
  lexer_defined g ->
  Forall (mode_defined (symtab g)) states ->
  Forall (mode_defined (symtab g)) (switch_states g tok states).
Proof.
  intros [_ Hg] Hs. unfold switch_states, push_state, pop_state.
  assert (Hp : Forall (mode_defined (symtab g))
                 match last states with
                 | Some top => if bool_decide (ls_popOn top = Some tok)
                               then removelast states else states
                 | None => states
                 end).
  { destruct (last states); [|auto].
    destruct (bool_decide _); auto using Forall_removelast. }
  destruct (pushOn_table (lexerStates g) tok) as [st|] eqn:E; [|exact Hp].
  apply Forall_app. split; [exact Hp|]. constructor; [|constructor].
  apply pushOn_table_In in E. rewrite Forall_forall in Hg. apply Hg.
  apply list_elem_of_In. exact E.
Qed.

Lemma lex_body_defined g text v v' :
  lexer_defined g ->
  Forall (mode_defined (symtab g)) (lx_states v) ->
  lex_body g text v = Ret v' ->
  Forall (mode_defined (symtab g)) (lx_states v').
Proof.
  intros Hg Hs. unfold lex_body. destruct (last (lx_states v)) as [top|]; [|discriminate].
  intros H. apply res_bind_Ret in H as ([|tok m] & Ho & H).
  - apply res_bind_Ret in H as ([|tok m] & Ha & H); [discriminate|].
    injection H as <-. simpl. auto using switch_states_defined.
  - injection H as <-. simpl. auto using switch_states_defined.
Qed.

Lemma lex_body_not_Stuck g text v :
  Forall (mode_defined (symtab g)) (lx_states v) ->
  lex_body g text v <> Stuck.
Proof.
  intros Hs. unfold lex_body. destruct (last (lx_states v)) as [top|] eqn:El; [|discriminate].
  assert (Ht : mode_defined (symtab g) top).
  { rewrite Forall_forall in Hs. apply Hs. apply last_Some in El as [l' ->].
    apply list_elem_of_In, in_or_app. right. left. reflexivity. }
  unfold mode_defined in Ht. apply Forall_app in Ht as [Ho Ha].
  intros H. apply res_bind_Stuck in H as [H|([|tok m] & _ & H)].
  - exact (first_match_not_Stuck _ _ _ _ Ho H).
  - apply res_bind_Stuck in H as [H|([|tok' m'] & _ & H)]; try discriminate.
    exact (first_match_not_Stuck _ _ _ _ Ha H).
  - discriminate.
Qed.

(** With as many iterations as characters are left, the loop of [lex] ends,
    and more iterations do not change what it returns. *)
Lemma lex_loop_total g text :
  lexer_defined g ->
  forall fuel v,
    Forall (mode_defined (symtab g)) (lx_states v) ->
    String.length text - lx_pos v <= fuel ->
    lex_loop fuel g text v <> Stuck
    /\ forall fuel', fuel <= fuel' -> lex_loop fuel' g text v = lex_loop fuel g text v.
Proof.
  intros Hg. induction fuel as [|n IH]; intros v Hs Hf.
  - assert (E : (lx_pos v <? String.length text) = false) by (apply Nat.ltb_ge; lia).
    split.
    + simpl. rewrite E. discriminate.
    + intros [|f'] _; simpl; rewrite E; reflexivity.
  - destruct (lx_pos v <? String.length text) eqn:E.
    + assert (Hstep : forall v', lex_body g text v = Ret v' ->
                 lex_loop n g text v' <> Stuck
                 /\ forall fuel', n <= fuel' -> lex_loop fuel' g text v' = lex_loop n g text v').
      { intros v' Hb. apply IH.
        - eapply lex_body_defined; eauto.
        - apply lex_body_advances in Hb. lia. }
      split.
      * simpl. rewrite E. intros H. apply res_bind_Stuck in H as [H|(v' & Hb & H)].
        -- exact (lex_body_not_Stuck _ _ _ Hs H).
        -- exact (proj1 (Hstep v' Hb) H).
      * intros [|f'] Hle; [lia|]. simpl. rewrite E.
        destruct (lex_body g text v) as [v'| |] eqn:Hb; simpl; try reflexivity.
        apply (Hstep v' eq_refl). lia.
    + split.
      * simpl. rewrite E. discriminate.
      * intros [|f'] _; simpl; rewrite E; reflexivity.
Qed.

(** ** The heap monad *)

Lemma bind_Ret {A B} (c : M A) (k : A -> M B) h b h' :
  bind c k h = Ret (b, h') ->
  exists a h1, c h = Ret (a, h1) /\ k a h1 = Ret (b, h').
Proof.
  unfold bind. destruct (c h) as [[a h1]| |]; try discriminate.
  intros H. exists a, h1. auto.
Qed.

Lemma get_Ret s h st h' : get s h = Ret (st, h') -> h' = h /\ h !! s = Some st.
Proof.
  unfold get. destruct (h !! s); [|discriminate].
  intros H. injection H as -> ->. auto.
Qed.

Lemma get_eq s h st : h !! s = Some st -> get s h = Ret (st, h).
Proof. unfold get. intros ->. reflexivity. Qed.

Lemma modify_Ret s f h u h' :
  modify s f h = Ret (u, h') -> exists st, h !! s = Some st /\ h' = <[s := f st]> h.
Proof.
  unfold modify. destruct (h !! s) as [st|]; [|discriminate].
  intros H. injection H as _ <-. exists st. auto.
Qed.

Lemma modify_eq s f h st : h !! s = Some st -> modify s f h = Ret (tt, <[s := f st]> h).
Proof. unfold modify. intros ->. reflexivity. Qed.

Lemma lookup_insert_same (h : heap) s st v : h !! s = Some st -> <[s := v]> h !! s = Some v.
Proof. intros H. apply list_lookup_insert_eq. exact (lookup_lt_Some _ _ _ H). Qed.

Lemma assert_Ret b h u h' : assert_ b h = Ret (u, h') -> b = true /\ h' = h.
Proof. destruct b; simpl; [|discriminate]. intros H. injection H as _ <-. auto. Qed.

Lemma lookup_or_Ret {A} e (o : option A) h a h' :
  lookup_or e o h = Ret (a, h') -> o = Some a /\ h' = h.
Proof. destruct o; simpl; [|discriminate]. intros H. injection H as <- <-. auto. Qed.

Lemma bind_get {B} s (k : pstate -> M B) h st :
  h !! s = Some st -> bind (get s) k h = k st h.
Proof. intros H. unfold bind. rewrite (get_eq _ _ _ H). reflexivity. Qed.

Lemma bind_modify {B} s f (k : unit -> M B) h st :
  h !! s = Some st -> bind (modify s f) k h = k tt (<[s := f st]> h).
Proof. intros H. unfold bind. rewrite (modify_eq _ _ _ _ H). reflexivity. Qed.

Lemma bind_alloc {B} st (k : sid -> M B) h :
  bind (alloc st) k h = k (length h) (h ++ [st]).
Proof. reflexivity. Qed.

Lemma bind_ret {A B} (a : A) (k : A -> M B) h : bind (ret a) k h = k a h.
Proof. reflexivity. Qed.

Lemma bind_bind {A B C} (c : M A) (k : A -> M B) (k' : B -> M C) h :
  bind (bind c k) k' h = bind c (fun a => bind (k a) k') h.
Proof. unfold bind. destruct (c h) as [[a h1]| |]; reflexivity. Qed.

Lemma bind_eq {A B} (c : M A) (k : A -> M B) h a h1 :
  c h = Ret (a, h1) -> bind c k h = k a h1.
Proof. intros H. unfold bind. rewrite H. reflexivity. Qed.

Lemma bind_at {A B} (c c' : M A) (k : A -> M B) h :
  c h = c' h -> bind c k h = bind c' k h.
Proof. intros H. unfold bind. rewrite H. reflexivity. Qed.

(** ** Dicts *)

Lemma key_eqb_eq a b : key_eqb a b = true <-> a = b.
Proof.
  destruct a as [x|], b as [y|]; simpl; try (split; congruence).
  rewrite Nat.eqb_eq. split; congruence.
Qed.

Lemma key_eqb_refl a : key_eqb a a = true.
Proof. apply key_eqb_eq. reflexivity. Qed.

Lemma key_eqb_neq a b : a <> b -> key_eqb a b = false.
Proof.
  intros H. destruct (key_eqb a b) eqn:E; [|reflexivity].
  apply key_eqb_eq in E. contradiction.
Qed.

Lemma dict_get_set_same {V} k (v : V) d : dict_get k (dict_set k v d) = Some v.
Proof.
  induction d as [|[k' v'] r IH]; simpl.
  - rewrite key_eqb_refl. reflexivity.
  - destruct (key_eqb k k') eqn:E; simpl; rewrite ?key_eqb_refl, ?E; auto.
Qed.

Lemma dict_get_set_other {V} k k' (v : V) d :
  k <> k' -> dict_get k' (dict_set k v d) = dict_get k' d.
Proof.
  intros Hne. induction d as [|[k2 v2] r IH]; simpl.
  - rewrite key_eqb_neq by congruence. reflexivity.
  - destruct (key_eqb k k2) eqn:E; simpl.
    + apply key_eqb_eq in E as <-. rewrite key_eqb_neq by congruence. reflexivity.
    + destruct (key_eqb k' k2); auto.
Qed.

Lemma dict_get_del_same {V} k (d : pydict V) : dict_get k (dict_del k d) = None.
Proof.
  induction d as [|[k' v'] r IH]; simpl; [reflexivity|].
  destruct (key_eqb k k') eqn:E; simpl; rewrite ?E; auto.
Qed.

Lemma dict_get_del_other {V} k k' (d : pydict V) :
  k <> k' -> dict_get k' (dict_del k d) = dict_get k' d.
Proof.
  intros Hne. induction d as [|[k2 v2] r IH]; simpl; [reflexivity|].
  destruct (key_eqb k k2) eqn:E; simpl.
  - apply key_eqb_eq in E as <-. rewrite key_eqb_neq by congruence. exact IH.
  - destruct (key_eqb k' k2); auto.
Qed.

Lemma dict_has_set_same {V} k (v : V) d : dict_has k (dict_set k v d) = true.
Proof. unfold dict_has. rewrite dict_get_set_same. reflexivity. Qed.

Lemma dict_has_set {V} k k' (v : V) d :
  dict_has k' d = true -> dict_has k' (dict_set k v d) = true.
Proof.
  unfold dict_has. destruct (decide (k = k')) as [<-|Hne].
  - rewrite dict_get_set_same. reflexivity.
  - rewrite dict_get_set_other by exact Hne. auto.
Qed.

Lemma dict_has_del_same {V} k (d : pydict V) : dict_has k (dict_del k d) = false.
Proof. unfold dict_has. rewrite dict_get_del_same. reflexivity. Qed.

Lemma dict_has_del_other {V} k k' (d : pydict V) :
  k <> k' -> dict_has k' (dict_del k d) = dict_has k' d.
Proof. intros H. unfold dict_has. rewrite dict_get_del_other by exact H. reflexivity. Qed.

(** ** Lists *)

Lemma mem_In x l : mem x l = true <-> In x l.
Proof.
  unfold mem. rewrite existsb_exists. split.
  - intros (y & Hy & E). apply Nat.eqb_eq in E as ->. exact Hy.
  - intros H. exists x. split; [exact H|apply Nat.eqb_refl].
Qed.

Lemma mem_false x l : mem x l = false <-> ~ In x l.
Proof.
  rewrite <- mem_In. destruct (mem x l); split; intros H; congruence.
Qed.

Lemma In_remove_first x y l : In y (remove_first x l) -> In y l.
Proof.
  induction l as [|z r IH]; simpl; [auto|].
  destruct (Nat.eqb x z); simpl; [auto|]. intros [H|H]; auto.
Qed.

Lemma NoDup_remove_first x l : NoDup l -> NoDup (remove_first x l).
Proof.
  induction 1 as [|z r Hz Hr IH]; simpl; [constructor|].
  destruct (Nat.eqb x z); [exact Hr|]. constructor; [|exact IH].
  intros H. apply Hz. apply list_elem_of_In. eapply In_remove_first.
  apply list_elem_of_In. exact H.
Qed.

Lemma In_remove_first_NoDup x y l :
  NoDup l -> In y (remove_first x l) <-> In y l /\ y <> x.
Proof.
  induction 1 as [|z r Hz Hr IH]; simpl; [tauto|].
  rewrite list_elem_of_In in Hz.
  destruct (Nat.eqb_spec x z) as [->|Hne]; simpl.
  - split; [intros H; split; [auto|]; intros ->; contradiction|].
    intros [[->|H] Hy]; [congruence|exact H].
  - rewrite IH. split.
    + intros [->|[H Hy]]; split; auto.
    + intros [[->|H] Hy]; auto.
Qed.

(** C8: every pass of the lexer loop moves the position forward, a
    zero-length match raises [ValueError] on the first attempt instead of
    returning a match, and so [lex] ends on every text, returning the tokens
    or raising an error (the grammar's lexer states name symbols of the
    grammar). *)
Theorem lex_terminates g text :
  lexer_defined g ->
  (forall self regexp pos r,
      regexp text pos = Some r ->
      String.length (substring pos (re_len r) text) = 0 ->
      token_match self regexp text pos = Raise (ValueError zero_length_msg))
  /\ (forall v v', lex_body g text v = Ret v' -> lx_pos v < lx_pos v')
  /\ lex g text <> Stuck
  /\ (forall fuel, String.length text <= fuel ->
        lex_loop fuel g text (lex_start g) = lex g text).
Proof.
  intros Hg. split; [|split].
  - intros self regexp pos r Hr Hz. unfold token_match. rewrite Hr.
    simpl. rewrite Hz. reflexivity.
  - apply lex_body_advances.
  - apply (lex_loop_total g text Hg (String.length text) (lex_start g)).
    + simpl. constructor; [apply Hg|constructor].
    + simpl. lia.
Qed.

Lemma stateTests_lexer_defined : lexer_defined stateTests_grammar.
Proof.
  split; [|repeat constructor]; repeat constructor; eexists; reflexivity.
Defined.

Lemma lex_terminates_witness : lex stateTests_grammar "ab   c /ba" <> Stuck.
Proof.
  exact (proj1 (proj2 (proj2
           (lex_terminates stateTests_grammar "ab   c /ba" stateTests_lexer_defined)))).
Defined.

(** C5, as the code has it: when the matched token is the [popOn] of the
    top lexer state the stack is popped whatever its depth (also the start
    state), and the state pushed on the same token goes on top of the popped
    stack. *)
Theorem lex_body_mode_stack g text v v' :
  lex_body g text v = Ret v' ->
  exists top tok m,
    last (lx_states v) = Some top
    /\ (first_match (symtab g) (ls_omit top) text (lx_pos v) = Ret (Matched tok m)
        \/ first_match (symtab g) (ls_omit top) text (lx_pos v) = Ret NoMatch
           /\ first_match (symtab g) (ls_tokens top) text (lx_pos v) = Ret (Matched tok m))
    /\ lx_states v' =
         (if bool_decide (ls_popOn top = Some tok)
          then removelast (lx_states v) else lx_states v)
         ++ match pushOn_table (lexerStates g) tok with
            | Some st => [st]
            | None => []
            end.
Proof.
  unfold lex_body. destruct (last (lx_states v)) as [top|] eqn:El; [|discriminate].
  intros H. exists top.
  assert (Hsw : forall tok, switch_states g tok (lx_states v) =
            (if bool_decide (ls_popOn top = Some tok)
             then removelast (lx_states v) else lx_states v)
            ++ match pushOn_table (lexerStates g) tok with
               | Some st => [st]
               | None => []
               end).
  { intros tok. unfold switch_states, push_state, pop_state. rewrite El.
    destruct (pushOn_table (lexerStates g) tok); [reflexivity|].
    rewrite app_nil_r. reflexivity. }
  apply res_bind_Ret in H as ([|tok m] & Ho & H).
  - apply res_bind_Ret in H as ([|tok m] & Ha & H); [discriminate|].
    injection H as <-. exists tok, m. simpl. auto.
  - injection H as <-. exists tok, m. simpl. auto.
Qed.

Lemma lex_body_mode_stack_witness :
  exists top tok m,
    last [aState] = Some top
    /\ (first_match stateTests_symbols (ls_omit top) "b/b" 0 = Ret (Matched tok m)
        \/ first_match stateTests_symbols (ls_omit top) "b/b" 0 = Ret NoMatch
           /\ first_match stateTests_symbols (ls_tokens top) "b/b" 0 = Ret (Matched tok m))
    /\ [aState; bState] =
         (if bool_decide (ls_popOn top = Some tok) then removelast [aState] else [aState])
         ++ match pushOn_table [aState; bState] tok with
            | Some st => [st]
            | None => []
            end.
Proof.
  exact (lex_body_mode_stack stateTests_grammar "b/b" (lex_start stateTests_grammar)
           {| lx_states := [aState; bState]; lx_pos := 1;
              lx_tokStream := [{| m_token := 1; m_text := "b"; m_result := VStr "b";
                                  m_start := 0; m_end := 1 |}] |} eq_refl).
Defined.

(** C5, counterexample: the start lexer state, alone on the stack, is popped
    by its own [popOn] token; the next pass of the loop finds the stack
    empty. *)
Lemma pop_start_state_counterexample :
  length (lx_states (lex_start popped_start_grammar)) = 1
  /\ (exists m,
        lex_body popped_start_grammar "aa" (lex_start popped_start_grammar)
        = Ret {| lx_states := []; lx_pos := 1; lx_tokStream := [m] |})
  /\ lex popped_start_grammar "aa" = Raise (AttributeError "lexerState").
Proof.
  split; [reflexivity|]. split; [eexists; reflexivity|reflexivity].
Qed.

(** C3, as the code has it: the match record carries the mapping of the
    named groups when the pattern has named groups and the matched substring
    otherwise; the merger is applied to that value only when the token state
    is evaluated. *)
Theorem token_value_precedence self regexp text pos m :
  token_match self regexp text pos = Ret (Some m) ->
  exists r,
    regexp text pos = Some r
    /\ m_text m = substring pos (re_len r) text
    /\ m_result m =
         (if length (re_groupdict r) =? 0 then VStr (m_text m)
          else groupdict_value (re_groupdict r))
    /\ forall ctx st merger,
         is_Some (st_parent st) ->
         _result st = Some m ->
         token_result ctx st merger =
           match merger with
           | Some f => f (m_result m) ctx
           | None => Ret (m_result m)
           end.
Proof.
  unfold token_match. destruct (regexp text pos) as [r|]; [|discriminate].
  destruct (String.length (substring pos (re_len r) text) =? 0); [discriminate|].
  intros H. injection H as <-. exists r. simpl. repeat split.
  intros ctx st merger [p Hp] Hr. unfold token_result. rewrite Hp, Hr. reflexivity.
Qed.

Lemma token_value_precedence_witness :
  exists r,
    re_named "a" "a" "a" 0 = Some r
    /\ "a" = substring 0 (re_len r) "a"
    /\ VDict [("a", VStr "a")] =
         (if length (re_groupdict r) =? 0 then VStr "a"
          else groupdict_value (re_groupdict r))
    /\ forall ctx st merger,
         is_Some (st_parent st) ->
         _result st = Some {| m_token := 0; m_text := "a";
                              m_result := VDict [("a", VStr "a")];
                              m_start := 0; m_end := 1 |} ->
         token_result ctx st merger =
           match merger with
           | Some f => f (VDict [("a", VStr "a")]) ctx
           | None => Ret (VDict [("a", VStr "a")])
           end.
Proof.
  exact (token_value_precedence 0 (re_named "a" "a") "a" 0
           {| m_token := 0; m_text := "a"; m_result := VDict [("a", VStr "a")];
              m_start := 0; m_end := 1 |} eq_refl).
Defined.

(** C3, counterexample: [token("(?P<a>a)")] has no merger, yet the value of
    its match and of the parse is the mapping of the named group, not the
    matched substring. *)
Lemma named_group_counterexample :
  exists m,
    token_match 0 (re_named "a" "a") "a" 0 = Ret (Some m)
    /\ m_text m = "a"
    /\ m_result m = VDict [("a", VStr "a")]
    /\ m_result m <> VStr (m_text m)
    /\ parse default_limits ord_insertion tokenTests_grA "a" []
       = Ret (VDict [("a", VStr "a")]).
Proof.
  eexists. split; [reflexivity|]. simpl.
  split; [reflexivity|]. split; [reflexivity|]. split; [discriminate|].
  vm_compute. reflexivity.
Qed.

(** ** Runs of single methods *)

Lemma bind_assert_true {B} (k : unit -> M B) h : bind (assert_ true) k h = k tt h.
Proof. reflexivity. Qed.

Lemma assert_parent_Some {B} st par (k : unit -> M B) h :
  st_parent st = Some par -> bind (assert_parent st) k h = k tt h.
Proof. intros H. unfold assert_parent. rewrite H. reflexivity. Qed.

(** Steps a run over a read or an assignment of the state [s]. *)
Ltac hget H := rewrite (bind_get _ _ _ _ H); cbn beta iota.
Ltac hmod H := rewrite (bind_modify _ _ _ _ _ H); cbn beta iota.

(** [addPossibility] of a chain state that is not iterating and works on no
    branch: the new possibility joins the live list with an empty result
    list at position 0. *)
Lemma chain_addPossibility_idle h s st p par :
  h !! s = Some st ->
  st_parent st = Some par ->
  currentlyWorksOn st = None ->
  _yieldsPossibilities st = false ->
  chain_addPossibility s p h
  = Ret (tt, <[s := set_currentPositions (dict_set (Some p) 0 (currentPositions st))
                      (set_results (dict_set (Some p) [] (results st))
                         (set_possibilities (_possibilities st ++ [p]) st))]> h).
Proof.
  intros Hs Hpar Hcwo Hy. unfold chain_addPossibility.
  hget Hs. rewrite (assert_parent_Some _ _ _ _ Hpar).
  unfold addPossibility. hmod Hs. rewrite Hy. cbn iota.
  pose proof (lookup_insert_same _ _ _ (set_possibilities (_possibilities st ++ [p]) st) Hs) as H1.
  unfold copyResAndCurPosFor. rewrite bind_bind. hget H1.
  rewrite bind_bind. rewrite (assert_parent_Some _ par) by exact Hpar.
  simpl currentlyWorksOn. rewrite Hcwo. rewrite bind_bind. hmod H1.
  rewrite list_insert_insert_eq.
  match goal with |- context [<[s := ?v]> h] =>
    pose proof (lookup_insert_same _ _ _ v Hs) as H2 end.
  hmod H2. rewrite list_insert_insert_eq.
  match goal with |- context [<[s := ?v]> h] =>
    pose proof (lookup_insert_same _ _ _ v Hs) as H3 end.
  unfold assert_tracked. hget H3. simpl results. simpl currentPositions.
  rewrite !dict_has_set_same. reflexivity.
Qed.

Lemma getState_repeat tab e sym par x From To m h :
  tab !! sym = Some (repeat x From To m) ->
  getState tab e sym par h
  = (s <- alloc (new_state KRepeat sym (Some par)) ;;
     chain_init e s [x] ;;
     addEmptyResultToParentEventually e s From ;;
     ret s) h.
Proof. intros H. unfold getState. unfold bind at 1. rewrite H. reflexivity. Qed.

Lemma getState_token tab e sym par re m h :
  tab !! sym = Some (token re m) ->
  getState tab e sym par h = Ret (length h, h ++ [new_state KToken sym (Some par)]).
Proof. intros H. unfold getState. unfold bind at 1. rewrite H. reflexivity. Qed.

(** ** What the list-keeping methods do to the heap *)

Ltac hget_in H Hs := rewrite (bind_get _ _ _ _ Hs) in H; cbn beta iota in H.
Ltac hmod_in H Hs := rewrite (bind_modify _ _ _ _ _ Hs) in H; cbn beta iota in H.

Lemma copyResAndCurPosFor_Ret s p h st u h' :
  h !! s = Some st ->
  copyResAndCurPosFor s p h = Ret (u, h') ->
  exists r c, copied_entries st r c /\ h' = <[s := with_entries p r c st]> h.
Proof.
  intros Hs H. unfold copyResAndCurPosFor in H. hget_in H Hs.
  apply bind_Ret in H as (? & h1 & Ha & H). apply assert_Ret in Ha as [_ ->].
  unfold copied_entries. destruct (currentlyWorksOn st) as [w|].
  - apply bind_Ret in H as (r & h1 & Hr & H). apply lookup_or_Ret in Hr as [Hr ->].
    hmod_in H Hs.
    apply bind_Ret in H as (c & h1 & Hc & H). apply lookup_or_Ret in Hc as [Hc ->].
    apply modify_Ret in H as (st1 & Hs1 & ->).
    rewrite (lookup_insert_same _ _ _ _ Hs) in Hs1. injection Hs1 as <-.
    rewrite list_insert_insert_eq. exists r, c. auto.
  - hmod_in H Hs. apply modify_Ret in H as (st1 & Hs1 & ->).
    rewrite (lookup_insert_same _ _ _ _ Hs) in Hs1. injection Hs1 as <-.
    rewrite list_insert_insert_eq. exists [], 0. auto.
Qed.

Lemma assert_tracked_Ret s p h st u h' :
  h !! s = Some st ->
  assert_tracked s p h = Ret (u, h') -> h' = h.
Proof.
  intros Hs H. unfold assert_tracked in H. hget_in H Hs.
  apply bind_Ret in H as (? & h1 & Ha & H). apply assert_Ret in Ha as [_ ->].
  apply assert_Ret in H as [_ ->]. reflexivity.
Qed.

Lemma addPossibility_eq s p h st :
  h !! s = Some st -> addPossibility s p h = Ret (tt, <[s := with_possibility p st]> h).
Proof. intros Hs. unfold addPossibility. rewrite (modify_eq _ _ _ _ Hs). reflexivity. Qed.

Lemma chain_addPossibility_Ret s p h st u h' :
  h !! s = Some st ->
  chain_addPossibility s p h = Ret (u, h') ->
  exists r c,
    copied_entries st r c
    /\ h' = <[s := with_entries p r c (with_possibility p st)]> h.
Proof.
  intros Hs H. unfold chain_addPossibility in H. hget_in H Hs.
  apply bind_Ret in H as (? & h1 & Ha & H). apply assert_Ret in Ha as [_ ->].
  rewrite (bind_eq _ _ _ _ _ (addPossibility_eq _ _ _ _ Hs)) in H.
  pose proof (lookup_insert_same _ _ _ (with_possibility p st) Hs) as Hs1.
  apply bind_Ret in H as (? & h1 & Hc & H).
  apply (copyResAndCurPosFor_Ret _ _ _ _ _ _ Hs1) in Hc as (r & c & Hrc & ->).
  rewrite list_insert_insert_eq in H.
  apply assert_tracked_Ret with (st := with_entries p r c (with_possibility p st)) in H;
    [|exact (lookup_insert_same _ _ _ _ Hs)].
  subst h'. exists r, c. split; [|reflexivity].
  unfold copied_entries, with_possibility in *.
  destruct (_yieldsPossibilities st); exact Hrc.
Qed.

Lemma chain_addPossibilityNow_Ret s p h st u h' :
  h !! s = Some st ->
  chain_addPossibilityNow s p h = Ret (u, h') ->
  exists r c,
    copied_entries st r c
    /\ h' = <[s := with_entries p r c
                     (set_possibilities (_possibilities st ++ [p]) st)]> h.
Proof.
  intros Hs H. unfold chain_addPossibilityNow in H. hget_in H Hs.
  apply bind_Ret in H as (? & h1 & Ha & H). apply assert_Ret in Ha as [_ ->].
  unfold addPossibilityNow in H. hmod_in H Hs.
  pose proof (lookup_insert_same _ _ _ (set_possibilities (_possibilities st ++ [p]) st) Hs)
    as Hs1.
  apply bind_Ret in H as (? & h1 & Hc & H).
  apply (copyResAndCurPosFor_Ret _ _ _ _ _ _ Hs1) in Hc as (r & c & Hrc & ->).
  rewrite list_insert_insert_eq in H.
  apply assert_tracked_Ret
    with (st := with_entries p r c (set_possibilities (_possibilities st ++ [p]) st)) in H;
    [|exact (lookup_insert_same _ _ _ _ Hs)].
  subst h'. exists r, c. auto.
Qed.

Lemma removePossibility_Ret s p h st u h' :
  h !! s = Some st ->
  removePossibility s p h = Ret (u, h') ->
  (In p (_possibilities st) \/ In p (_addedPossibilities st))
  /\ (_yieldsPossibilities st = false -> In p (_possibilities st))
  /\ h' = <[s := without_possibility p st]> h.
Proof.
  intros Hs H. unfold removePossibility in H. hget_in H Hs.
  unfold without_possibility.
  destruct (mem p (_possibilities st)) eqn:E1;
    destruct (mem p (_addedPossibilities st)) eqn:E2; simpl in H;
    try discriminate;
    try apply mem_In in E1; try apply mem_In in E2;
    destruct (_yieldsPossibilities st); try discriminate;
    rewrite (modify_eq _ _ _ _ Hs) in H; injection H as <-;
    repeat split; intros; try discriminate; auto.
Qed.

Lemma dict_del_absent {V} k (d : pydict V) : dict_has k d = false -> dict_del k d = d.
Proof.
  unfold dict_has. induction d as [|[k' v'] r IH]; simpl; [reflexivity|].
  destruct (key_eqb k k'); [discriminate|]. intros H. rewrite IH by exact H. reflexivity.
Qed.

Lemma chain_removePossibility_Ret s p h st u h' :
  h !! s = Some st ->
  chain_removePossibility s p h = Ret (u, h') ->
  (In p (_possibilities st) \/ In p (_addedPossibilities st))
  /\ (_yieldsPossibilities st = false -> In p (_possibilities st))
  /\ h' = <[s := without_entries p (without_possibility p st)]> h.
Proof.
  intros Hs H. unfold chain_removePossibility in H.
  apply bind_Ret in H as (? & h1 & Hr & H).
  apply (removePossibility_Ret _ _ _ _ _ _ Hs) in Hr as (Hin & Hy & ->).
  pose proof (lookup_insert_same _ _ _ (without_possibility p st) Hs) as Hs1.
  hmod_in H Hs1. rewrite list_insert_insert_eq in H.
  match type of H with context [<[s := ?v]> h] =>
    pose proof (lookup_insert_same _ _ _ v Hs) as Hs2 end.
  apply modify_Ret in H as (st2 & Hs2' & ->). rewrite Hs2 in Hs2'. injection Hs2' as <-.
  rewrite list_insert_insert_eq. repeat split; auto. f_equal.
  unfold without_entries.
  set (st1 := without_possibility p st).
  destruct (dict_has (Some p) (results st1)) eqn:E1;
    [|rewrite (dict_del_absent _ _ E1)];
    cbn [currentPositions set_results];
    (destruct (dict_has (Some p) (currentPositions st1)) eqn:E2;
     [|rewrite (dict_del_absent _ _ E2)]);
    destruct st1; reflexivity.
Qed.

(** ** [createNextState] *)

Lemma index_of_mem x l : mem x l = false <-> index_of x l = None.
Proof.
  induction l as [|y r IH]; simpl; [tauto|].
  destruct (Nat.eqb x y); simpl; [split; discriminate|].
  rewrite IH. destruct (index_of x r); simpl; split; congruence.
Qed.

(** C4, as the code has it: when the just-validated child is not in the live
    list, or no alternative is being iterated, or the child stands before or
    at the iterated alternative, the next child goes through
    [addPossibility]: into [_addedPossibilities] (for the next token) while
    the state iterates, onto the live list otherwise. Only when the child
    stands behind the iterated alternative the next child goes through
    [addPossibilityNow], onto the live list, and so gets the current token. *)
Theorem createNextState_queue tab e s validState h st pos sy sym nextState h1 st1 u h2 :
  h !! s = Some st ->
  dict_get (Some validState) (currentPositions st) = Some pos ->
  tab !! st_symbol st = Some sy ->
  symbols_of sy !! pos = Some sym ->
  e_getState e sym s (<[s := set_currentlyWorksOn (Some validState) st]> h)
  = Ret (nextState, h1) ->
  h1 !! s = Some st1 ->
  createNextState tab e s validState h = Ret (u, h2) ->
  exists st2,
    h2 !! s = Some st2
    /\ (after_current validState (currentlyWorksOn st) (_possibilities st1) ->
        _possibilities st2 = _possibilities st1 ++ [nextState]
        /\ _addedPossibilities st2 = _addedPossibilities st1)
    /\ (~ after_current validState (currentlyWorksOn st) (_possibilities st1) ->
        if _yieldsPossibilities st1
        then _possibilities st2 = _possibilities st1
             /\ _addedPossibilities st2 = _addedPossibilities st1 ++ [nextState]
        else _possibilities st2 = _possibilities st1 ++ [nextState]
             /\ _addedPossibilities st2 = _addedPossibilities st1).
Proof.
  intros Hs Hpos Hsy Hsym Hget Hs1 H. unfold createNextState in H.
  hget_in H Hs. hmod_in H Hs. rewrite Hpos in H. simpl lookup_or in H.
  rewrite bind_ret in H. unfold symbol_of in H. unfold bind at 1 in H.
  rewrite Hsy, Hsym in H. simpl lookup_or in H. rewrite bind_ret in H.
  rewrite (bind_eq _ _ _ _ _ Hget) in H. hget_in H Hs1.
  apply bind_Ret in H as (? & h3 & Hadd & H).
  assert (Hfin : forall st3, h3 !! s = Some st3 ->
            exists st2, h2 !! s = Some st2
                        /\ _possibilities st2 = _possibilities st3
                        /\ _addedPossibilities st2 = _addedPossibilities st3).
  { intros st3 Hs3. apply modify_Ret in H as (st3' & Hs3' & ->).
    rewrite Hs3 in Hs3'. injection Hs3' as <-.
    eexists. split; [exact (lookup_insert_same _ _ _ _ Hs3)|]. split; reflexivity. }
  clear H.
  assert (Hadd_case : forall h3, chain_addPossibility s nextState h1 = Ret (tt, h3) ->
            exists st3, h3 !! s = Some st3
              /\ if _yieldsPossibilities st1
                 then _possibilities st3 = _possibilities st1
                      /\ _addedPossibilities st3 = _addedPossibilities st1 ++ [nextState]
                 else _possibilities st3 = _possibilities st1 ++ [nextState]
                      /\ _addedPossibilities st3 = _addedPossibilities st1).
  { intros h4 Ha. apply (chain_addPossibility_Ret _ _ _ _ _ _ Hs1) in Ha as (r & c & _ & ->).
    eexists. split; [exact (lookup_insert_same _ _ _ _ Hs1)|].
    unfold with_entries, with_possibility.
    destruct (_yieldsPossibilities st1); split; reflexivity. }
  assert (Hnot_after : forall P : Prop,
            (after_current validState (currentlyWorksOn st) (_possibilities st1) -> False) ->
            (chain_addPossibility s nextState h1 = Ret (tt, h3)) ->
            exists st2,
              h2 !! s = Some st2
              /\ (after_current validState (currentlyWorksOn st) (_possibilities st1) ->
                  _possibilities st2 = _possibilities st1 ++ [nextState]
                  /\ _addedPossibilities st2 = _addedPossibilities st1)
              /\ (~ after_current validState (currentlyWorksOn st) (_possibilities st1) ->
                  if _yieldsPossibilities st1
                  then _possibilities st2 = _possibilities st1
                       /\ _addedPossibilities st2 = _addedPossibilities st1 ++ [nextState]
                  else _possibilities st2 = _possibilities st1 ++ [nextState]
                       /\ _addedPossibilities st2 = _addedPossibilities st1)).
  { intros _ Hna Ha. destruct (Hadd_case _ Ha) as (st3 & Hs3 & Hq).
    destruct (Hfin _ Hs3) as (st2 & Hs2 & Hp & Had). exists st2.
    split; [exact Hs2|]. split; [intros Haf; destruct (Hna Haf)|].
    intros _. rewrite Hp, Had. exact Hq. }
  destruct x.
  destruct (mem validState (_possibilities st1)) eqn:Emem; simpl in Hadd.
  - destruct (currentlyWorksOn st) as [cur|] eqn:Ecur.
    + apply bind_Ret in Hadd as (iv & h4 & Hiv & Hadd).
      apply lookup_or_Ret in Hiv as [Hiv ->].
      apply bind_Ret in Hadd as (ic & h4 & Hic & Hadd).
      apply lookup_or_Ret in Hic as [Hic ->].
      destruct (Nat.leb_spec iv ic) as [Hle|Hlt].
      * apply (Hnot_after True); [|exact Hadd].
        intros (c' & iv' & ic' & Hc' & Hiv' & Hic' & Hlt).
        injection Hc' as <-. rewrite Hiv in Hiv'. rewrite Hic in Hic'.
        injection Hiv' as <-. injection Hic' as <-. lia.
      * apply (chain_addPossibilityNow_Ret _ _ _ _ _ _ Hs1) in Hadd as (r & c & _ & ->).
        destruct (Hfin _ (lookup_insert_same _ _ _ _ Hs1)) as (st2 & Hs2 & Hp & Ha).
        exists st2. split; [exact Hs2|]. split.
        -- intros _. rewrite Hp, Ha. split; reflexivity.
        -- intros Hna. exfalso. apply Hna. exists cur, iv, ic. auto.
    + apply (Hnot_after True); [|exact Hadd].
      intros (c' & iv' & ic' & Hc' & _). discriminate.
  - apply (Hnot_after True); [|exact Hadd].
    intros (c' & iv' & ic' & _ & Hiv' & _). apply index_of_mem in Emem. congruence.
Qed.

(** ** Evaluation of a repetition *)

Lemma longest_fold (pre suf : list (list sid)) (best : list sid) :
  is_first_longest best pre ->
  is_first_longest
    (fold_left (fun b r => if length b <? length r then r else b) suf best)
    (pre ++ suf).
Proof.
  revert pre best. induction suf as [|r suf IH]; intros pre best Hb; simpl.
  - rewrite app_nil_r. exact Hb.
  - replace (pre ++ r :: suf) with ((pre ++ [r]) ++ suf)
      by (rewrite <- app_assoc; reflexivity).
    apply IH. destruct Hb as (i & Hi & Hmax & Hfirst).
    destruct (Nat.ltb_spec (length best) (length r)) as [Hlt|Hge].
    + exists (length pre). split; [|split].
      * apply list_lookup_middle. reflexivity.
      * intros r' Hr'. apply in_app_or in Hr' as [Hr'|[<-|[]]]; [|lia].
        specialize (Hmax r' Hr'). lia.
      * intros j r' Hj Hr'. rewrite lookup_app_l in Hr' by exact Hj.
        apply list_elem_of_lookup_2, list_elem_of_In in Hr'.
        specialize (Hmax r' Hr'). lia.
    + exists i. split; [|split].
      * apply lookup_app_l_Some. exact Hi.
      * intros r' Hr'. apply in_app_or in Hr' as [Hr'|[<-|[]]]; [auto|lia].
      * intros j r' Hj Hr'. apply (Hfirst j r' Hj).
        rewrite lookup_app_l in Hr'; [exact Hr'|].
        apply lookup_lt_Some in Hi. lia.
Qed.

Lemma longest_first_longest first rest :
  is_first_longest (longest first (first :: rest)) (first :: rest).
Proof.
  unfold longest. simpl. rewrite Nat.ltb_irrefl.
  apply (longest_fold [first] rest first).
  exists 0. split; [reflexivity|]. split.
  - intros r [<-|[]]. lia.
  - intros j r Hj. lia.
Qed.

Lemma admissible_spec From To r :
  admissible From To r = true
  <-> (From <= Z.of_nat (length r))%Z
      /\ ((Z.of_nat (length r) <= To)%Z \/ To = (-1)%Z).
Proof.
  unfold admissible. rewrite andb_true_iff, orb_true_iff.
  rewrite Z.geb_le, Z.leb_le, Z.eqb_eq. reflexivity.
Qed.

Lemma filter_Permutation_bool {A} (f : A -> bool) l1 l2 :
  Permutation l1 l2 -> Permutation (List.filter f l1) (List.filter f l2).
Proof.
  induction 1 as [|x l l' _ IH|x y l|l l' l'' _ IH1 _ IH2]; simpl.
  - constructor.
  - destruct (f x); [constructor|]; exact IH.
  - destruct (f x), (f y); try reflexivity. constructor.
  - etransitivity; eassumption.
Qed.

Lemma first_longest_In best l : is_first_longest best l -> In best l.
Proof.
  intros (i & Hi & _). apply list_elem_of_In. eapply list_elem_of_lookup_2. exact Hi.
Qed.

Lemma first_longest_max best l r :
  is_first_longest best l -> In r l -> length r <= length best.
Proof. intros (i & _ & Hmax & _). apply Hmax. Qed.

(** Without ties the longest branch is the same in whatever order the
    branches are met. *)
Lemma first_longest_unique l1 l2 b1 b2 :
  Permutation l1 l2 -> tie_free l1 ->
  is_first_longest b1 l1 -> is_first_longest b2 l2 -> b1 = b2.
Proof.
  intros Hp Ht H1 H2.
  pose proof (first_longest_In _ _ H1) as Hin1.
  pose proof (first_longest_In _ _ H2) as Hin2.
  assert (Hin21 : In b2 l1) by (eapply Permutation_in; [symmetry; exact Hp|exact Hin2]).
  assert (Hin12 : In b1 l2) by (eapply Permutation_in; [exact Hp|exact Hin1]).
  pose proof (first_longest_max _ _ _ H1 Hin21).
  pose proof (first_longest_max _ _ _ H2 Hin12).
  apply Ht; auto. lia.
Qed.

(** A state with at most one branch has no ties. *)
Lemma single_branch_tie_free From To st :
  length (results st) <= 1 -> tie_free (admissible_branches From To st).
Proof.
  unfold admissible_branches. destruct (results st) as [|[k v] [|? ?]]; simpl; try lia.
  - intros _ r1 r2 [].
  - intros _ r1 r2 H1 H2 _. destruct (admissible From To v); simpl in *; [|destruct H1].
    destruct H1 as [<-|[]], H2 as [<-|[]]. reflexivity.
Qed.


(** ** The empty input *)

Lemma viewvalues_singleton ord (k : key) (v : list sid) :
  viewvalues ord [(k, v)] = [v].
Proof.
  apply Permutation_length_1_inv. apply Permutation_sym.
  exact (viewvalues_perm ord [(k, v)]).
Qed.

Lemma lookup_snoc_length (h : heap) st : (h ++ [st]) !! length h = Some st.
Proof. apply list_lookup_middle. reflexivity. Qed.

(** C10, as the code has it: when the start symbol is [repeat(X, From = 0,
    To)] with [To = -1] or [0 <= To], and the state of [X] is built without
    touching the repetition state or the root (as for a token [X]), parsing
    the empty string returns the empty list, or what the merger makes of it:
    the empty twin completes the root before any token is pushed. *)
Theorem parse_empty_repeat lim ord g ctx x To m d p h1 :
  symtab g !! startSymbol g = Some (repeat x 0 To m) ->
  (0 <= To \/ To = -1)%Z ->
  recursion_limit lim = S (S d) ->
  e_getState (engine_at (symtab g) (loop_gas lim) (S d)) x 1
    [new_state KRoot (startSymbol g) None; new_state KRepeat (startSymbol g) (Some 0)]
  = Ret (p, h1) ->
  h1 !! 0 = Some (new_state KRoot (startSymbol g) None) ->
  h1 !! 1 = Some (new_state KRepeat (startSymbol g) (Some 0)) ->
  parse lim ord g "" ctx = apply_merger m (VList []) ctx.
Proof.
  intros Hstart HTo Hlim Hx H0 H1. unfold parse. rewrite Hlim.
  change (lex g "") with (@Ret (list matchType) []). cbn [res_bind].
  set (e1 := engine_at (symtab g) (loop_gas lim) (S d)) in *.
  set (root0 := new_state KRoot (startSymbol g) None) in *.
  set (twin := set_results [(None, [])] (new_state KRepeat (startSymbol g) (Some 0))).
  assert (Hinit : exists hF,
             parserRootState_init (engine_at (symtab g) (loop_gas lim) (S (S d)))
               (startSymbol g) [] = Ret (0, hF)
             /\ hF !! 0 = Some (set_possibilities [1]
                                  (set_validPossibilities [length h1] root0))
             /\ hF !! length h1 = Some twin).
  { assert (Hlen : 2 <= length h1) by (apply lookup_lt_Some in H1; lia).
    eexists. split.
    - unfold parserRootState_init. rewrite bind_alloc.
      change (e_getState (engine_at (symtab g) (loop_gas lim) (S (S d))))
        with (getState (symtab g) e1).
      rewrite (bind_at _ _ _ _ (getState_repeat _ _ _ _ _ _ _ _ _ Hstart)).
      rewrite !bind_bind, bind_alloc. unfold chain_init. rewrite !bind_bind.
      simpl lookup_or. rewrite bind_ret. simpl length. simpl app.
      rewrite !bind_bind. rewrite (bind_eq _ _ _ _ _ Hx).
      rewrite (bind_eq _ _ _ _ _
                 (chain_addPossibility_idle h1 1 _ p 0 H1 eq_refl eq_refl eq_refl)).
      cbn [_possibilities results currentPositions new_state dict_set app].
      match goal with |- context [<[1 := ?v]> h1] =>
        pose proof (lookup_insert_same _ _ _ v H1) as H1'; set (rep := v) in * end.
      assert (H0' : <[1 := rep]> h1 !! 0 = Some root0).
      { rewrite list_lookup_insert_ne by discriminate. exact H0. }
      assert (Hlen2 : length (<[1 := rep]> h1) = length h1) by apply length_insert.
      set (h2 := <[1 := rep]> h1) in *.
      unfold addEmptyResultToParentEventually. rewrite !bind_bind. hget H1'.
      change (results rep) with [(Some p, @nil sid)].
      change (st_parent rep) with (Some 0). change (0 =? 0)%Z with true.
      cbn beta iota. rewrite !bind_bind, bind_alloc.
      change (set_results [(None, [])] (new_state KRepeat (st_symbol rep) (Some 0)))
        with twin.
      assert (H0a : (h2 ++ [twin]) !! 0 = Some root0)
        by (apply lookup_app_l_Some; exact H0').
      unfold call_addPossibility. rewrite !bind_bind. hget H0a.
      change (is_chain_type (st_class root0)) with false. cbn iota.
      unfold addPossibility at 1. hmod H0a.
      change (_yieldsPossibilities root0) with false. cbn iota.
      change (_possibilities root0 ++ [length h2]) with [length h2].
      set (root1 := set_possibilities [length h2] root0).
      set (h3 := h2 ++ [twin]) in *.
      pose proof (lookup_insert_same _ _ _ root1 H0a) as H0b.
      assert (Htw : <[0 := root1]> h3 !! length h2 = Some twin).
      { rewrite list_lookup_insert_ne by lia. apply lookup_snoc_length. }
      change (e_makeValid e1) with (makeValid (symtab g) (engine_at (symtab g) (loop_gas lim) d)).
      unfold makeValid. rewrite !bind_bind. hget Htw.
      change (st_parent twin) with (Some 0). cbn iota.
      unfold setValidPossibility. rewrite !bind_bind. hget H0b.
      change (st_class root1) with KRoot. cbn iota.
      unfold root_setValidPossibility. rewrite !bind_bind. hmod H0b.
      rewrite list_insert_insert_eq.
      match goal with |- context [<[0 := ?v]> h3] =>
        pose proof (lookup_insert_same _ _ _ v H0a) as H0c; set (root2 := v) in * end.
      unfold removePossibility. rewrite !bind_bind. hget H0c.
      change (_possibilities root2) with [length h2].
      change (_addedPossibilities root2) with (@nil sid).
      change (_yieldsPossibilities root2) with false.
      unfold mem at 1 2 3. cbn [existsb]. rewrite (Nat.eqb_refl (length h2)). cbn [orb negb andb].
      cbn iota. hmod H0c. rewrite list_insert_insert_eq.
      change (_possibilities root2) with [length h2].
      cbn [remove_first]. rewrite (Nat.eqb_refl (length h2)).
      rewrite bind_ret.
      match goal with |- context [<[0 := ?v]> h3] =>
        pose proof (lookup_insert_same _ _ _ v H0a) as H0d; set (root3 := v) in * end.
      unfold addPossibility. hmod H0d. rewrite list_insert_insert_eq.
      reflexivity.
    - split.
      + rewrite (lookup_insert_same _ 0 root0) by (apply lookup_app_l_Some;
          rewrite list_lookup_insert_ne by discriminate; exact H0).
        rewrite length_insert. reflexivity.
      + rewrite list_lookup_insert_ne by lia.
        rewrite <- (length_insert h1 1
                      (set_currentPositions [(Some p, 0)]
                         (set_results [(Some p, [])]
                            (set_possibilities [p]
                               (new_state KRepeat (startSymbol g) (Some 0)))))).
        apply lookup_snoc_length. }
  destruct Hinit as (hF & Hi & HF0 & HFt). rewrite Hi.
  cbn [except_RuntimeError res_bind push_tokens ret snd].
  unfold root_result. rewrite HF0.
  cbn [validPossibilities set_possibilities set_validPossibilities].
  cbn [result]. rewrite HFt. change (st_symbol twin) with (startSymbol g).
  rewrite Hstart. change (st_class twin) with KRepeat. cbn iota.
  unfold repeat_result. change (st_parent twin) with (Some 0).
  change (results twin) with [(@None sid, @nil sid)].
  rewrite viewvalues_singleton.
  assert (Ha : admissible 0 To [] = true).
  { apply admissible_spec. simpl. lia. }
  cbn [List.filter]. rewrite Ha. reflexivity.
Qed.

(** ** Well-formed heaps *)

Lemma grows_refl n h : grows n h h.
Proof.
  split; [lia|]. split; [intros s st Hs; exists st; auto|].
  intros s st q Hs Hq. right. exists st. auto.
Qed.

Lemma grows_trans n h0 h h' : grows n h0 h -> grows n h h' -> grows n h0 h'.
Proof.
  intros (Hl1 & Hc1 & H1) (Hl2 & Hc2 & H2). split; [lia|]. split.
  - intros s st Hs. destruct (Hc1 s st Hs) as (st1 & Hs1 & E1).
    destruct (Hc2 s st1 Hs1) as (st2 & Hs2 & E2). exists st2. split; [exact Hs2|].
    congruence.
  - intros s st' q Hs Hq.
    destruct (H2 s st' q Hs Hq) as [Hn|(st & Hs1 & Hq1)]; [auto|]. eauto.
Qed.

Lemma grows_weaken n m h h' : n <= m -> grows m h h' -> grows n h h'.
Proof.
  intros Hnm (Hl & Hc & H). split; [exact Hl|]. split; [exact Hc|].
  intros s st' q Hs Hq.
  destruct (H s st' q Hs Hq) as [Hn|Hold]; [left; lia|auto].
Qed.

Lemma run_ok_start h : wf_heap h -> run_ok (length h) h h.
Proof. intros H. split; [exact H|]. split; [lia|apply grows_refl]. Qed.

(** A call of a method that keeps the heap well-formed, inside a run. *)
Lemma keeps_run {A} (c : M A) n h0 h a h' :
  keeps c -> run_ok n h0 h -> c h = Ret (a, h') -> run_ok n h0 h'.
Proof.
  intros Hk (Hwf & Hn & Hg) Hc. destruct (Hk h a h' Hwf Hc) as [Hwf' Hg'].
  split; [exact Hwf'|]. split; [destruct Hg'; lia|].
  eapply grows_trans; [exact Hg|]. eapply grows_weaken; [|exact Hg']. exact Hn.
Qed.

Lemma wf_fresh_length h : wf_heap h -> fresh (length h) h.
Proof.
  intros Hwf s st Hs Hin. destruct (Hwf s st Hs) as [Hb _].
  specialize (Hb _ Hin). lia.
Qed.

(** A call of a method that creates an object, inside a run. *)
Lemma creates_run (c : M sid) n h0 h p h' :
  creates c -> run_ok n h0 h -> c h = Ret (p, h') ->
  run_ok n h0 h' /\ fresh p h' /\ n <= p /\ p < length h'.
Proof.
  intros Hk (Hwf & Hn & Hg) Hc.
  destruct (Hk h p h' Hwf Hc) as (Hwf' & -> & Hlt & Hg').
  split; [|split; [|lia]].
  - split; [exact Hwf'|]. split; [lia|].
    eapply grows_trans; [exact Hg|]. eapply grows_weaken; [|exact Hg']. lia.
  - intros s st Hs Hin. destruct Hg' as (_ & _ & Hg').
    destruct (Hg' s st _ Hs Hin) as [Hq|(st0 & Hs0 & Hq)]; [lia|].
    exact (wf_fresh_length h Hwf s st0 Hs0 Hq).
Qed.

(** Replacing a state by one whose alternatives are old ones or new
    objects. *)
Lemma run_ok_update n h0 h s st st' :
  run_ok n h0 h ->
  h !! s = Some st ->
  st_class st' = st_class st ->
  (forall q, In q (members st') -> q < length h /\ (n <= q \/ In q (members st))) ->
  (is_chain_type (st_class st') = true -> tracked st' /\ NoDup (members st')) ->
  run_ok n h0 (<[s := st']> h).
Proof.
  intros (Hwf & Hn & Hl & Hcl & Hg) Hs Hclass Hmem Hchain.
  assert (Hlen : length (<[s := st']> h) = length h) by apply length_insert.
  split; [|split].
  - intros s1 st1 Hs1. rewrite Hlen.
    destruct (decide (s = s1)) as [<-|Hne].
    + rewrite (lookup_insert_same _ _ _ _ Hs) in Hs1. injection Hs1 as <-.
      split; [|exact Hchain]. intros q Hq. apply (Hmem q Hq).
    + rewrite list_lookup_insert_ne in Hs1 by exact Hne. exact (Hwf s1 st1 Hs1).
  - lia.
  - split; [lia|]. split.
    + intros s1 st1 Hs1. destruct (Hcl s1 st1 Hs1) as (st2 & Hs2 & E2).
      destruct (decide (s = s1)) as [<-|Hne].
      * exists st'. split; [exact (lookup_insert_same _ _ _ _ Hs)|]. congruence.
      * exists st2. rewrite list_lookup_insert_ne by exact Hne. auto.
    + intros s1 st1 q Hs1 Hq.
      destruct (decide (s = s1)) as [<-|Hne].
      * rewrite (lookup_insert_same _ _ _ _ Hs) in Hs1. injection Hs1 as <-.
        destruct (Hmem q Hq) as [_ [Hq'|Hq']]; [auto|]. exact (Hg s st q Hs Hq').
      * rewrite list_lookup_insert_ne in Hs1 by exact Hne. exact (Hg s1 st1 q Hs1 Hq).
Qed.

Lemma fresh_update p h s st st' :
  fresh p h ->
  h !! s = Some st ->
  (forall q, In q (members st') -> In q (members st)) ->
  fresh p (<[s := st']> h).
Proof.
  intros Hf Hs Hsub s1 st1 Hs1 Hin.
  destruct (decide (s = s1)) as [<-|Hne].
  - rewrite (lookup_insert_same _ _ _ _ Hs) in Hs1. injection Hs1 as <-.
    exact (Hf s st Hs (Hsub _ Hin)).
  - rewrite list_lookup_insert_ne in Hs1 by exact Hne. exact (Hf s1 st1 Hs1 Hin).
Qed.

(** Creating an object without alternatives. *)
Lemma alloc_ok n h0 h st :
  wf_heap h -> grows n h0 h -> n <= S (length h) ->
  members st = [] ->
  run_ok n h0 (h ++ [st])
  /\ fresh (length h) (h ++ [st])
  /\ length h < length (h ++ [st])
  /\ (h ++ [st]) !! length h = Some st.
Proof.
  intros Hwf (Hl & Hcl & Hg) Hn Hm.
  assert (Hlen : length (h ++ [st]) = S (length h)) by (rewrite length_app; simpl; lia).
  assert (Hold : forall s1 st1, (h ++ [st]) !! s1 = Some st1 ->
             h !! s1 = Some st1 \/ st1 = st).
  { intros s1 st1 Hs1. destruct (decide (s1 < length h)) as [Hlt|Hge].
    - rewrite lookup_app_l in Hs1 by exact Hlt. auto.
    - rewrite lookup_app_r in Hs1 by lia.
      destruct (s1 - length h) as [|k]; simpl in Hs1; [|discriminate].
      injection Hs1 as <-. auto. }
  split; [|split; [|split]].
  - split; [|split].
    + intros s1 st1 Hs1. rewrite Hlen. destruct (Hold s1 st1 Hs1) as [H1| ->].
      * destruct (Hwf s1 st1 H1) as [Hb Hc]. split; [|exact Hc].
        intros q Hq. specialize (Hb q Hq). lia.
      * split; [rewrite Hm; intros q []|].
        intros _. split; [intros q; rewrite Hm; intros []|rewrite Hm; constructor].
    + lia.
    + split; [lia|]. split.
      * intros s1 st1 Hs1. destruct (Hcl s1 st1 Hs1) as (st2 & Hs2 & E2).
        exists st2. split; [apply lookup_app_l_Some; exact Hs2|exact E2].
      * intros s1 st1 q Hs1 Hq. destruct (Hold s1 st1 Hs1) as [H1| ->].
        -- exact (Hg s1 st1 q H1 Hq).
        -- rewrite Hm in Hq. destruct Hq.
  - intros s1 st1 Hs1 Hq. destruct (Hold s1 st1 Hs1) as [H1| ->].
    + exact (wf_fresh_length h Hwf s1 st1 H1 Hq).
    + rewrite Hm in Hq. destruct Hq.
  - lia.
  - apply lookup_snoc_length.
Qed.

Lemma run_ok_alloc n h0 h st :
  run_ok n h0 h ->
  members st = [] ->
  run_ok n h0 (h ++ [st])
  /\ fresh (length h) (h ++ [st])
  /\ length h < length (h ++ [st])
  /\ (h ++ [st]) !! length h = Some st.
Proof.
  intros (Hwf & Hn & Hg) Hm. apply alloc_ok; auto.
Qed.

(** ** The list-keeping methods keep the heap well-formed *)

(** An assignment that leaves the alternatives and their entries alone. *)
Lemma modify_ok n h0 h s f u h' :
  (forall st, members (f st) = members st
              /\ st_class (f st) = st_class st
              /\ (tracked st -> tracked (f st))) ->
  run_ok n h0 h ->
  modify s f h = Ret (u, h') ->
  run_ok n h0 h' /\ (forall p, fresh p h -> fresh p h').
Proof.
  intros Hf Hok H. apply modify_Ret in H as (st & Hs & ->).
  destruct (Hf st) as (Hm & Hc & Ht). split.
  - apply (run_ok_update n h0 h s st (f st) Hok Hs);
      [first [assumption | unfold with_entries, with_possibility, without_entries, without_possibility, settled; simpl; try destruct (_yieldsPossibilities st); reflexivity]|..].
    + intros q Hq. rewrite Hm in Hq. split; [|auto].
      destruct Hok as (Hwf & _). destruct (Hwf s st Hs) as [Hb _]. auto.
    + rewrite Hc, Hm. intros Hch. destruct Hok as (Hwf & _).
      destruct (Hwf s st Hs) as [_ Hx]. destruct (Hx Hch). auto.
  - intros p Hp. apply (fresh_update p h s st (f st) Hp Hs).
    intros q. rewrite Hm. auto.
Qed.

Lemma tracked_set_results k v st :
  tracked st -> tracked (set_results (dict_set k v (results st)) st).
Proof.
  intros Ht p Hp Hr. destruct (Ht p Hp Hr) as [H1 H2]. split; [|exact H2].
  apply dict_has_set. exact H1.
Qed.

Lemma tracked_set_currentPositions k v st :
  tracked st -> tracked (set_currentPositions (dict_set k v (currentPositions st)) st).
Proof.
  intros Ht p Hp Hr. destruct (Ht p Hp Hr) as [H1 H2]. split; [exact H1|].
  apply dict_has_set. exact H2.
Qed.

Lemma members_with_possibility p st q :
  In q (members (with_possibility p st)) <-> In q (members st) \/ q = p.
Proof.
  unfold with_possibility, members. destruct (_yieldsPossibilities st); simpl;
    rewrite !in_app_iff; simpl; intuition congruence.
Qed.

Lemma NoDup_members_with_possibility p st :
  NoDup (members st) -> ~ In p (members st) ->
  NoDup (members (with_possibility p st)).
Proof.
  unfold with_possibility, members. intros Hnd Hp.
  rewrite in_app_iff in Hp.
  apply NoDup_app in Hnd as (H1 & H12 & H2).
  destruct (_yieldsPossibilities st); simpl; apply NoDup_app.
  - split; [exact H1|]. split.
    + intros x Hx Hx'. apply list_elem_of_In, in_app_iff in Hx' as [Hx'|[<-|[]]].
      * apply (H12 x Hx). apply list_elem_of_In. exact Hx'.
      * apply Hp. left. apply list_elem_of_In. exact Hx.
    + apply NoDup_app. split; [exact H2|]. split; [|apply NoDup_singleton].
      intros x Hx Hx'. apply list_elem_of_In in Hx' as [<-|[]].
      apply Hp. right. apply list_elem_of_In. exact Hx.
  - split; [|split; [|exact H2]].
    + apply NoDup_app. split; [exact H1|]. split; [|apply NoDup_singleton].
      intros x Hx Hx'. apply list_elem_of_In in Hx' as [<-|[]].
      apply Hp. left. apply list_elem_of_In. exact Hx.
    + intros x Hx Hx'. apply list_elem_of_In, in_app_iff in Hx as [Hx|[<-|[]]].
      * apply (H12 x); [apply list_elem_of_In; exact Hx|exact Hx'].
      * apply Hp. right. apply list_elem_of_In. exact Hx'.
Qed.

Lemma with_entries_ok n h0 h s st p r c :
  run_ok n h0 h ->
  h !! s = Some st ->
  ~ In p (members st) -> n <= p -> p < length h ->
  run_ok n h0 (<[s := with_entries p r c (with_possibility p st)]> h).
Proof.
  intros Hok Hs Hfresh Hn Hlt.
  assert (Hwf := proj1 Hok). destruct (Hwf s st Hs) as [Hb Hch].
  assert (Hmem : forall q, In q (members (with_entries p r c (with_possibility p st)))
                           <-> In q (members st) \/ q = p).
  { intros q. apply (members_with_possibility p st q). }
  apply (run_ok_update n h0 h s st _ Hok Hs);
      [first [assumption | unfold with_entries, with_possibility, without_entries, without_possibility, settled; simpl; try destruct (_yieldsPossibilities st); reflexivity]|..].
  - intros q Hq. apply Hmem in Hq as [Hq| ->]; [split; auto|split; auto].
  - intros Hc.
    assert (Hc' : is_chain_type (st_class st) = true).
    { unfold with_entries, with_possibility in Hc.
      destruct (_yieldsPossibilities st); exact Hc. }
    destruct (Hch Hc') as [Ht Hnd]. split.
    + intros q Hq Hr. apply Hmem in Hq as [Hq| ->].
      * assert (Hr' : ~ In q (_removedPossibilities st)).
        { unfold with_entries, with_possibility in Hr.
          destruct (_yieldsPossibilities st); exact Hr. }
        destruct (Ht q Hq Hr') as [H1 H2].
        unfold with_entries, with_possibility.
        destruct (_yieldsPossibilities st); simpl; split; apply dict_has_set; assumption.
      * unfold with_entries. simpl. split; apply dict_has_set_same.
    + apply (NoDup_members_with_possibility p st Hnd Hfresh).
Qed.

Lemma chain_addPossibility_ok n h0 h s p u h' :
  run_ok n h0 h -> fresh p h -> n <= p -> p < length h ->
  chain_addPossibility s p h = Ret (u, h') ->
  run_ok n h0 h'.
Proof.
  intros Hok Hf Hn Hlt H.
  destruct (h !! s) as [st|] eqn:Hs.
  - destruct (chain_addPossibility_Ret _ _ _ _ _ _ Hs H) as (r & c & _ & ->).
    apply with_entries_ok; auto. exact (Hf s st Hs).
  - unfold chain_addPossibility, bind, get in H. rewrite Hs in H. discriminate.
Qed.

Lemma chain_addPossibilityNow_ok n h0 h s p u h' :
  run_ok n h0 h -> fresh p h -> n <= p -> p < length h ->
  chain_addPossibilityNow s p h = Ret (u, h') ->
  run_ok n h0 h'.
Proof.
  intros Hok Hf Hn Hlt H.
  destruct (h !! s) as [st|] eqn:Hs.
  - destruct (chain_addPossibilityNow_Ret _ _ _ _ _ _ Hs H) as (r & c & _ & ->).
    assert (Hwf := proj1 Hok). destruct (Hwf s st Hs) as [Hb Hch].
    assert (Hmem : forall q,
               In q (members (with_entries p r c
                                (set_possibilities (_possibilities st ++ [p]) st)))
               <-> In q (members st) \/ q = p).
    { intros q. unfold members. simpl. rewrite !in_app_iff. simpl. intuition congruence. }
    apply (run_ok_update n h0 h s st _ Hok Hs);
      [first [assumption | unfold with_entries, with_possibility, without_entries, without_possibility, settled; simpl; try destruct (_yieldsPossibilities st); reflexivity]|..].
    + intros q Hq. apply Hmem in Hq as [Hq| ->]; split; auto.
    + intros Hc. destruct (Hch Hc) as [Ht Hnd]. split.
      * intros q Hq Hr. apply Hmem in Hq as [Hq| ->].
        -- destruct (Ht q Hq Hr) as [H1 H2]. simpl. split; apply dict_has_set; assumption.
        -- simpl. split; apply dict_has_set_same.
      * pose proof (NoDup_members_with_possibility p
                      (set_yieldsPossibilities false st) Hnd (Hf s st Hs)) as Hx.
        exact Hx.
  - unfold chain_addPossibilityNow, bind, get in H. rewrite Hs in H. discriminate.
Qed.

(** [addPossibility] of a state that keeps no entries (the root). *)
Lemma addPossibility_ok n h0 h s st p u h' :
  run_ok n h0 h -> h !! s = Some st -> is_chain_type (st_class st) = false ->
  fresh p h -> n <= p -> p < length h ->
  addPossibility s p h = Ret (u, h') ->
  run_ok n h0 h'.
Proof.
  intros Hok Hs Hc Hf Hn Hlt H. rewrite (addPossibility_eq _ _ _ _ Hs) in H.
  injection H as _ <-. assert (Hwf := proj1 Hok). destruct (Hwf s st Hs) as [Hb _].
  apply (run_ok_update n h0 h s st _ Hok Hs);
      [first [assumption | unfold with_entries, with_possibility, without_entries, without_possibility, settled; simpl; try destruct (_yieldsPossibilities st); reflexivity]|..].
  - intros q Hq. apply members_with_possibility in Hq as [Hq| ->]; split; auto.
  - intros Hc'. unfold with_possibility in Hc'.
    destruct (_yieldsPossibilities st); simpl in Hc'; congruence.
Qed.

Lemma call_addPossibility_ok n h0 h s p u h' :
  run_ok n h0 h -> fresh p h -> n <= p -> p < length h ->
  call_addPossibility s p h = Ret (u, h') ->
  run_ok n h0 h'.
Proof.
  intros Hok Hf Hn Hlt H. unfold call_addPossibility in H.
  apply bind_Ret in H as (st & h1 & Hg & H). apply get_Ret in Hg as [-> Hs].
  destruct (is_chain_type (st_class st)) eqn:Hc.
  - eapply chain_addPossibility_ok; eauto.
  - eapply addPossibility_ok; eauto.
Qed.

Lemma members_without_possibility p st q :
  In q (members (without_possibility p st)) -> In q (members st).
Proof.
  unfold without_possibility, members. destruct (_yieldsPossibilities st); simpl; [auto|].
  rewrite !in_app_iff. intros [H|H]; [left; eapply In_remove_first; exact H|auto].
Qed.

Lemma NoDup_app_remove_first p l1 l2 :
  NoDup (l1 ++ l2) -> NoDup (remove_first p l1 ++ l2).
Proof.
  intros Hnd. apply NoDup_app in Hnd as (H1 & H12 & H2). apply NoDup_app.
  split; [apply NoDup_remove_first; exact H1|]. split; [|exact H2].
  intros x Hx. apply H12. apply list_elem_of_In. eapply In_remove_first.
  apply list_elem_of_In. exact Hx.
Qed.

Lemma In_app_remove_first p l1 l2 q :
  NoDup (l1 ++ l2) -> In p l1 -> In q (remove_first p l1 ++ l2) -> q <> p.
Proof.
  intros Hnd Hp Hq. apply NoDup_app in Hnd as (H1 & H12 & H2).
  apply in_app_iff in Hq as [Hq|Hq].
  - apply (In_remove_first_NoDup p q l1 H1) in Hq. tauto.
  - intros ->. apply (H12 p); apply list_elem_of_In; assumption.
Qed.

Lemma without_entries_ok n h0 h s st p :
  run_ok n h0 h ->
  h !! s = Some st ->
  removable p st ->
  run_ok n h0 (<[s := without_entries p (without_possibility p st)]> h).
Proof.
  intros Hok Hs [Hin Hy].
  assert (Hwf := proj1 Hok). destruct (Hwf s st Hs) as [Hb Hch].
  apply (run_ok_update n h0 h s st _ Hok Hs);
      [first [assumption | unfold with_entries, with_possibility, without_entries, without_possibility, settled; simpl; try destruct (_yieldsPossibilities st); reflexivity]|..].
  - intros q Hq. apply (members_without_possibility p st q) in Hq. split; auto.
  - intros Hc.
    assert (Hc' : is_chain_type (st_class st) = true).
    { unfold without_entries, without_possibility in Hc.
      destruct (_yieldsPossibilities st); exact Hc. }
    destruct (Hch Hc') as [Ht Hnd]. unfold without_entries, without_possibility.
    destruct (_yieldsPossibilities st) eqn:Ey; simpl.
    + split; [|exact Hnd]. intros q Hq Hr. simpl in Hq, Hr.
      rewrite in_app_iff in Hr. simpl in Hr.
      assert (Hne : q <> p) by (intros ->; tauto).
      destruct (Ht q Hq) as [H1 H2]; [tauto|]. simpl.
      rewrite !dict_has_del_other by congruence. auto.
    + specialize (Hy eq_refl). split.
      * intros q Hq Hr. unfold members in Hq. simpl in Hq, Hr.
        assert (Hne : q <> p) by exact (In_app_remove_first p _ _ q Hnd Hy Hq).
        assert (Hq' : In q (members st)).
        { unfold members. rewrite in_app_iff in *.
          destruct Hq as [Hq|Hq]; [left; eapply In_remove_first; exact Hq|auto]. }
        destruct (Ht q Hq' Hr) as [H1 H2]. simpl.
        rewrite !dict_has_del_other by congruence. auto.
      * apply NoDup_app_remove_first. exact Hnd.
Qed.

Lemma fresh_without p q h s st :
  fresh q h -> h !! s = Some st ->
  fresh q (<[s := without_entries p (without_possibility p st)]> h).
Proof.
  intros Hf Hs. apply (fresh_update q h s st _ Hf Hs).
  intros x Hx. exact (members_without_possibility p st x Hx).
Qed.

Lemma chain_removePossibility_ok n h0 h s p u h' :
  run_ok n h0 h ->
  chain_removePossibility s p h = Ret (u, h') ->
  run_ok n h0 h' /\ (forall q, fresh q h -> fresh q h') /\ length h' = length h.
Proof.
  intros Hok H. destruct (h !! s) as [st|] eqn:Hs.
  - destruct (chain_removePossibility_Ret _ _ _ _ _ _ Hs H) as (Hin & Hy & ->).
    split; [|split].
    + apply without_entries_ok; auto. split; assumption.
    + intros q Hq. apply fresh_without; assumption.
    + apply length_insert.
  - unfold chain_removePossibility, removePossibility, bind, get in H.
    rewrite Hs in H. discriminate.
Qed.

Lemma removePossibility_ok n h0 h s st p u h' :
  run_ok n h0 h -> h !! s = Some st -> is_chain_type (st_class st) = false ->
  removePossibility s p h = Ret (u, h') ->
  run_ok n h0 h' /\ (forall q, fresh q h -> fresh q h') /\ length h' = length h.
Proof.
  intros Hok Hs Hc H.
  destruct (removePossibility_Ret _ _ _ _ _ _ Hs H) as (Hin & Hy & ->).
  assert (Hwf := proj1 Hok). destruct (Hwf s st Hs) as [Hb _].
  split; [|split; [|apply length_insert]].
  - apply (run_ok_update n h0 h s st _ Hok Hs);
      [first [assumption | unfold with_entries, with_possibility, without_entries, without_possibility, settled; simpl; try destruct (_yieldsPossibilities st); reflexivity]|..].
    + intros q Hq. apply (members_without_possibility p st q) in Hq. split; auto.
    + intros Hc'. unfold without_possibility in Hc'.
      destruct (_yieldsPossibilities st); simpl in Hc'; congruence.
  - intros q Hq. apply (fresh_update q h s st _ Hq Hs).
    intros x Hx. exact (members_without_possibility p st x Hx).
Qed.

Lemma call_removePossibility_ok n h0 h s p u h' :
  run_ok n h0 h ->
  call_removePossibility s p h = Ret (u, h') ->
  run_ok n h0 h' /\ (forall q, fresh q h -> fresh q h') /\ length h' = length h.
Proof.
  intros Hok H. unfold call_removePossibility in H.
  apply bind_Ret in H as (st & h1 & Hg & H). apply get_Ret in Hg as [-> Hs].
  destruct (is_chain_type (st_class st)) eqn:Hc.
  - eapply chain_removePossibility_ok; eauto.
  - eapply removePossibility_ok; eauto.
Qed.

Lemma append_result_ok n h0 h s state u h' :
  run_ok n h0 h ->
  append_result s state h = Ret (u, h') ->
  run_ok n h0 h' /\ (forall q, fresh q h -> fresh q h').
Proof.
  intros Hok H. unfold append_result in H.
  apply bind_Ret in H as (st & h1 & Hg & H). apply get_Ret in Hg as [-> Hs].
  apply bind_Ret in H as (r & h1 & Hr & H). apply lookup_or_Ret in Hr as [Hr ->].
  eapply modify_ok; [|exact Hok|exact H].
  intros st0. split; [reflexivity|]. split; [reflexivity|]. apply tracked_set_results.
Qed.

Lemma settle_In (removed l : list sid) q :
  In q (fold_left (fun l p => if mem p l then remove_first p l else l) removed l) ->
  In q l.
Proof.
  revert l. induction removed as [|p r IH]; simpl; intros l H; [exact H|].
  apply IH in H. destruct (mem p l); [eapply In_remove_first; exact H|exact H].
Qed.

Lemma settle_NoDup (removed l : list sid) :
  NoDup l ->
  NoDup (fold_left (fun l p => if mem p l then remove_first p l else l) removed l)
  /\ forall q,
       In q (fold_left (fun l p => if mem p l then remove_first p l else l) removed l) ->
       ~ In q removed.
Proof.
  revert l. induction removed as [|p r IH]; simpl; intros l Hnd; [auto|].
  assert (Hnd' : NoDup (if mem p l then remove_first p l else l)).
  { destruct (mem p l); [apply NoDup_remove_first|]; exact Hnd. }
  destruct (IH _ Hnd') as [H1 H2]. split; [exact H1|].
  intros q Hq [<-|Hr]; [|exact (H2 q Hq Hr)].
  apply settle_In in Hq. destruct (mem p l) eqn:E.
  - apply (In_remove_first_NoDup p p l Hnd) in Hq. tauto.
  - apply mem_false in E. contradiction.
Qed.

Lemma settled_ok n h0 h s st :
  run_ok n h0 h ->
  h !! s = Some st ->
  run_ok n h0 (<[s := settled st]> h).
Proof.
  intros Hok Hs. assert (Hwf := proj1 Hok). destruct (Hwf s st Hs) as [Hb Hch].
  assert (Hmem : forall q, In q (members (settled st)) -> In q (members st)).
  { intros q Hq. unfold settled, members in Hq. simpl in Hq. rewrite app_nil_r in Hq.
    apply settle_In in Hq. exact Hq. }
  apply (run_ok_update n h0 h s st _ Hok Hs);
      [first [assumption | unfold with_entries, with_possibility, without_entries, without_possibility, settled; simpl; try destruct (_yieldsPossibilities st); reflexivity]|..].
  - intros q Hq. apply Hmem in Hq. split; auto.
  - intros Hc. destruct (Hch Hc) as [Ht Hnd].
    destruct (settle_NoDup (_removedPossibilities st) _ Hnd) as [Hnd' Hnr]. split.
    + intros q Hq _. assert (Hq' := Hmem q Hq).
      unfold settled, members in Hq. simpl in Hq. rewrite app_nil_r in Hq.
      exact (Ht q Hq' (Hnr q Hq)).
    + unfold settled, members. simpl. rewrite app_nil_r. exact Hnd'.
Qed.

(** ** The methods keep the heap well-formed *)

Lemma update_bare n h0 h s st st' :
  run_ok n h0 h -> h !! s = Some st -> st_class st' = st_class st -> members st' = [] ->
  run_ok n h0 (<[s := st']> h) /\ (forall q, fresh q h -> fresh q (<[s := st']> h)).
Proof.
  intros Hok Hs Hcl Hm. split.
  - apply (run_ok_update n h0 h s st st' Hok Hs Hcl).
    + intros q Hq. rewrite Hm in Hq. destruct Hq.
    + intros _. split; [intros q Hq; rewrite Hm in Hq; destruct Hq|rewrite Hm; constructor].
  - intros q Hq. apply (fresh_update q h s st st' Hq Hs).
    intros x Hx. rewrite Hm in Hx. destruct Hx.
Qed.

Ltac neutral :=
  intros ?; split; [reflexivity|]; split; [reflexivity|];
  first [ exact (fun H => H)
        | apply tracked_set_results
        | apply tracked_set_currentPositions ].

(** Steps a hypothesis [H : (x <- c ;; k) h = Ret _] over [c]. *)
Ltac m_get H st Hs :=
  let h1 := fresh "h" in
  let Hg := fresh "Hg" in
  apply bind_Ret in H as (st & h1 & Hg & H); apply get_Ret in Hg as [-> Hs].

Ltac m_assert H :=
  let a := fresh "a" in
  let h1 := fresh "h" in
  let Ha := fresh "Ha" in
  apply bind_Ret in H as (a & h1 & Ha & H); apply assert_Ret in Ha as [_ ->].

Ltac m_lookup H x Hx :=
  let h1 := fresh "h" in
  apply bind_Ret in H as (x & h1 & Hx & H); apply lookup_or_Ret in Hx as [Hx ->].

Ltac m_modify H Hok :=
  let u := fresh "u" in
  let h1 := fresh "h" in
  let Hm := fresh "Hm" in
  let Hok' := fresh "Hok" in
  apply bind_Ret in H as (u & h1 & Hm & H);
  destruct (fun Hf => modify_ok _ _ _ _ _ _ _ Hf Hok Hm) as [Hok' _]; [neutral|];
  clear Hok; rename Hok' into Hok.

Lemma fork_ok n h0 h s validState copy h' :
  run_ok n h0 h ->
  fork s validState h = Ret (copy, h') ->
  run_ok n h0 h'.
Proof.
  intros Hok H. unfold fork in H. m_get H st Hs.
  destruct (st_parent st) as [par|]; [|discriminate].
  rewrite bind_alloc in H.
  destruct (run_ok_alloc n h0 h (new_state (st_class st) (st_symbol st) (Some par))
              Hok eq_refl) as (Hok1 & Hf1 & Hlt1 & Hc1).
  assert (Hn : n <= length h) by exact (proj1 (proj2 Hok)).
  m_lookup H r Hr.
  apply bind_Ret in H as (u1 & h2 & Hm & H). apply modify_Ret in Hm as (c0 & Hc0 & ->).
  rewrite Hc1 in Hc0. injection Hc0 as <-.
  destruct (update_bare n h0 _ (length h) _
              (set_results [(Some validState, r)]
                 (new_state (st_class st) (st_symbol st) (Some par)))
              Hok1 Hc1 eq_refl eq_refl) as [Hok2 Hfr2].
  pose proof (Hfr2 _ Hf1) as Hf2.
  pose proof (lookup_insert_same _ _ _
                (set_results [(Some validState, r)]
                   (new_state (st_class st) (st_symbol st) (Some par))) Hc1) as Hc2.
  m_lookup H c Hc.
  apply bind_Ret in H as (u2 & h3 & Hm & H). apply modify_Ret in Hm as (c0 & Hc0 & ->).
  rewrite Hc2 in Hc0. injection Hc0 as <-.
  match type of H with context [<[length h := ?v]> (<[length h := ?w]> ?hh)] =>
    destruct (update_bare n h0 _ (length h) _ v Hok2 Hc2 eq_refl eq_refl) as [Hok3 Hfr3]
  end.
  pose proof (Hfr3 _ Hf2) as Hf3.
  apply bind_Ret in H as (u3 & h4 & Hrm & H).
  destruct (chain_removePossibility_ok _ _ _ _ _ _ _ Hok3 Hrm) as (Hok4 & Hfr4 & Hl4).
  pose proof (Hfr4 _ Hf3) as Hf4.
  assert (Hlen4 : length h < length h4).
  { rewrite Hl4, !length_insert. exact Hlt1. }
  apply bind_Ret in H as (u4 & h5 & Hadd & H).
  assert (Hok5 : run_ok n h0 h5).
  { eapply call_addPossibility_ok; [exact Hok4|exact Hf4|exact Hn|exact Hlen4|exact Hadd]. }
  m_get H pst Hpst.
  apply bind_Ret in H as (u5 & h6 & Hif & H). injection H as _ <-.
  destruct (is_chain_type (st_class pst)).
  - m_assert Hif. apply assert_Ret in Hif as [_ ->]. exact Hok5.
  - injection Hif as _ <-. exact Hok5.
Qed.

Ltac m_modify_last H Hok :=
  destruct (fun Hf => modify_ok _ _ _ _ _ _ _ Hf Hok H) as [? _]; [neutral|]; assumption.

Lemma result_count_Ret s state h k h' :
  result_count s state h = Ret (k, h') -> h' = h.
Proof.
  intros H. unfold result_count in H. apply bind_Ret in H as (st & h1 & Hg & H).
  apply get_Ret in Hg as [-> _]. apply bind_Ret in H as (r & h1 & Hr & H).
  apply lookup_or_Ret in Hr as [_ ->]. injection H as _ <-. reflexivity.
Qed.

Section Bodies.

Variable tab : list symbol.
Variable gas : nat.
Variable e : engine.
Hypothesis He : engine_ok e.

Lemma symbol_of_Ret st h sy h' : symbol_of tab st h = Ret (sy, h') -> h' = h.
Proof.
  unfold symbol_of. destruct (tab !! st_symbol st); [|discriminate].
  intros H. injection H as _ <-. reflexivity.
Qed.

Lemma createNextState_ok n h0 h s validState u h' :
  run_ok n h0 h ->
  createNextState tab e s validState h = Ret (u, h') ->
  run_ok n h0 h'.
Proof.
  intros Hok H. unfold createNextState in H. m_get H st Hs. m_modify H Hok.
  m_lookup H cpos Hpos.
  apply bind_Ret in H as (sy & hp2 & Hsy & H). apply symbol_of_Ret in Hsy as ->.
  m_lookup H nsym Hsym.
  apply bind_Ret in H as (nextState & hp3 & Hget & H).
  destruct (creates_run _ _ _ _ _ _ (proj1 He nsym s) Hok Hget) as (Hok3 & Hf3 & Hn3 & Hl3).
  clear Hok. m_get H st' Hs'.
  apply bind_Ret in H as (u4 & hp4 & Hadd & H).
  assert (Hok4 : run_ok n h0 hp4).
  { destruct (negb (mem validState (_possibilities st'))).
    - eapply chain_addPossibility_ok; eauto.
    - destruct (currentlyWorksOn st) as [cur|].
      + m_lookup Hadd iv Hiv. m_lookup Hadd ic Hic.
        destruct (iv <=? ic).
        * eapply chain_addPossibility_ok; eauto.
        * eapply chain_addPossibilityNow_ok; eauto.
      + eapply chain_addPossibility_ok; eauto. }
  m_modify_last H Hok4.
Qed.

Lemma root_setValidPossibility_ok n h0 h s st state u h' :
  run_ok n h0 h ->
  h !! s = Some st -> is_chain_type (st_class st) = false ->
  root_setValidPossibility s state h = Ret (u, h') ->
  run_ok n h0 h'.
Proof.
  intros Hok Hs Hc H. unfold root_setValidPossibility in H.
  apply bind_Ret in H as (u1 & hp1 & Hm & H).
  destruct (fun Hf => modify_ok _ _ _ _ _ _ _ Hf Hok Hm) as [Hok1 _]; [neutral|].
  apply modify_Ret in Hm as (st1 & Hs1 & ->). rewrite Hs in Hs1. injection Hs1 as <-.
  eapply removePossibility_ok; [exact Hok1|exact (lookup_insert_same _ _ _ _ Hs)| |exact H].
  exact Hc.
Qed.

Lemma chain_setValidPossibility_ok n h0 h s state u h' :
  run_ok n h0 h ->
  chain_setValidPossibility tab e s state h = Ret (u, h') ->
  run_ok n h0 h'.
Proof.
  intros Hok H. unfold chain_setValidPossibility in H. m_get H st Hs. m_assert H.
  apply bind_Ret in H as (u1 & hp1 & Hap & H).
  destruct (append_result_ok _ _ _ _ _ _ _ Hok Hap) as [Hok1 _]. clear Hok.
  m_lookup H c Hc. m_modify H Hok1.
  apply bind_Ret in H as (sy & hp2 & Hsy & H). apply symbol_of_Ret in Hsy as ->.
  destruct (length (symbols_of sy) =? c + 1).
  - apply bind_Ret in H as (newState & hp3 & Hfork & H).
    pose proof (fork_ok _ _ _ _ _ _ _ Hok1 Hfork) as Hok3.
    exact (keeps_run _ _ _ _ _ _ (proj1 (proj2 (proj2 (proj2 He))) newState) Hok3 H).
  - apply bind_Ret in H as (u3 & hp3 & Hnext & H).
    pose proof (createNextState_ok _ _ _ _ _ _ _ Hok1 Hnext) as Hok3.
    exact (proj1 (chain_removePossibility_ok _ _ _ _ _ _ _ Hok3 H)).
Qed.

Lemma repeat_setValidPossibility_ok n h0 h s state u h' :
  run_ok n h0 h ->
  repeat_setValidPossibility tab e s state h = Ret (u, h') ->
  run_ok n h0 h'.
Proof.
  intros Hok H. unfold repeat_setValidPossibility in H. m_get H st Hs. m_assert H.
  apply bind_Ret in H as (sy & hp2 & Hsy & H). apply symbol_of_Ret in Hsy as ->.
  destruct sy as [| |x From To m| |]; try discriminate.
  apply bind_Ret in H as (u1 & hp1 & Hap & H).
  destruct (append_result_ok _ _ _ _ _ _ _ Hok Hap) as [Hok1 _]. clear Hok.
  apply bind_Ret in H as (k & hp3 & Hk & H). apply result_count_Ret in Hk as ->.
  apply bind_Ret in H as (u4 & hp4 & Hnext & H).
  assert (Hok4 : run_ok n h0 hp4).
  { destruct ((Z.of_nat k <? To)%Z || (To =? -1)%Z).
    - exact (createNextState_ok _ _ _ _ _ _ _ Hok1 Hnext).
    - injection Hnext as _ <-. exact Hok1. }
  apply bind_Ret in H as (k' & hp5 & Hk' & H). apply result_count_Ret in Hk' as ->.
  destruct (Z.of_nat k' >=? From)%Z.
  - apply bind_Ret in H as (newState & hp6 & Hfork & H).
    pose proof (fork_ok _ _ _ _ _ _ _ Hok4 Hfork) as Hok6.
    exact (keeps_run _ _ _ _ _ _ (proj1 (proj2 (proj2 (proj2 He))) newState) Hok6 H).
  - exact (proj1 (chain_removePossibility_ok _ _ _ _ _ _ _ Hok4 H)).
Qed.

Lemma oneOf_setValidPossibility_ok n h0 h s state u h' :
  run_ok n h0 h ->
  oneOf_setValidPossibility e s state h = Ret (u, h') ->
  run_ok n h0 h'.
Proof.
  intros Hok H. unfold oneOf_setValidPossibility in H.
  apply bind_Ret in H as (u1 & hp1 & Hap & H).
  destruct (append_result_ok _ _ _ _ _ _ _ Hok Hap) as [Hok1 _]. clear Hok.
  apply bind_Ret in H as (newState & hp3 & Hfork & H).
  pose proof (fork_ok _ _ _ _ _ _ _ Hok1 Hfork) as Hok3.
  apply bind_Ret in H as (u4 & hp4 & Hv & H).
  pose proof (keeps_run _ _ _ _ _ _ (proj1 (proj2 (proj2 (proj2 He))) newState) Hok3 Hv)
    as Hok4.
  exact (proj1 (chain_removePossibility_ok _ _ _ _ _ _ _ Hok4 H)).
Qed.

Lemma setValidPossibility_ok n h0 h s state u h' :
  run_ok n h0 h ->
  setValidPossibility tab e s state h = Ret (u, h') ->
  run_ok n h0 h'.
Proof.
  intros Hok H. unfold setValidPossibility in H. m_get H st Hs.
  destruct (st_class st) eqn:Hc; try discriminate.
  - eapply root_setValidPossibility_ok; eauto. rewrite Hc. reflexivity.
  - eapply chain_setValidPossibility_ok; eauto.
  - eapply repeat_setValidPossibility_ok; eauto.
  - eapply oneOf_setValidPossibility_ok; eauto.
Qed.

Lemma makeValid_ok n h0 h s u h' :
  run_ok n h0 h ->
  makeValid tab e s h = Ret (u, h') ->
  run_ok n h0 h'.
Proof.
  intros Hok H. unfold makeValid in H. m_get H st Hs.
  destruct (st_parent st) as [par|].
  - eapply setValidPossibility_ok; eauto.
  - injection H as _ <-. exact Hok.
Qed.

Lemma setInvalidPossibility_ok n h0 h s state u h' :
  run_ok n h0 h ->
  setInvalidPossibility e s state h = Ret (u, h') ->
  run_ok n h0 h'.
Proof.
  intros Hok H. unfold setInvalidPossibility in H.
  apply bind_Ret in H as (u1 & hp1 & Hrm & H).
  destruct (call_removePossibility_ok _ _ _ _ _ _ _ Hok Hrm) as (Hok1 & _ & _).
  m_get H st Hs. destruct (length (_possibilities st) =? 0).
  - exact (keeps_run _ _ _ _ _ _ (proj2 (proj2 (proj2 (proj2 He))) s) Hok1 H).
  - injection H as _ <-. exact Hok1.
Qed.

Lemma makeInvalid_ok n h0 h s u h' :
  run_ok n h0 h ->
  makeInvalid e s h = Ret (u, h') ->
  run_ok n h0 h'.
Proof.
  intros Hok H. unfold makeInvalid in H. m_get H st Hs.
  destruct (st_parent st) as [par|]; [|discriminate].
  eapply setInvalidPossibility_ok; eauto.
Qed.

End Bodies.

Section Loops.

Variable tab : list symbol.
Variable gas : nat.
Variable e : engine.
Hypothesis He : engine_ok e.

Lemma possibilities_from_ok n h0 (body : sid -> M (list sid)) s :
  (forall p h a h', run_ok n h0 h -> body p h = Ret (a, h') -> run_ok n h0 h') ->
  forall k i acc h l h',
    run_ok n h0 h ->
    possibilities_from k s body i acc h = Ret (l, h') ->
    run_ok n h0 h'.
Proof.
  intros Hbody. induction k as [|k IH]; intros i acc h l h' Hok H; simpl in H.
  - destruct (h !! s) as [st|]; [|discriminate].
    destruct (_possibilities st !! i); [discriminate|].
    injection H as _ <-. exact Hok.
  - destruct (h !! s) as [st|]; [|discriminate].
    destruct (_possibilities st !! i) as [p|]; [|injection H as _ <-; exact Hok].
    destruct (mem p (_removedPossibilities st)).
    + exact (IH _ _ _ _ _ Hok H).
    + destruct (body p h) as [[a hb]| |] eqn:Hb; try discriminate.
      exact (IH _ _ _ _ _ (Hbody _ _ _ _ Hok Hb) H).
Qed.

Lemma possibilities_end_settled s h st :
  h !! s = Some st ->
  possibilities_end e s h
  = (st' <- get s ;; if isInvalid st' then makeInvalid e s else ret tt)
      (<[s := settled st]> h).
Proof.
  intros Hs. unfold possibilities_end. hmod Hs.
  match goal with |- context [<[s := ?v]> h] =>
    pose proof (lookup_insert_same _ _ _ v Hs) as Hs1 end.
  hmod Hs1. rewrite list_insert_insert_eq.
  match goal with |- context [<[s := ?v]> h] =>
    pose proof (lookup_insert_same _ _ _ v Hs) as Hs2 end.
  hmod Hs2. rewrite list_insert_insert_eq.
  match goal with |- context [<[s := ?v]> h] =>
    pose proof (lookup_insert_same _ _ _ v Hs) as Hs3 end.
  hmod Hs3. rewrite list_insert_insert_eq.
  match goal with |- context [<[s := ?v]> h] =>
    pose proof (lookup_insert_same _ _ _ v Hs) as Hs4 end.
  hmod Hs4. rewrite list_insert_insert_eq. reflexivity.
Qed.

Lemma possibilities_end_ok n h0 h s u h' :
  run_ok n h0 h ->
  possibilities_end e s h = Ret (u, h') ->
  run_ok n h0 h'.
Proof.
  intros Hok H. destruct (h !! s) as [st|] eqn:Hs.
  - rewrite (possibilities_end_settled _ _ _ Hs) in H.
    pose proof (settled_ok _ _ _ _ _ Hok Hs) as Hok1.
    m_get H st' Hs'. destruct (isInvalid st').
    + exact (makeInvalid_ok e He _ _ _ _ _ _ Hok1 H).
    + injection H as _ <-. exact Hok1.
  - unfold possibilities_end, bind, modify in H. rewrite Hs in H. discriminate.
Qed.

Lemma possibilities_ok n h0 (body : sid -> M (list sid)) s h l h' :
  (forall p h a h', run_ok n h0 h -> body p h = Ret (a, h') -> run_ok n h0 h') ->
  run_ok n h0 h ->
  possibilities gas e s body h = Ret (l, h') ->
  run_ok n h0 h'.
Proof.
  intros Hbody Hok H. unfold possibilities in H. m_modify H Hok.
  apply bind_Ret in H as (lq1 & hq1 & Hloop & H).
  pose proof (possibilities_from_ok n h0 body s Hbody _ _ _ _ _ _ Hok Hloop) as Hok1.
  apply bind_Ret in H as (w2 & hq2 & Hend & H).
  pose proof (possibilities_end_ok _ _ _ _ _ _ Hok1 Hend) as Hok2.
  injection H as _ <-. exact Hok2.
Qed.

Lemma leafs_ok n h0 h s l h' :
  run_ok n h0 h ->
  leafs gas e s h = Ret (l, h') ->
  run_ok n h0 h'.
Proof.
  intros Hok H. unfold leafs in H. m_get H st Hs.
  assert (Hb : forall p h a h', run_ok n h0 h -> e_leafs e p h = Ret (a, h') ->
                 run_ok n h0 h').
  { intros p hh aa hh' Hokh Hl.
    exact (keeps_run _ _ _ _ _ _ (proj1 (proj2 (proj2 He)) p) Hokh Hl). }
  destruct (st_class st);
    try exact (possibilities_ok _ _ _ _ _ _ _ Hb Hok H).
  injection H as _ <-. exact Hok.
Qed.

Lemma token_pushToken_ok n h0 h s tok u h' :
  run_ok n h0 h ->
  token_pushToken tab e s tok h = Ret (u, h') ->
  run_ok n h0 h'.
Proof.
  intros Hok H. unfold token_pushToken in H. m_get H st Hs. m_assert H.
  destruct (m_token tok =? st_symbol st).
  - m_modify H Hok. exact (makeValid_ok tab e He _ _ _ _ _ _ Hok H).
  - exact (makeInvalid_ok e He _ _ _ _ _ _ Hok H).
Qed.

Lemma chain_pushToken_ok n h0 h s tok u h' :
  run_ok n h0 h ->
  chain_pushToken gas e s tok h = Ret (u, h') ->
  run_ok n h0 h'.
Proof.
  intros Hok H. unfold chain_pushToken in H. m_get H st Hs. m_assert H. m_assert H.
  apply bind_Ret in H as (lq1 & hq1 & Hloop & H).
  assert (Hok1 : run_ok n h0 hq1).
  { refine (possibilities_ok _ _ _ _ _ _ _ _ Hok Hloop).
    intros p hh aa hh' Hokh Hb. m_get Hb st1 Hs1. m_assert Hb. m_assert Hb.
    m_modify Hb Hokh. apply bind_Ret in Hb as (w2 & hq2 & Hpush & Hb).
    injection Hb as _ <-.
    exact (keeps_run _ _ _ _ _ _ (proj1 (proj2 He) p tok) Hokh Hpush). }
  m_modify_last H Hok1.
Qed.

Lemma root_pushToken_ok n h0 h s tok u h' :
  run_ok n h0 h ->
  root_pushToken gas e s tok h = Ret (u, h') ->
  run_ok n h0 h'.
Proof.
  intros Hok H. unfold root_pushToken in H. m_modify H Hok. m_get H st Hs.
  destruct (length (_possibilities st) =? 0); [discriminate|].
  m_modify H Hok.
  apply bind_Ret in H as (ls & hq1 & Hleafs & H).
  assert (Hok1 : run_ok n h0 hq1).
  { refine (possibilities_ok _ _ _ _ _ _ _ _ Hok Hleafs).
    intros p hh aa hh' Hokh Hl.
    exact (keeps_run _ _ _ _ _ _ (proj1 (proj2 (proj2 He)) p) Hokh Hl). }
  clear Hok. m_modify H Hok1.
  apply bind_Ret in H as (lq2 & hq2 & Hloop & H). injection H as _ <-.
  refine (possibilities_ok _ _ _ _ _ _ _ _ Hok1 Hloop).
  intros p hh aa hh' Hokh Hb. apply bind_Ret in Hb as (w2 & hq3 & Hpush & Hb).
  injection Hb as _ <-.
  exact (keeps_run _ _ _ _ _ _ (proj1 (proj2 He) p tok) Hokh Hpush).
Qed.

Lemma pushToken_ok n h0 h s tok u h' :
  run_ok n h0 h ->
  pushToken tab gas e s tok h = Ret (u, h') ->
  run_ok n h0 h'.
Proof.
  intros Hok H. unfold pushToken in H. m_get H st Hs.
  destruct (st_class st).
  - eapply root_pushToken_ok; eauto.
  - eapply token_pushToken_ok; eauto.
  - eapply chain_pushToken_ok; eauto.
  - eapply chain_pushToken_ok; eauto.
  - eapply chain_pushToken_ok; eauto.
Qed.

Lemma chain_init_ok n h0 h s symbols u h' :
  run_ok n h0 h ->
  chain_init e s symbols h = Ret (u, h') ->
  run_ok n h0 h'.
Proof.
  intros Hok H. unfold chain_init in H. m_lookup H nsym Hsym.
  apply bind_Ret in H as (p & hq1 & Hget & H).
  destruct (creates_run _ _ _ _ _ _ (proj1 He nsym s) Hok Hget) as (Hok1 & Hf1 & Hn1 & Hl1).
  eapply chain_addPossibility_ok; eauto.
Qed.

Lemma addEmptyResultToParentEventually_ok n h0 h s From u h' :
  run_ok n h0 h ->
  addEmptyResultToParentEventually e s From h = Ret (u, h') ->
  run_ok n h0 h'.
Proof.
  intros Hok H. unfold addEmptyResultToParentEventually in H. m_get H st Hs.
  assert (Hskip : ret tt h = Ret (u, h') -> run_ok n h0 h').
  { intros Hr. injection Hr as _ <-. exact Hok. }
  destruct (results st) as [|[k0 [|? ?]] [|? ?]]; auto.
  destruct (st_parent st) as [par|]; auto.
  destruct (From =? 0)%Z; auto.
  rewrite bind_alloc in H.
  destruct (run_ok_alloc n h0 h
              (set_results [(None, [])] (new_state KRepeat (st_symbol st) (Some par)))
              Hok eq_refl) as (Hok1 & Hf1 & Hlt1 & _).
  apply bind_Ret in H as (w1 & hq1 & Hadd & H).
  assert (Hok2 : run_ok n h0 hq1).
  { eapply call_addPossibility_ok; [exact Hok1|exact Hf1| |exact Hlt1|exact Hadd].
    exact (proj1 (proj2 Hok)). }
  exact (keeps_run _ _ _ _ _ _ (proj1 (proj2 (proj2 (proj2 He))) _) Hok2 H).
Qed.

Lemma oneOf_init_ok n h0 s symbols :
  forall h u h',
    run_ok n h0 h ->
    oneOf_init e s symbols h = Ret (u, h') ->
    run_ok n h0 h'.
Proof.
  induction symbols as [|nsym rest IH]; intros h u h' Hok H; simpl in H.
  - injection H as _ <-. exact Hok.
  - apply bind_Ret in H as (p & hq1 & Hget & H).
    destruct (creates_run _ _ _ _ _ _ (proj1 He nsym s) Hok Hget)
      as (Hok1 & Hf1 & Hn1 & Hl1).
    apply bind_Ret in H as (w2 & hq2 & Hadd & H).
    pose proof (chain_addPossibility_ok _ _ _ _ _ _ _ Hok1 Hf1 Hn1 Hl1 Hadd) as Hok2.
    exact (IH _ _ _ Hok2 H).
Qed.

Lemma getState_creates nsym par : creates (getState tab e nsym par).
Proof.
  intros h p h' Hwf H. unfold getState in H.
  apply bind_Ret in H as (sy & hq0 & Hsy & H).
  assert (hq0 = h) as ->.
  { destruct (tab !! nsym); [|discriminate]. injection Hsy as _ <-. reflexivity. }
  assert (Halloc : forall st, members st = [] ->
            run_ok (S (length h)) h (h ++ [st])).
  { intros st Hm. apply (alloc_ok (S (length h)) h h st Hwf); auto using grows_refl. }
  assert (Hfin : forall hf, run_ok (S (length h)) h hf ->
            wf_heap hf /\ length h = length h /\ length h < length hf
            /\ grows (S (length h)) h hf).
  { intros hf (Hw & Hn & Hg). split; [exact Hw|]. split; [reflexivity|].
    split; [lia|exact Hg]. }
  destruct sy as [re m|symbols m|x From To m|symbols m|name]; try discriminate.
  - unfold alloc in H. injection H as <- <-. apply Hfin, Halloc. reflexivity.
  - rewrite bind_alloc in H. apply bind_Ret in H as (w1 & hq1 & Hinit & H).
    injection H as <- <-. apply Hfin.
    exact (chain_init_ok _ _ _ _ _ _ _
             (Halloc (new_state KChain nsym (Some par)) eq_refl) Hinit).
  - rewrite bind_alloc in H. apply bind_Ret in H as (w1 & hq1 & Hinit & H).
    pose proof (chain_init_ok _ _ _ _ _ _ _
                  (Halloc (new_state KRepeat nsym (Some par)) eq_refl) Hinit) as Hok1.
    apply bind_Ret in H as (w2 & hq2 & Hempty & H). injection H as <- <-. apply Hfin.
    exact (addEmptyResultToParentEventually_ok _ _ _ _ _ _ _ Hok1 Hempty).
  - rewrite bind_alloc in H. apply bind_Ret in H as (w1 & hq1 & Hinit & H).
    injection H as <- <-. apply Hfin.
    exact (oneOf_init_ok _ _ _ _ _ _ _
             (Halloc (new_state KOneOf nsym (Some par)) eq_refl) Hinit).
Qed.

Lemma keeps_of_run {A} (c : M A) :
  (forall h a h', run_ok (length h) h h -> c h = Ret (a, h') -> run_ok (length h) h h') ->
  keeps c.
Proof.
  intros Hc h a h' Hwf H. destruct (Hc h a h' (run_ok_start h Hwf) H) as (Hw & _ & Hg).
  auto.
Qed.

Lemma engine_step_ok :
  engine_ok {| e_getState := getState tab e;
               e_pushToken := pushToken tab gas e;
               e_leafs := leafs gas e;
               e_makeValid := makeValid tab e;
               e_makeInvalid := makeInvalid e |}.
Proof.
  split; [|split; [|split; [|split]]]; simpl.
  - intros nsym par. apply getState_creates.
  - intros s tok. apply keeps_of_run. intros h a h'. apply pushToken_ok.
  - intros s. apply keeps_of_run. intros h a h'. apply leafs_ok.
  - intros s. apply keeps_of_run. intros h a h'. apply (makeValid_ok tab e He).
  - intros s. apply keeps_of_run. intros h a h'. apply (makeInvalid_ok e He).
Qed.

End Loops.

(** Every method of the engine keeps the heap well-formed, whatever the
    depth of the stack. *)
Lemma engine_at_ok tab gas depth : engine_ok (engine_at tab gas depth).
Proof.
  induction depth as [|d IH]; simpl.
  - split; [|split; [|split; [|split]]]; intros; intros hh aa hh' _ Hr; discriminate.
  - apply engine_step_ok. exact IH.
Qed.

Lemma wf_heap_nil : wf_heap [].
Proof. intros s st Hs. rewrite lookup_nil in Hs. discriminate. Qed.

(** The root state and the states built below it form a well-formed heap. *)
Lemma parserRootState_init_ok tab gas depth start root h :
  parserRootState_init (engine_at tab gas depth) start [] = Ret (root, h) ->
  wf_heap h.
Proof.
  intros H. unfold parserRootState_init in H. rewrite bind_alloc in H.
  destruct (alloc_ok 0 [] [] (new_state KRoot start None) wf_heap_nil
              (grows_refl 0 []) ltac:(simpl; lia) eq_refl) as ((Hwf0 & _) & _ & _ & Hr0).
  simpl in Hwf0, Hr0, H.
  pose proof (run_ok_start _ Hwf0) as Hok0.
  apply bind_Ret in H as (p & hq1 & Hget & H).
  destruct (creates_run _ _ _ _ _ _ (proj1 (engine_at_ok tab gas depth) start 0) Hok0 Hget)
    as (Hok1 & Hf1 & Hn1 & Hl1).
  destruct (proj1 (proj2 (proj2 (proj2 Hok1))) 0 _ Hr0) as (st' & Hs' & Hc').
  apply bind_Ret in H as (w2 & hq2 & Hadd & H). injection H as _ <-.
  refine (proj1 (addPossibility_ok _ _ _ _ _ _ _ _ Hok1 Hs' _ Hf1 Hn1 Hl1 Hadd)).
  rewrite Hc'. reflexivity.
Qed.

Lemma push_tokens_ok tab gas depth root tokens :
  forall h u h',
    wf_heap h ->
    push_tokens (engine_at tab gas depth) root tokens h = Ret (u, h') ->
    wf_heap h'.
Proof.
  induction tokens as [|t rest IH]; intros h u h' Hwf H; simpl in H.
  - injection H as _ <-. exact Hwf.
  - apply bind_Ret in H as (w1 & hq1 & Hpush & H).
    destruct (proj1 (proj2 (engine_at_ok tab gas depth)) root t h w1 hq1 Hwf Hpush)
      as [Hwf1 _].
    exact (IH _ _ _ Hwf1 H).
Qed.

(** C9: in every heap the parser reaches, each alternative of a chain-type
    state (sequence, repetition, alternation) that is live and not pending
    removal has an entry in [results] and in [currentPositions]: the heap
    built by the root is well-formed, every method keeps it well-formed, and
    a well-formed heap tracks its alternatives. Adding an alternative creates
    both entries, copied from the branch the state works on when there is
    one and the empty list and position 0 otherwise; removing an alternative
    deletes both entries. *)
Theorem chain_states_tracked :
  (forall tab gas depth start tokens root h h',
      parserRootState_init (engine_at tab gas depth) start [] = Ret (root, h) ->
      push_tokens (engine_at tab gas depth) root tokens h = Ret (tt, h') ->
      wf_heap h /\ wf_heap h')
  /\ (forall tab gas depth, engine_ok (engine_at tab gas depth))
  /\ (forall h s st p,
        wf_heap h -> h !! s = Some st -> is_chain_type (st_class st) = true ->
        In p (_possibilities st) -> ~ In p (_removedPossibilities st) ->
        dict_has (Some p) (results st) = true
        /\ dict_has (Some p) (currentPositions st) = true)
  /\ (forall s p h st u h',
        h !! s = Some st ->
        chain_addPossibility s p h = Ret (u, h')
        \/ chain_addPossibilityNow s p h = Ret (u, h') ->
        exists st' r c,
          h' !! s = Some st'
          /\ copied_entries st r c
          /\ dict_get (Some p) (results st') = Some r
          /\ dict_get (Some p) (currentPositions st') = Some c
          /\ In p (members st'))
  /\ (forall s p h st u h',
        h !! s = Some st ->
        chain_removePossibility s p h = Ret (u, h') ->
        exists st',
          h' !! s = Some st'
          /\ dict_has (Some p) (results st') = false
          /\ dict_has (Some p) (currentPositions st') = false).
Proof.
  split; [|split; [|split; [|split]]].
  - intros tab gas depth start tokens root h h' Hinit Hpush.
    pose proof (parserRootState_init_ok _ _ _ _ _ _ Hinit) as Hwf.
    split; [exact Hwf|]. exact (push_tokens_ok _ _ _ _ _ _ _ _ Hwf Hpush).
  - apply engine_at_ok.
  - intros h s st p Hwf Hs Hc Hp Hr. destruct (Hwf s st Hs) as [_ Hch].
    destruct (Hch Hc) as [Ht _]. apply (Ht p); [|exact Hr].
    unfold members. apply in_or_app. left. exact Hp.
  - intros s p h st u h' Hs [H|H].
    + destruct (chain_addPossibility_Ret _ _ _ _ _ _ Hs H) as (r & c & Hrc & ->).
      exists (with_entries p r c (with_possibility p st)), r, c.
      split; [exact (lookup_insert_same _ _ _ _ Hs)|]. split; [exact Hrc|].
      unfold with_entries. simpl. rewrite !dict_get_set_same.
      split; [reflexivity|]. split; [reflexivity|].
      apply (members_with_possibility p st p). right. reflexivity.
    + destruct (chain_addPossibilityNow_Ret _ _ _ _ _ _ Hs H) as (r & c & Hrc & ->).
      eexists. exists r, c.
      split; [exact (lookup_insert_same _ _ _ _ Hs)|]. split; [exact Hrc|].
      unfold with_entries. simpl. rewrite !dict_get_set_same.
      split; [reflexivity|]. split; [reflexivity|].
      unfold members. simpl. rewrite !in_app_iff. simpl. auto.
  - intros s p h st u h' Hs H.
    destruct (chain_removePossibility_Ret _ _ _ _ _ _ Hs H) as (_ & _ & ->).
    eexists. split; [exact (lookup_insert_same _ _ _ _ Hs)|].
    unfold without_entries. simpl. split; apply dict_has_del_same.
Qed.

(** ** Repetition states *)

(** When [fork] returns, the branch of [validState] had an entry in
    [results] and in [currentPositions] and [validState] was an alternative
    of [s]; the copy is a new object of the class and symbol of [s], below
    the parent of [s] and among the parent's alternatives, that carries
    exactly this branch; the branch and the alternative have left [s]. *)
Lemma fork_spec s validState h st par copy h' :
  h !! s = Some st ->
  st_parent st = Some par ->
  is_Some (h !! par) ->
  fork s validState h = Ret (copy, h') ->
  exists r c,
    dict_get (Some validState) (results st) = Some r
    /\ dict_get (Some validState) (currentPositions st) = Some c
    /\ removable validState st
    /\ copy = length h
    /\ h' !! copy = Some (forked_state st par validState r c)
    /\ (exists pst', h' !! par = Some pst' /\ In copy (members pst'))
    /\ (s <> par ->
        h' !! s = Some (without_entries validState (without_possibility validState st))).
Proof.
  intros Hs Hpar [pst0 Hp0] H. unfold fork in H. hget_in H Hs. rewrite Hpar in H.
  rewrite bind_alloc in H.
  set (new := new_state (st_class st) (st_symbol st) (Some par)) in *.
  assert (Hc1 : (h ++ [new]) !! length h = Some new) by apply lookup_snoc_length.
  assert (Hslt : s < length h) by exact (lookup_lt_Some _ _ _ Hs).
  assert (Hplt : par < length h) by exact (lookup_lt_Some _ _ _ Hp0).
  apply bind_Ret in H as (r & ? & Hr & H). apply lookup_or_Ret in Hr as [Hr ->].
  hmod_in H Hc1.
  pose proof (lookup_insert_same _ _ _ (set_results [(Some validState, r)] new) Hc1) as Hc2.
  apply bind_Ret in H as (c & ? & Hc & H). apply lookup_or_Ret in Hc as [Hc ->].
  hmod_in H Hc2. rewrite list_insert_insert_eq in H.
  change (set_currentPositions [(Some validState, c)]
            (set_results [(Some validState, r)] new))
    with (forked_state st par validState r c) in H.
  set (h3 := <[length h := forked_state st par validState r c]> (h ++ [new])) in *.
  assert (Hs3 : h3 !! s = Some st).
  { unfold h3. rewrite list_lookup_insert_ne by lia. apply lookup_app_l_Some. exact Hs. }
  assert (Hc3 : h3 !! length h = Some (forked_state st par validState r c)).
  { exact (lookup_insert_same _ _ _ _ Hc1). }
  apply bind_Ret in H as (? & h4 & Hrm & H).
  destruct (chain_removePossibility_Ret _ _ _ _ _ _ Hs3 Hrm) as (Hin & Hy & ->).
  set (h4 := <[s := without_entries validState (without_possibility validState st)]> h3)
    in *.
  assert (Hc4 : h4 !! length h = Some (forked_state st par validState r c)).
  { unfold h4. rewrite list_lookup_insert_ne by lia. exact Hc3. }
  assert (Hp4 : is_Some (h4 !! par)).
  { apply lookup_lt_is_Some. unfold h4, h3. rewrite !length_insert, length_app. simpl. lia. }
  destruct Hp4 as [pst Hp4].
  apply bind_Ret in H as (? & h5 & Hadd & H).
  assert (H5 : exists pst', h5 = <[par := pst']> h4 /\ In (length h) (members pst')).
  { unfold call_addPossibility in Hadd. hget_in Hadd Hp4.
    destruct (is_chain_type (st_class pst)).
    - destruct (chain_addPossibility_Ret _ _ _ _ _ _ Hp4 Hadd) as (r' & c' & _ & ->).
      eexists. split; [reflexivity|].
      apply (members_with_possibility (length h) pst (length h)). right. reflexivity.
    - rewrite (addPossibility_eq _ _ _ _ Hp4) in Hadd. injection Hadd as _ <-.
      eexists. split; [reflexivity|].
      apply (members_with_possibility (length h) pst (length h)). right. reflexivity. }
  destruct H5 as (pst' & -> & Hmem).
  pose proof (lookup_insert_same _ _ _ pst' Hp4) as Hp5.
  hget_in H Hp5. apply bind_Ret in H as (? & h6 & Hif & H). injection H as <- <-.
  assert (h6 = <[par := pst']> h4) as ->.
  { destruct (is_chain_type (st_class pst')).
    - apply bind_Ret in Hif as (? & ? & Ha & Hif). apply assert_Ret in Ha as [_ ->].
      apply assert_Ret in Hif as [_ ->]. reflexivity.
    - injection Hif as _ <-. reflexivity. }
  exists r, c. split; [exact Hr|]. split; [exact Hc|]. split; [split; assumption|].
  split; [reflexivity|]. split; [|split].
  - rewrite list_lookup_insert_ne by lia. exact Hc4.
  - exists pst'. auto.
  - intros Hne. rewrite list_lookup_insert_ne by auto.
    exact (lookup_insert_same _ _ _ _ Hs3).
Qed.

Lemma repeat_construction tab e sym par h x From To m u h1 st1 par1 :
  tab !! sym = Some (repeat x From To m) ->
  chain_init e (length h) [x] (h ++ [new_state KRepeat sym (Some par)]) = Ret (u, h1) ->
  h1 !! length h = Some st1 ->
  st_parent st1 = Some par1 ->
  getState tab e sym par h
  = if single_empty (results st1) && (From =? 0)%Z
    then (call_addPossibility par1 (length h1) ;;
          e_makeValid e (length h1) ;;
          ret (length h)) (h1 ++ [twin_state (st_symbol st1) par1])
    else Ret (length h, h1).
Proof.
  intros Hsym Hinit Hs1 Hpar. rewrite (getState_repeat _ _ _ _ _ _ _ _ _ Hsym).
  rewrite bind_alloc. destruct u. rewrite (bind_eq _ _ _ _ _ Hinit).
  unfold addEmptyResultToParentEventually. rewrite !bind_bind. hget Hs1.
  rewrite Hpar. unfold single_empty.
  destruct (results st1) as [|[k0 [|? ?]] [|? ?]]; try reflexivity.
  destruct (From =? 0)%Z; [|reflexivity]. simpl andb. cbn iota.
  rewrite !bind_bind, bind_alloc, !bind_bind. reflexivity.
Qed.

Lemma repeat_child_valid tab e s state h st par x From To m r :
  h !! s = Some st ->
  st_parent st = Some par ->
  tab !! st_symbol st = Some (repeat x From To m) ->
  dict_get (Some state) (results st) = Some r ->
  repeat_setValidPossibility tab e s state h
  = ((if (Z.of_nat (length r + 1) <? To)%Z || (To =? -1)%Z
      then createNextState tab e s state else ret tt) ;;
     n <- result_count s state ;;
     if (Z.of_nat n >=? From)%Z
     then (newState <- fork s state ;; e_makeValid e newState)
     else chain_removePossibility s state)
      (<[s := set_results (dict_set (Some state) (r ++ [state]) (results st)) st]> h).
Proof.
  intros Hs Hpar Hsym Hr. unfold repeat_setValidPossibility. hget Hs.
  rewrite (assert_parent_Some _ _ _ _ Hpar).
  unfold symbol_of. unfold bind at 1. rewrite Hsym.
  unfold append_result. rewrite !bind_bind. hget Hs. rewrite Hr. simpl lookup_or.
  rewrite !bind_bind, bind_ret. hmod Hs.
  pose proof (lookup_insert_same _ _ _
                (set_results (dict_set (Some state) (r ++ [state]) (results st)) st) Hs)
    as Hs1.
  unfold result_count at 1. rewrite !bind_bind. hget Hs1.
  simpl results. rewrite dict_get_set_same. simpl lookup_or. rewrite !bind_bind, !bind_ret.
  rewrite length_app. reflexivity.
Qed.


(** ** What the methods leave alone *)

Lemma undisturbed_refl s0 h : s0 < length h -> fresh s0 h -> undisturbed s0 h h.
Proof.
  intros Hl Hf. split; [exact Hl|]. split; [exact Hf|]. split; [reflexivity|].
  intros s st Hs. exists st. auto.
Qed.

Lemma undisturbed_trans s0 h h1 h2 :
  undisturbed s0 h h1 -> undisturbed s0 h1 h2 -> undisturbed s0 h h2.
Proof.
  intros (_ & _ & E1 & C1) (Hl & Hf & E2 & C2).
  split; [exact Hl|]. split; [exact Hf|]. split; [congruence|].
  intros s st Hs. destruct (C1 s st Hs) as (st1 & Hs1 & Hc1).
  destruct (C2 s st1 Hs1) as (st2 & Hs2 & Hc2). exists st2. split; [exact Hs2|congruence].
Qed.

Lemma steady_ret {A} s0 (a : A) (post : A -> Prop) : post a -> steady s0 (ret a) post.
Proof.
  intros Hp h a' h' Hl Hf H. injection H as <- <-.
  split; [apply undisturbed_refl; assumption|exact Hp].
Qed.

Lemma steady_bind {A B} s0 (c : M A) (k : A -> M B) (P : A -> Prop) (Q : B -> Prop) :
  steady s0 c P -> (forall a, P a -> steady s0 (k a) Q) -> steady s0 (bind c k) Q.
Proof.
  intros Hc Hk h b h' Hl Hf H. apply bind_Ret in H as (a & h1 & H1 & H2).
  destruct (Hc _ _ _ Hl Hf H1) as [U1 Pa].
  destruct (Hk a Pa _ _ _ (proj1 U1) (proj1 (proj2 U1)) H2) as [U2 Qb].
  split; [exact (undisturbed_trans _ _ _ _ U1 U2)|exact Qb].
Qed.

Lemma steady_weaken {A} s0 (c : M A) (P Q : A -> Prop) :
  steady s0 c P -> (forall a, P a -> Q a) -> steady s0 c Q.
Proof.
  intros Hc Hi h a h' Hl Hf H. destruct (Hc _ _ _ Hl Hf H) as [U Pa]. auto.
Qed.

Lemma steady_get s0 s : steady s0 (get s) (fun _ => True).
Proof.
  intros h a h' Hl Hf H. apply get_Ret in H as [-> _].
  split; [apply undisturbed_refl; assumption|exact I].
Qed.

Lemma steady_raise {A} s0 ex (post : A -> Prop) : steady s0 (raise ex) post.
Proof. intros h a h' _ _ H. discriminate. Qed.

Lemma steady_assert s0 b : steady s0 (assert_ b) (fun _ => True).
Proof.
  intros h a h' Hl Hf H. apply assert_Ret in H as [_ ->].
  split; [apply undisturbed_refl; assumption|exact I].
Qed.

Lemma steady_lookup_or {A} s0 ex (o : option A) : steady s0 (lookup_or ex o) (fun _ => True).
Proof.
  intros h a h' Hl Hf H. apply lookup_or_Ret in H as [_ ->].
  split; [apply undisturbed_refl; assumption|exact I].
Qed.

Lemma steady_symbol_of s0 tab st : steady s0 (symbol_of tab st) (fun _ => True).
Proof.
  intros h a h' Hl Hf H. unfold symbol_of in H.
  destruct (tab !! st_symbol st); [|discriminate]. injection H as _ <-.
  split; [apply undisturbed_refl; assumption|exact I].
Qed.

(** Replacing the state of [s] by one of the same class whose alternatives
    are of [extra] or were alternatives before. *)
Lemma undisturbed_update s0 h s st st' (extra : list sid) :
  s0 < length h -> fresh s0 h ->
  h !! s = Some st ->
  st_class st' = st_class st ->
  (s = s0 -> lastTokens st' = lastTokens st) ->
  (forall q, In q (members st') -> In q (members st) \/ In q extra) ->
  ~ In s0 extra ->
  undisturbed s0 h (<[s := st']> h).
Proof.
  intros Hl Hf Hs Hc Hlt Hm Hx. split; [|split; [|split]].
  - rewrite length_insert. exact Hl.
  - intros s1 st1 Hs1 Hin. destruct (decide (s = s1)) as [<-|Hne].
    + rewrite (lookup_insert_same _ _ _ _ Hs) in Hs1. injection Hs1 as <-.
      destruct (Hm _ Hin) as [Hq|Hq]; [exact (Hf s st Hs Hq)|contradiction].
    + rewrite list_lookup_insert_ne in Hs1 by exact Hne. exact (Hf s1 st1 Hs1 Hin).
  - unfold lastTokens_of. destruct (decide (s = s0)) as [E|Hne].
    + subst s0. rewrite (lookup_insert_same _ _ _ _ Hs), Hs. simpl. rewrite Hlt; reflexivity.
    + rewrite list_lookup_insert_ne by exact Hne. reflexivity.
  - intros s1 st1 Hs1. destruct (decide (s = s1)) as [<-|Hne].
    + exists st'. split; [exact (lookup_insert_same _ _ _ _ Hs)|]. congruence.
    + exists st1. rewrite list_lookup_insert_ne by exact Hne. auto.
Qed.

(** An assignment that touches neither the class, nor [lastTokens], and
    adds no alternative. *)
Lemma steady_modify s0 s f :
  (forall st, st_class (f st) = st_class st
              /\ lastTokens (f st) = lastTokens st
              /\ forall q, In q (members (f st)) -> In q (members st)) ->
  steady s0 (modify s f) (fun _ => True).
Proof.
  intros Hn h a h' Hl Hf H. apply modify_Ret in H as (st & Hs & ->).
  destruct (Hn st) as (Hc & Hlt & Hm). split; [|exact I].
  apply (undisturbed_update s0 h s st (f st) []); auto.
Qed.

(** An assignment to an object other than [s0]. *)
Lemma steady_modify_other s0 s f :
  s <> s0 ->
  (forall st, st_class (f st) = st_class st
              /\ forall q, In q (members (f st)) -> In q (members st)) ->
  steady s0 (modify s f) (fun _ => True).
Proof.
  intros Hne Hn h a h' Hl Hf H. apply modify_Ret in H as (st & Hs & ->).
  destruct (Hn st) as (Hc & Hm). split; [|exact I].
  apply (undisturbed_update s0 h s st (f st) []); auto. intros E. contradiction.
Qed.

Lemma steady_alloc s0 st :
  members st = [] -> steady s0 (alloc st) (fun p => p <> s0).
Proof.
  intros Hm h a h' Hl Hf H. unfold alloc in H. injection H as <- <-.
  split; [|lia]. split; [|split; [|split]].
  - rewrite length_app. simpl. lia.
  - intros s1 st1 Hs1 Hin. destruct (decide (s1 < length h)) as [Hlt|Hge].
    + rewrite lookup_app_l in Hs1 by exact Hlt. exact (Hf s1 st1 Hs1 Hin).
    + rewrite lookup_app_r in Hs1 by lia.
      destruct (s1 - length h) as [|k]; simpl in Hs1; [|discriminate].
      injection Hs1 as <-. rewrite Hm in Hin. destruct Hin.
  - unfold lastTokens_of. rewrite lookup_app_l by exact Hl. reflexivity.
  - intros s st0 Hs. exists st0. split; [apply lookup_app_l_Some; exact Hs|reflexivity].
Qed.

Lemma steady_addPossibility s0 s p :
  p <> s0 -> steady s0 (addPossibility s p) (fun _ => True).
Proof.
  intros Hp h a h' Hl Hf H. unfold addPossibility in H.
  apply modify_Ret in H as (st & Hs & ->). split; [|exact I].
  apply (undisturbed_update s0 h s st _ [p]); auto.
  - destruct (_yieldsPossibilities st); reflexivity.
  - intros _. destruct (_yieldsPossibilities st); reflexivity.
  - intros q. unfold members. destruct (_yieldsPossibilities st); simpl;
      rewrite !in_app_iff; simpl; tauto.
  - intros [E|[]]. congruence.
Qed.

Lemma steady_addPossibilityNow s0 s p :
  p <> s0 -> steady s0 (addPossibilityNow s p) (fun _ => True).
Proof.
  intros Hp h a h' Hl Hf H. unfold addPossibilityNow in H.
  apply modify_Ret in H as (st & Hs & ->). split; [|exact I].
  apply (undisturbed_update s0 h s st _ [p]); auto.
  - intros q. unfold members. simpl. rewrite !in_app_iff. simpl. tauto.
  - intros [E|[]]. congruence.
Qed.

(** Walks through the body of a method. *)
Ltac side :=
  let st := fresh "st" in
  intros st; repeat split; try reflexivity; unfold members; simpl;
  try (destruct (dict_has _ _); simpl); try reflexivity; auto.

Ltac walk :=
  repeat lazymatch goal with
  | |- steady _ (bind (modify _ (set_lastTokens _)) _) _ => fail
  | |- steady _ (bind (get _) _) _ =>
      eapply steady_bind; [apply steady_get|intros ? _; cbv beta]
  | |- steady _ (bind (assert_ _) _) _ =>
      eapply steady_bind; [apply steady_assert|intros ? _; cbv beta]
  | |- steady _ (bind (assert_parent _) _) _ =>
      eapply steady_bind; [apply steady_assert|intros ? _; cbv beta]
  | |- steady _ (bind (lookup_or _ _) _) _ =>
      eapply steady_bind; [apply steady_lookup_or|intros ? _; cbv beta]
  | |- steady _ (bind (symbol_of _ _) _) _ =>
      eapply steady_bind; [apply steady_symbol_of|intros ? _; cbv beta]
  | |- steady _ (bind (modify _ _) _) _ =>
      eapply steady_bind; [apply steady_modify; side|intros ? _; cbv beta]
  | |- steady _ (bind (ret _) _) _ =>
      eapply steady_bind; [apply (steady_ret _ _ (fun _ => True)); exact I
                          |intros ? _; cbv beta]
  | |- steady _ (bind (if ?b then _ else _) _) _ => destruct b
  | |- steady _ (bind (match ?x with _ => _ end) _) _ => destruct x
  | |- steady _ (bind (bind _ _) _) _ =>
      eapply steady_bind; [|intros ? ?; cbv beta]
  | |- steady _ (modify _ _) _ => apply steady_modify; side
  | |- steady _ (assert_ _) _ => apply steady_assert
  | |- steady _ (lookup_or _ _) _ => apply steady_lookup_or
  | |- steady _ (ret _) _ => apply steady_ret; cbv beta; auto
  | |- steady _ (raise _) _ => apply steady_raise
  | |- steady _ (if ?b then _ else _) _ => destruct b
  | |- steady _ (match ?x with _ => _ end) _ => destruct x
  end.

Lemma steady_removePossibility s0 s p : steady s0 (removePossibility s p) (fun _ => True).
Proof.
  unfold removePossibility. walk.
  intros q. rewrite !in_app_iff.
  intros [H|H]; [left; exact (In_remove_first _ _ _ H)|auto].
Qed.

Lemma steady_copyResAndCurPosFor s0 s p :
  steady s0 (copyResAndCurPosFor s p) (fun _ => True).
Proof. unfold copyResAndCurPosFor. walk. Qed.

Lemma steady_assert_tracked s0 s p : steady s0 (assert_tracked s p) (fun _ => True).
Proof. unfold assert_tracked. walk. Qed.

Lemma steady_chain_addPossibility s0 s p :
  p <> s0 -> steady s0 (chain_addPossibility s p) (fun _ => True).
Proof.
  intros Hp. unfold chain_addPossibility. walk.
  eapply steady_bind; [apply steady_addPossibility; exact Hp|intros ? _].
  eapply steady_bind; [apply steady_copyResAndCurPosFor|intros ? _].
  apply steady_assert_tracked.
Qed.

Lemma steady_chain_addPossibilityNow s0 s p :
  p <> s0 -> steady s0 (chain_addPossibilityNow s p) (fun _ => True).
Proof.
  intros Hp. unfold chain_addPossibilityNow. walk.
  eapply steady_bind; [apply steady_addPossibilityNow; exact Hp|intros ? _].
  eapply steady_bind; [apply steady_copyResAndCurPosFor|intros ? _].
  apply steady_assert_tracked.
Qed.

Lemma steady_chain_removePossibility s0 s p :
  steady s0 (chain_removePossibility s p) (fun _ => True).
Proof.
  unfold chain_removePossibility.
  eapply steady_bind; [apply steady_removePossibility|intros ? _]. walk.
Qed.

Lemma steady_call_addPossibility s0 s p :
  p <> s0 -> steady s0 (call_addPossibility s p) (fun _ => True).
Proof.
  intros Hp. unfold call_addPossibility. walk.
  - apply steady_chain_addPossibility. exact Hp.
  - apply steady_addPossibility. exact Hp.
Qed.

Lemma steady_call_removePossibility s0 s p :
  steady s0 (call_removePossibility s p) (fun _ => True).
Proof.
  unfold call_removePossibility. walk.
  - apply steady_chain_removePossibility.
  - apply steady_removePossibility.
Qed.

Lemma steady_append_result s0 s state : steady s0 (append_result s state) (fun _ => True).
Proof. unfold append_result. walk. Qed.

Lemma steady_result_count s0 s state : steady s0 (result_count s state) (fun _ => True).
Proof. unfold result_count. walk. Qed.

Lemma steady_fork s0 s validState : steady s0 (fork s validState) (fun p => p <> s0).
Proof.
  unfold fork. walk.
  eapply steady_bind; [apply steady_alloc; reflexivity|intros copy Hcopy; cbv beta].
  cbv beta in Hcopy. walk.
  eapply steady_bind; [apply steady_chain_removePossibility|intros ? _].
  eapply steady_bind; [apply steady_call_addPossibility; exact Hcopy|intros ? _].
  walk.
Qed.
Lemma undisturbed_token_states s0 h h' l :
  undisturbed s0 h h' -> token_states h l -> token_states h' l.
Proof.
  intros (_ & _ & _ & Hc) Hl. unfold token_states in *.
  eapply Forall_impl; [exact Hl|]. intros p (st & Hs & Hk).
  destruct (Hc p st Hs) as (st' & Hs' & Hk'). exists st'. split; [exact Hs'|congruence].
Qed.

Section Frame.

Variable tab : list symbol.
Variable gas : nat.
Variable e : engine.
Variable s0 : sid.
Hypothesis He : engine_steady s0 e.

Lemma steady_e_getState sym par : steady s0 (e_getState e sym par) (fun p => p <> s0).
Proof. apply (proj1 He). Qed.

Lemma steady_e_makeValid s : steady s0 (e_makeValid e s) (fun _ => True).
Proof. apply (proj1 (proj2 (proj2 (proj2 He)))). Qed.

Lemma steady_e_makeInvalid s : steady s0 (e_makeInvalid e s) (fun _ => True).
Proof. apply (proj2 (proj2 (proj2 (proj2 He)))). Qed.

Lemma steady_e_leafs s : steady s0 (e_leafs e s) (fun _ => True).
Proof. apply (proj1 (proj2 (proj2 He))). Qed.

Lemma steady_e_pushToken s tok : s <> s0 -> steady s0 (e_pushToken e s tok) (fun _ => True).
Proof. apply (proj1 (proj2 He)). Qed.

Lemma steady_createNextState s validState :
  steady s0 (createNextState tab e s validState) (fun _ => True).
Proof.
  unfold createNextState. walk.
  eapply steady_bind; [apply steady_e_getState|intros nextState Hn; cbv beta in *].
  walk.
  all: first [ apply steady_chain_addPossibility; exact Hn
             | apply steady_chain_addPossibilityNow; exact Hn
             | eapply steady_bind;
               [apply steady_chain_addPossibility; exact Hn|intros ? _; walk] ].
Qed.

Lemma steady_root_setValidPossibility s state :
  steady s0 (root_setValidPossibility s state) (fun _ => True).
Proof. unfold root_setValidPossibility. walk. apply steady_removePossibility. Qed.

Lemma steady_fork_makeValid s state :
  steady s0 (newState <- fork s state ;; e_makeValid e newState) (fun _ => True).
Proof.
  eapply steady_bind; [apply steady_fork|intros ? _]. apply steady_e_makeValid.
Qed.

Lemma steady_chain_setValidPossibility s state :
  steady s0 (chain_setValidPossibility tab e s state) (fun _ => True).
Proof.
  unfold chain_setValidPossibility. walk.
  eapply steady_bind; [apply steady_append_result|intros ? _]. walk.
  - apply steady_fork_makeValid.
  - eapply steady_bind; [apply steady_createNextState|intros ? _].
    apply steady_chain_removePossibility.
Qed.

Lemma steady_repeat_setValidPossibility s state :
  steady s0 (repeat_setValidPossibility tab e s state) (fun _ => True).
Proof.
  unfold repeat_setValidPossibility. walk.
  eapply steady_bind; [apply steady_append_result|intros ? _].
  eapply steady_bind; [apply steady_result_count|intros ? _].
  eapply steady_bind;
    [destruct (_ || _); [apply steady_createNextState|apply steady_ret; exact I]
    |intros ? _].
  eapply steady_bind; [apply steady_result_count|intros ? _].
  destruct (_ >=? _)%Z; [apply steady_fork_makeValid|apply steady_chain_removePossibility].
Qed.

Lemma steady_oneOf_setValidPossibility s state :
  steady s0 (oneOf_setValidPossibility e s state) (fun _ => True).
Proof.
  unfold oneOf_setValidPossibility.
  eapply steady_bind; [apply steady_append_result|intros ? _].
  eapply steady_bind; [apply steady_fork|intros ? _].
  eapply steady_bind; [apply steady_e_makeValid|intros ? _].
  apply steady_chain_removePossibility.
Qed.

Lemma steady_setValidPossibility s state :
  steady s0 (setValidPossibility tab e s state) (fun _ => True).
Proof.
  unfold setValidPossibility. walk.
  - apply steady_root_setValidPossibility.
  - apply steady_chain_setValidPossibility.
  - apply steady_repeat_setValidPossibility.
  - apply steady_oneOf_setValidPossibility.
Qed.

Lemma steady_makeValid s : steady s0 (makeValid tab e s) (fun _ => True).
Proof. unfold makeValid. walk. apply steady_setValidPossibility. Qed.

Lemma steady_setInvalidPossibility s state :
  steady s0 (setInvalidPossibility e s state) (fun _ => True).
Proof.
  unfold setInvalidPossibility.
  eapply steady_bind; [apply steady_call_removePossibility|intros ? _]. walk.
  apply steady_e_makeInvalid.
Qed.

Lemma steady_makeInvalid s : steady s0 (makeInvalid e s) (fun _ => True).
Proof. unfold makeInvalid. walk. apply steady_setInvalidPossibility. Qed.

(** The loop of [possibilities] calls its body on alternatives, which are
    objects other than [s0]. *)
Lemma steady_possibilities_from s (body : sid -> M (list sid)) :
  (forall p, p <> s0 -> steady s0 (body p) (fun _ => True)) ->
  forall n i acc, steady s0 (possibilities_from n s body i acc) (fun _ => True).
Proof.
  intros Hb. induction n as [|n IH]; intros i acc h a h' Hl Hf H; simpl in H;
    destruct (h !! s) as [st|] eqn:Hs; try discriminate;
    destruct (_possibilities st !! i) as [p|] eqn:Hp; try discriminate;
    try (injection H as <- <-; split; [apply undisturbed_refl; assumption|exact I]).
  destruct (mem p (_removedPossibilities st)); [exact (IH _ _ _ _ _ Hl Hf H)|].
  assert (Hne : p <> s0).
  { intros ->. apply (Hf s st Hs). unfold members. apply in_or_app. left.
    apply list_elem_of_In. eapply list_elem_of_lookup_2. exact Hp. }
  destruct (body p h) as [[l h1]| |] eqn:Hbody; try discriminate.
  destruct (Hb p Hne _ _ _ Hl Hf Hbody) as [U1 _].
  destruct (IH _ _ _ _ _ (proj1 U1) (proj1 (proj2 U1)) H) as [U2 _].
  split; [exact (undisturbed_trans _ _ _ _ U1 U2)|exact I].
Qed.

Lemma steady_possibilities_end s : steady s0 (possibilities_end e s) (fun _ => True).
Proof.
  unfold possibilities_end.
  eapply steady_bind; [apply steady_modify|intros ? _].
  { intros st. repeat split; try reflexivity. unfold members. simpl.
    intros q. rewrite !in_app_iff. tauto. }
  eapply steady_bind; [apply steady_modify|intros ? _].
  { intros st. repeat split; try reflexivity. unfold members. simpl.
    intros q. rewrite !in_app_iff. simpl. tauto. }
  eapply steady_bind; [apply steady_modify|intros ? _].
  { intros st. repeat split; try reflexivity. unfold members. simpl.
    intros q. rewrite !in_app_iff. intros [H|H]; [left; exact (settle_In _ _ _ H)|auto]. }
  walk. apply steady_makeInvalid.
Qed.

Lemma steady_possibilities s (body : sid -> M (list sid)) :
  (forall p, p <> s0 -> steady s0 (body p) (fun _ => True)) ->
  steady s0 (possibilities gas e s body) (fun _ => True).
Proof.
  intros Hb. unfold possibilities. walk.
  eapply steady_bind; [apply steady_possibilities_from; exact Hb|intros ? _].
  eapply steady_bind; [apply steady_possibilities_end|intros ? _]. walk.
Qed.

Lemma steady_leafs s : steady s0 (leafs gas e s) (fun _ => True).
Proof.
  unfold leafs. walk;
    apply steady_possibilities; intros p _; apply steady_e_leafs.
Qed.

Lemma steady_token_pushToken s tok : steady s0 (token_pushToken tab e s tok) (fun _ => True).
Proof.
  unfold token_pushToken. walk.
  - apply steady_makeValid.
  - apply steady_makeInvalid.
Qed.

Lemma steady_chain_pushToken s tok :
  steady s0 (chain_pushToken gas e s tok) (fun _ => True).
Proof.
  unfold chain_pushToken. walk.
  eapply steady_bind; [|intros ? _; walk].
  apply steady_possibilities. intros p Hp. walk.
  eapply steady_bind; [apply steady_e_pushToken; exact Hp|intros ? _]. walk.
Qed.

Lemma steady_root_pushToken s tok :
  s <> s0 -> steady s0 (root_pushToken gas e s tok) (fun _ => True).
Proof.
  intros Hne. unfold root_pushToken. walk.
  eapply steady_bind; [apply steady_modify_other; [exact Hne|side]|intros ? _].
  eapply steady_bind;
    [apply steady_possibilities; intros p _; apply steady_e_leafs|intros ? _].
  eapply steady_bind; [apply steady_modify_other; [exact Hne|side]|intros ? _].
  eapply steady_bind; [|intros ? _; walk].
  apply steady_possibilities. intros p Hp.
  eapply steady_bind; [apply steady_e_pushToken; exact Hp|intros ? _]. walk.
Qed.

Lemma steady_pushToken s tok :
  s <> s0 -> steady s0 (pushToken tab gas e s tok) (fun _ => True).
Proof.
  intros Hne. unfold pushToken. walk.
  - apply steady_root_pushToken. exact Hne.
  - apply steady_token_pushToken.
  - apply steady_chain_pushToken.
  - apply steady_chain_pushToken.
  - apply steady_chain_pushToken.
Qed.

Lemma steady_chain_init s symbols : steady s0 (chain_init e s symbols) (fun _ => True).
Proof.
  unfold chain_init. walk.
  eapply steady_bind; [apply steady_e_getState|intros p Hp; cbv beta in *].
  apply steady_chain_addPossibility. exact Hp.
Qed.

Lemma steady_addEmptyResultToParentEventually s From :
  steady s0 (addEmptyResultToParentEventually e s From) (fun _ => True).
Proof.
  unfold addEmptyResultToParentEventually. walk.
  eapply steady_bind; [apply steady_alloc; reflexivity|intros twin Ht; cbv beta in *].
  eapply steady_bind; [apply steady_call_addPossibility; exact Ht|intros ? _].
  apply steady_e_makeValid.
Qed.

Lemma steady_oneOf_init s symbols : steady s0 (oneOf_init e s symbols) (fun _ => True).
Proof.
  induction symbols as [|sym rest IH]; simpl; [apply steady_ret; exact I|].
  eapply steady_bind; [apply steady_e_getState|intros p Hp; cbv beta in *].
  eapply steady_bind; [apply steady_chain_addPossibility; exact Hp|intros ? _].
  exact IH.
Qed.

Lemma steady_getState sym par : steady s0 (getState tab e sym par) (fun p => p <> s0).
Proof.
  unfold getState.
  eapply steady_bind with (P := fun _ => True).
  { intros h a h' Hl Hf H. destruct (tab !! sym); [|discriminate]. injection H as _ <-.
    split; [apply undisturbed_refl; assumption|exact I]. }
  intros sy _. destruct sy as [re m|l m|x From To m|l m|name].
  - apply steady_alloc. reflexivity.
  - eapply steady_bind; [apply steady_alloc; reflexivity|intros s Hs; cbv beta in *].
    eapply steady_bind; [apply steady_chain_init|intros ? _].
    apply steady_ret. exact Hs.
  - eapply steady_bind; [apply steady_alloc; reflexivity|intros s Hs; cbv beta in *].
    eapply steady_bind; [apply steady_chain_init|intros ? _].
    eapply steady_bind; [apply steady_addEmptyResultToParentEventually|intros ? _].
    apply steady_ret. exact Hs.
  - eapply steady_bind; [apply steady_alloc; reflexivity|intros s Hs; cbv beta in *].
    eapply steady_bind; [apply steady_oneOf_init|intros ? _].
    apply steady_ret. exact Hs.
  - apply steady_raise.
Qed.

End Frame.

(** Whatever the depth of the stack, the methods leave an object alone that
    is nobody's alternative, unless a token is pushed to it. *)
Lemma engine_at_steady tab gas s0 depth : engine_steady s0 (engine_at tab gas depth).
Proof.
  induction depth as [|d IH].
  - split; [intros ? ?|split; [intros ? ? ?|split; [intros ?|split; intros ?]]];
      apply steady_raise.
  - simpl. split; [|split; [|split; [|split]]].
    + intros sym par. apply steady_getState. exact IH.
    + intros s tok Hne. apply steady_pushToken; assumption.
    + intros s. apply steady_leafs. exact IH.
    + intros s. apply steady_makeValid. exact IH.
    + intros s. apply steady_makeInvalid. exact IH.
Qed.

(** The leafs of a state are token states. *)
Lemma possibilities_from_token_states s0 s (body : sid -> M (list sid)) :
  (forall p, p <> s0 -> steady s0 (body p) (fun _ => True)) ->
  (forall p h l h', s0 < length h -> fresh s0 h -> body p h = Ret (l, h') ->
                    token_states h' l) ->
  forall n i acc h l h',
    s0 < length h -> fresh s0 h -> token_states h acc ->
    possibilities_from n s body i acc h = Ret (l, h') ->
    token_states h' l.
Proof.
  intros Hb Ht. induction n as [|n IH]; intros i acc h l h' Hl Hf Hacc H; simpl in H;
    destruct (h !! s) as [st|] eqn:Hs; try discriminate;
    destruct (_possibilities st !! i) as [p|] eqn:Hp; try discriminate;
    try (injection H as <- <-; exact Hacc).
  destruct (mem p (_removedPossibilities st)); [exact (IH _ _ _ _ _ Hl Hf Hacc H)|].
  assert (Hne : p <> s0).
  { intros ->. apply (Hf s st Hs). unfold members. apply in_or_app. left.
    apply list_elem_of_In. eapply list_elem_of_lookup_2. exact Hp. }
  destruct (body p h) as [[l1 h1]| |] eqn:Hbody; try discriminate.
  destruct (Hb p Hne _ _ _ Hl Hf Hbody) as [U1 _].
  apply (IH _ _ _ _ _ (proj1 U1) (proj1 (proj2 U1))) in H; [exact H|].
  apply Forall_app. split.
  - exact (undisturbed_token_states _ _ _ _ U1 Hacc).
  - exact (Ht _ _ _ _ Hl Hf Hbody).
Qed.

Lemma possibilities_token_states tab gas d s0 s :
  (forall p h l h', s0 < length h -> fresh s0 h ->
                    e_leafs (engine_at tab gas d) p h = Ret (l, h') -> token_states h' l) ->
  forall h l h',
    s0 < length h -> fresh s0 h ->
    possibilities gas (engine_at tab gas d) s (e_leafs (engine_at tab gas d)) h = Ret (l, h') ->
    token_states h' l.
Proof.
  intros IH h l h' Hl Hf H.
  pose proof (engine_at_steady tab gas s0 d) as He.
  unfold possibilities in H.
  apply bind_Ret in H as (u1 & h1 & H1 & H).
  assert (U1 : undisturbed s0 h h1).
  { refine (proj1 (steady_modify s0 s _ _ _ _ _ Hl Hf H1)). side. }
  apply bind_Ret in H as (l1 & h2 & H2 & H).
  assert (U2 : undisturbed s0 h1 h2).
  { refine (proj1 (steady_possibilities_from _ _ _ _ _ _ _ _ _ _ (proj1 U1)
                     (proj1 (proj2 U1)) H2)).
    intros p _. apply steady_e_leafs. exact He. }
  assert (T2 : token_states h2 l1).
  { refine (possibilities_from_token_states s0 s _ _ _ _ _ _ _ _ _
              (proj1 U1) (proj1 (proj2 U1)) _ H2).
    - intros p _. apply steady_e_leafs. exact He.
    - exact IH.
    - constructor. }
  apply bind_Ret in H as (u3 & h3 & H3 & H). injection H as <- <-.
  refine (undisturbed_token_states s0 h2 h3 l1 _ T2).
  exact (proj1 (steady_possibilities_end _ _ He s _ _ _ (proj1 U2) (proj1 (proj2 U2)) H3)).
Qed.

Lemma leafs_token_states tab gas s0 : forall depth s h l h',
  s0 < length h -> fresh s0 h ->
  e_leafs (engine_at tab gas depth) s h = Ret (l, h') -> token_states h' l.
Proof.
  induction depth as [|d IH]; intros s h l h' Hl Hf H; [discriminate|].
  simpl in H. unfold leafs in H. apply bind_Ret in H as (st & h1 & Hg & H).
  apply get_Ret in Hg as [-> Hs].
  destruct (st_class st) eqn:Hc;
    try exact (possibilities_token_states tab gas d s0 s IH _ _ _ Hl Hf H).
  injection H as <- <-. constructor; [|constructor]. exists st. auto.
Qed.

(** ** The root state *)

Lemma set_validPossibilities_twice v w st :
  set_validPossibilities v (set_validPossibilities w st) = set_validPossibilities v st.
Proof. reflexivity. Qed.

(** A state is nobody's alternative, decided. *)
Lemma freshb_fresh p h : freshb p h = true -> fresh p h.
Proof.
  unfold freshb. rewrite forallb_forall. intros H s st Hs Hin.
  assert (Hst : In st h).
  { apply list_elem_of_In. eapply list_elem_of_lookup_2. exact Hs. }
  specialize (H st Hst). apply negb_true_iff in H. apply mem_false in H.
  exact (H Hin).
Qed.

(** [pushToken] of a root state with a possibility: the leafs are collected
    and stored before the token is handed to the possibilities. *)
Lemma root_pushToken_steps tab gas e s tok h st :
  h !! s = Some st ->
  st_class st = KRoot ->
  _possibilities st <> [] ->
  pushToken tab gas e s tok h
  = (ls <- possibilities gas e s (e_leafs e) ;;
     modify s (set_lastTokens ls) ;;
     possibilities gas e s (fun p => e_pushToken e p tok ;; ret []) ;;
     ret tt) (cleared s st h).
Proof.
  intros Hs Hc Hp. unfold pushToken. rewrite (bind_get _ _ _ _ Hs), Hc.
  unfold root_pushToken. rewrite (bind_modify _ _ _ _ _ Hs).
  pose proof (lookup_insert_same _ _ _ (set_validPossibilities [] st) Hs) as Hs1.
  rewrite (bind_get _ _ _ _ Hs1). cbn beta.
  change (_possibilities (set_validPossibilities [] st)) with (_possibilities st).
  destruct (_possibilities st) as [|p l]; [congruence|]. cbn [length Nat.eqb].
  rewrite (bind_modify _ _ _ _ _ Hs1). rewrite list_insert_insert_eq. reflexivity.
Qed.

Lemma root_pushToken_exhausted tab gas e s tok h st :
  h !! s = Some st ->
  st_class st = KRoot ->
  _possibilities st = [] ->
  pushToken tab gas e s tok h = Raise (StatesExhausted s (Some (lastTokens st))).
Proof.
  intros Hs Hc Hp. unfold pushToken. rewrite (bind_get _ _ _ _ Hs), Hc.
  unfold root_pushToken. rewrite (bind_modify _ _ _ _ _ Hs).
  rewrite (bind_get _ _ _ _ (lookup_insert_same _ _ _ _ Hs)). simpl. rewrite Hp.
  reflexivity.
Qed.

(** The root state after a [pushToken] that returned: its [lastTokens] are
    the leafs that were collected before the token was handed on. *)
Lemma root_pushToken_Ret tab gas depth s tok h st u h' :
  h !! s = Some st ->
  st_class st = KRoot ->
  fresh s h ->
  pushToken tab gas (engine_at tab gas depth) s tok h = Ret (u, h') ->
  exists ls hm st',
    possibilities gas (engine_at tab gas depth) s (e_leafs (engine_at tab gas depth))
      (cleared s st h) = Ret (ls, hm)
    /\ token_states h' ls
    /\ h' !! s = Some st'
    /\ st_class st' = KRoot
    /\ fresh s h'
    /\ lastTokens st' = ls.
Proof.
  intros Hs Hc Hf H. set (e := engine_at tab gas depth) in *.
  pose proof (engine_at_steady tab gas s depth) as He. fold e in He.
  destruct (_possibilities st) as [|p0 l0] eqn:Hp.
  { rewrite (root_pushToken_exhausted _ _ _ _ _ _ _ Hs Hc Hp) in H. discriminate. }
  rewrite (root_pushToken_steps _ _ _ _ _ _ _ Hs Hc) in H by (rewrite Hp; discriminate).
  assert (Hl : s < length h) by exact (lookup_lt_Some _ _ _ Hs).
  assert (L0 : s < length (cleared s st h)).
  { unfold cleared. rewrite length_insert. exact Hl. }
  assert (F0 : fresh s (cleared s st h)).
  { unfold cleared. apply (fresh_update s h s st); auto. }
  assert (Hsc : cleared s st h !! s = Some (set_lastTokens [] (set_validPossibilities [] st)))
    by exact (lookup_insert_same _ _ _ _ Hs).
  apply bind_Ret in H as (ls & hm & H1 & H).
  assert (S1 : steady s (possibilities gas e s (e_leafs e)) (fun _ => True)).
  { apply steady_possibilities; [exact He|]. intros p _. apply steady_e_leafs. exact He. }
  destruct (S1 _ _ _ L0 F0 H1) as [U1 _].
  assert (T1 : token_states hm ls).
  { refine (possibilities_token_states tab gas depth s s _ _ _ _ L0 F0 H1).
    apply leafs_token_states. }
  destruct (proj2 (proj2 (proj2 U1)) s _ Hsc) as (stm & Hsm & Hcm).
  apply bind_Ret in H as (u2 & hm' & H2 & H).
  apply modify_Ret in H2 as (stm' & Hsm' & ->). rewrite Hsm in Hsm'. injection Hsm' as <-.
  apply bind_Ret in H as (u3 & h3 & H3 & H). injection H as _ <-.
  assert (S3 : steady s (possibilities gas e s (fun p => e_pushToken e p tok ;; ret []))
                 (fun _ => True)).
  { apply steady_possibilities; [exact He|]. intros p Hne.
    eapply steady_bind; [apply steady_e_pushToken; [exact He|exact Hne]|intros ? _].
    apply steady_ret. exact I. }
  assert (F2 : fresh s (<[s := set_lastTokens ls stm]> hm)).
  { apply (fresh_update s hm s stm); auto. exact (proj1 (proj2 U1)). }
  assert (L2 : s < length (<[s := set_lastTokens ls stm]> hm)).
  { rewrite length_insert. exact (proj1 U1). }
  destruct (S3 _ _ _ L2 F2 H3) as [U3 _].
  destruct (proj2 (proj2 (proj2 U3)) s _ (lookup_insert_same _ _ _ _ Hsm))
    as (st' & Hs' & Hc').
  exists ls, hm, st'. split; [exact H1|]. split; [|split; [exact Hs'|split; [|split]]].
  - apply (undisturbed_token_states s _ _ _ U3).
    unfold token_states in *. eapply Forall_impl; [exact T1|].
    intros p (stp & Hsp & Hcp). destruct (decide (s = p)) as [<-|Hne].
    + rewrite Hsm in Hsp. injection Hsp as <-. eexists.
      split; [exact (lookup_insert_same _ _ _ _ Hsm)|exact Hcp].
    + exists stp. rewrite list_lookup_insert_ne by exact Hne. auto.
  - rewrite Hc'. simpl. rewrite Hcm. exact Hc.
  - exact (proj1 (proj2 U3)).
  - pose proof (proj1 (proj2 (proj2 U3))) as E. unfold lastTokens_of in E.
    rewrite Hs', (lookup_insert_same _ _ _ _ Hsm) in E. simpl in E. congruence.
Qed.

(** C1: [pushToken] of the root state starts by clearing
    [validPossibilities] (what it does is the same from the heap with the
    list already cleared). With no possibility left it raises
    [StatesExhausted] with [lastTokens]. With a possibility it collects the
    leafs of the possibilities, stores them in [lastTokens] and hands the
    token to the possibilities; when it returns, [lastTokens] of the root
    holds the leafs collected at this push, which are token states, and if no
    possibility is left the next [pushToken] raises [StatesExhausted] with
    them. The leafs of a token state are the state itself. [result] raises
    [NotCompleted] without a valid possibility, [AmbigiousResults] with more
    than one, and evaluates the valid possibility when there is exactly
    one. The root state [s] is nobody's alternative. *)
Theorem root_state_protocol tab gas depth ord ctx rdepth h s st tok :
  h !! s = Some st ->
  st_class st = KRoot ->
  fresh s h ->
  pushToken tab gas (engine_at tab gas depth) s tok h
  = pushToken tab gas (engine_at tab gas depth) s tok (<[s := set_validPossibilities [] st]> h)
  /\ (_possibilities st = [] ->
      pushToken tab gas (engine_at tab gas depth) s tok h
      = Raise (StatesExhausted s (Some (lastTokens st))))
  /\ (_possibilities st <> [] ->
      pushToken tab gas (engine_at tab gas depth) s tok h
      = (ls <- possibilities gas (engine_at tab gas depth) s
                 (e_leafs (engine_at tab gas depth)) ;;
         modify s (set_lastTokens ls) ;;
         possibilities gas (engine_at tab gas depth) s
           (fun p => e_pushToken (engine_at tab gas depth) p tok ;; ret []) ;;
         ret tt) (cleared s st h))
  /\ (forall u h',
        pushToken tab gas (engine_at tab gas depth) s tok h = Ret (u, h') ->
        exists ls hm st',
          possibilities gas (engine_at tab gas depth) s (e_leafs (engine_at tab gas depth))
            (cleared s st h) = Ret (ls, hm)
          /\ token_states h' ls
          /\ h' !! s = Some st'
          /\ st_class st' = KRoot
          /\ fresh s h'
          /\ lastTokens st' = ls
          /\ (_possibilities st' = [] ->
              forall tok',
                pushToken tab gas (engine_at tab gas depth) s tok' h'
                = Raise (StatesExhausted s (Some ls))))
  /\ (forall p stp,
        h !! p = Some stp -> st_class stp = KToken ->
        leafs gas (engine_at tab gas depth) p h = Ret ([p], h))
  /\ (validPossibilities st = [] ->
      root_result tab ord h ctx rdepth s = Raise (NotCompleted s))
  /\ (1 < length (validPossibilities st) ->
      root_result tab ord h ctx rdepth s = Raise (AmbigiousResults s))
  /\ (forall p, validPossibilities st = [p] ->
      root_result tab ord h ctx rdepth s = result tab ord h ctx rdepth p).
Proof.
  intros Hs Hc Hf.
  assert (Hs' : <[s := set_validPossibilities [] st]> h !! s
                = Some (set_validPossibilities [] st))
    by exact (lookup_insert_same _ _ _ _ Hs).
  split; [|split; [|split; [|split; [|split; [|split; [|split]]]]]].
  - unfold pushToken. rewrite (bind_get _ _ _ _ Hs), (bind_get _ _ _ _ Hs').
    simpl. rewrite Hc. unfold root_pushToken.
    rewrite (bind_modify _ _ _ _ _ Hs), (bind_modify _ _ _ _ _ Hs').
    rewrite list_insert_insert_eq. reflexivity.
  - apply root_pushToken_exhausted; assumption.
  - apply root_pushToken_steps; assumption.
  - intros u h' H.
    destruct (root_pushToken_Ret _ _ _ _ _ _ _ _ _ Hs Hc Hf H)
      as (ls & hm & st' & H1 & Ht & Hs1 & Hc1 & Hf1 & Hl1).
    exists ls, hm, st'. repeat (split; [assumption|]).
    intros Hp tok'. rewrite <- Hl1. apply root_pushToken_exhausted; assumption.
  - intros p stp Hp Hk. unfold leafs. rewrite (bind_get _ _ _ _ Hp), Hk. reflexivity.
  - intros Hv. unfold root_result. rewrite Hs, Hv. reflexivity.
  - intros Hv. unfold root_result. rewrite Hs.
    destruct (validPossibilities st) as [|p [|q r]]; simpl in Hv; try lia. reflexivity.
  - intros p Hv. unfold root_result. rewrite Hs, Hv. reflexivity.
Qed.
(** ** The token stream *)

Lemma substring_length_le s : forall pos n,
  String.length (substring pos n s) <= String.length s - pos.
Proof.
  induction s as [|c s IH]; intros [|pos] [|n]; simpl; try lia.
  - specialize (IH 0 n). lia.
  - apply IH.
  - apply IH.
Qed.

Lemma substring_idem s : forall pos n,
  substring pos (String.length (substring pos n s)) s = substring pos n s.
Proof.
  induction s as [|c s IH]; intros [|pos] [|n]; simpl; try reflexivity.
  - f_equal. apply IH.
  - apply IH.
  - apply IH.
Qed.

Lemma substring_all s : forall n, String.length s <= n -> substring 0 n s = s.
Proof.
  induction s as [|c s IH]; intros [|n] Hn; simpl in *; try reflexivity; try lia.
  f_equal. apply IH. lia.
Qed.

Lemma substring_glue s : forall pos n,
  (substring 0 pos s ++ substring pos n s)%string
  = substring 0 (pos + String.length (substring pos n s)) s.
Proof.
  induction s as [|c s IH]; intros [|pos] [|n]; simpl; try reflexivity.
  - f_equal. symmetry. apply substring_idem.
  - f_equal. apply IH.
  - f_equal. apply IH.
Qed.

(** What a match of a lexer token is made of. *)
Lemma match_at_Some tab tok text pos m :
  match_at tab tok text pos = Ret (Some m) ->
  exists re mg r,
    tab !! tok = Some (token re mg)
    /\ re text pos = Some r
    /\ m_token m = tok
    /\ m_start m = pos
    /\ m_text m = substring pos (re_len r) text
    /\ m_end m = pos + String.length (m_text m)
    /\ 0 < String.length (m_text m).
Proof.
  unfold match_at. destruct (tab !! tok) as [[re mg| | | |]|]; try discriminate.
  unfold token_match. destruct (re text pos) as [r|] eqn:Er; [|discriminate].
  destruct (Nat.eqb_spec (String.length (substring pos (re_len r) text)) 0) as [E|E];
    [discriminate|].
  intros H. injection H as <-. exists re, mg, r. simpl. repeat split; auto. lia.
Qed.

(** The loops [for tok in ...] of [lex] try the tokens in the order of the
    list and stop at the first that matches. *)
Lemma first_match_split tab toks text pos tok m :
  first_match tab toks text pos = Ret (Matched tok m) ->
  exists before behind,
    toks = before ++ tok :: behind
    /\ none_matches tab before text pos
    /\ match_at tab tok text pos = Ret (Some m).
Proof.
  induction toks as [|t rest IH]; simpl; [discriminate|].
  destruct (match_at tab t text pos) as [[m'|]| |] eqn:Em; try discriminate.
  - intros H. injection H as <- <-. exists [], rest. repeat split; auto.
    apply Forall_nil_2.
  - intros H. destruct (IH H) as (before & behind & -> & Hn & Hm).
    exists (t :: before), behind. repeat split; auto.
    apply Forall_cons_2; [exact Em|exact Hn].
Qed.

Lemma first_match_NoMatch tab toks text pos :
  first_match tab toks text pos = Ret NoMatch -> none_matches tab toks text pos.
Proof.
  induction toks as [|t rest IH]; simpl; [intros _; apply Forall_nil_2|].
  destruct (match_at tab t text pos) as [[m'|]| |] eqn:Em; try discriminate.
  intros H. apply Forall_cons_2; [exact Em|exact (IH H)].
Qed.

(** A pass of the loop of [lex] that returns: the token that matched and
    what became of the variables. *)
Lemma lex_body_Ret g text v v' :
  lex_body g text v = Ret v' ->
  exists top tok m,
    last (lx_states v) = Some top
    /\ In tok (ls_omit top ++ ls_tokens top)
    /\ match_at (symtab g) tok text (lx_pos v) = Ret (Some m)
    /\ lx_states v' = switch_states g tok (lx_states v)
    /\ lx_pos v' = m_end m
    /\ (first_match (symtab g) (ls_omit top) text (lx_pos v) = Ret (Matched tok m)
        /\ lx_tokStream v' = lx_tokStream v
        \/ first_match (symtab g) (ls_omit top) text (lx_pos v) = Ret NoMatch
           /\ In tok (ls_tokens top) /\ lx_tokStream v' = lx_tokStream v ++ [m]).
Proof.
  unfold lex_body. destruct (last (lx_states v)) as [top|]; [|discriminate].
  intros H. exists top. apply res_bind_Ret in H as ([|tok m] & Ho & H).
  - apply res_bind_Ret in H as ([|tok m] & Ha & H); [discriminate|].
    injection H as <-. exists tok, m.
    destruct (first_match_split _ _ _ _ _ _ Ha) as (b1 & b2 & E & _ & Hm).
    assert (Hin : In tok (ls_tokens top)).
    { rewrite E. apply in_or_app. right. left. reflexivity. }
    simpl. repeat split; auto.
    apply in_or_app. right. exact Hin.
  - injection H as <-. exists tok, m.
    destruct (first_match_split _ _ _ _ _ _ Ho) as (b1 & b2 & E & _ & Hm).
    simpl. repeat split; auto.
    apply in_or_app. left. rewrite E. apply in_or_app. right. left. reflexivity.
Qed.

(** A property of the variables of [lex] that every pass of the loop keeps
    holds when the loop is left. *)
Lemma lex_loop_Ret_inv (P : lex_vars -> Prop) g text :
  (forall v v', P v -> lx_pos v < String.length text -> lex_body g text v = Ret v' -> P v') ->
  forall fuel v toks,
    P v -> lex_loop fuel g text v = Ret toks ->
    exists v', P v' /\ lx_tokStream v' = toks /\ String.length text <= lx_pos v'.
Proof.
  intros Hstep. induction fuel as [|n IH]; intros v toks Hv; simpl;
    destruct (Nat.ltb_spec (lx_pos v) (String.length text)) as [Hlt|Hge];
    try discriminate.
  - intros H. injection H as <-. exists v. auto.
  - intros H. apply res_bind_Ret in H as (v1 & Hb & H). eauto.
  - intros H. injection H as <-. exists v. auto.
Qed.

Lemma lex_loop_Raise_inv (P : lex_vars -> Prop) g text :
  (forall v v', P v -> lx_pos v < String.length text -> lex_body g text v = Ret v' -> P v') ->
  forall fuel v e,
    P v -> lex_loop fuel g text v = Raise e ->
    exists v', P v' /\ lx_pos v' < String.length text /\ lex_body g text v' = Raise e.
Proof.
  intros Hstep. induction fuel as [|n IH]; intros v e Hv; simpl;
    destruct (Nat.ltb_spec (lx_pos v) (String.length text)) as [Hlt|Hge];
    try discriminate.
  intros H. apply res_bind_Raise in H as [H|(v1 & Hb & H)]; eauto.
Qed.

Lemma in_order_snoc text m : forall l from,
  in_order text from l ->
  Forall (fun m' => m_end m' <= m_start m) l ->
  from <= m_start m ->
  m_start m < m_end m ->
  m_end m <= String.length text ->
  m_text m = substring (m_start m) (m_end m - m_start m) text ->
  in_order text from (l ++ [m]).
Proof.
  induction l as [|x l IH]; intros from Hl Hall Hfrom H1 H2 H3; simpl.
  - auto.
  - destruct Hl as (Ha & Hb & Hc & Hd & He). inversion Hall as [|? ? Hx Hr]; subst.
    repeat split; auto.
Qed.

(** X1: the matches [lex] returns lie in the text in the order of the
    list, without overlap: each is at least one character long, ends inside
    the text, carries as [text] the slice between its [start] and its [end],
    and starts at or behind the end of its predecessor. *)
Theorem lex_in_order g text toks :
  lex g text = Ret toks -> in_order text 0 toks.
Proof.
  intros H.
  pose (P := fun v : lex_vars =>
               in_order text 0 (lx_tokStream v)
               /\ Forall (fun m => m_end m <= lx_pos v) (lx_tokStream v)).
  destruct (lex_loop_Ret_inv P g text) with (fuel := String.length text)
    (v := lex_start g) (toks := toks) as (v' & [Hin _] & <- & _); auto.
  - intros v v' [Hin Hall] _ Hb.
    destruct (lex_body_Ret _ _ _ _ Hb) as (top & tok & m & _ & _ & Hm & _ & Hp & Hts).
    destruct (match_at_Some _ _ _ _ _ Hm) as (re & mg & r & _ & _ & _ & Hs & Ht & He & Hl).
    assert (Hle : lx_pos v <= lx_pos v') by lia.
    assert (Hall' : Forall (fun m0 => m_end m0 <= lx_pos v') (lx_tokStream v)).
    { eapply Forall_impl; [exact Hall|]. simpl. intros; lia. }
    unfold P. destruct Hts as [[_ ->]|(_ & _ & ->)]; [split; assumption|].
    pose proof (substring_length_le text (lx_pos v) (re_len r)) as Hlen.
    rewrite <- Ht in Hlen.
    split.
    + apply in_order_snoc; auto; try lia.
      * rewrite Hs. exact Hall.
      * rewrite He, Hs. replace (lx_pos v + String.length (m_text m) - lx_pos v)
          with (String.length (m_text m)) by lia.
        rewrite Ht. symmetry. apply substring_idem.
    + apply Forall_app. split; [exact Hall'|]. constructor; [lia|constructor].
  - split; simpl; constructor.
Qed.

Lemma In_switch_states g tok states :
  Forall (fun st => In st (modes g)) states ->
  Forall (fun st => In st (modes g)) (switch_states g tok states).
Proof.
  intros Hs. unfold switch_states, push_state, pop_state.
  assert (Hp : Forall (fun st => In st (modes g))
                 match last states with
                 | Some top => if bool_decide (ls_popOn top = Some tok)
                               then removelast states else states
                 | None => states
                 end).
  { destruct (last states); [|auto].
    destruct (bool_decide _); auto using Forall_removelast. }
  destruct (pushOn_table (lexerStates g) tok) as [st|] eqn:E; [|exact Hp].
  apply Forall_app. split; [exact Hp|]. constructor; [|constructor].
  right. exact (pushOn_table_In _ _ _ E).
Qed.

Lemma last_In {A} (l : list A) x : last l = Some x -> In x l.
Proof.
  intros H. apply last_Some in H as [l' ->]. apply in_or_app. right. left. reflexivity.
Qed.

Lemma first_match_Raise_kind tab toks text pos e :
  first_match tab toks text pos = Raise e ->
  e = ValueError zero_length_msg \/ e = AttributeError "match".
Proof.
  induction toks as [|t rest IH]; simpl; [discriminate|].
  unfold match_at. destruct (tab !! t) as [[re mg| | | |]|] eqn:Et; try discriminate;
    try (intros H; injection H as <-; right; reflexivity).
  destruct (token_match t re text pos) as [[m'|]| |] eqn:Em; try discriminate; auto.
  intros H. injection H as <-. apply token_match_Raise in Em. left. exact Em.
Qed.

(** X2: a [LexerError] carries the text that is lexed, a position inside
    it and one of the lexer states of the grammar, and at this position no
    token of this state matches, neither of [omit] nor of [tokens]. *)
Theorem lex_error_position g text t pos mode :
  lex g text = Raise (LexerError t pos mode) ->
  t = text
  /\ pos < String.length text
  /\ In mode (modes g)
  /\ none_matches (symtab g) (ls_omit mode ++ ls_tokens mode) text pos.
Proof.
  intros H.
  pose (P := fun v : lex_vars => Forall (fun st => In st (modes g)) (lx_states v)).
  destruct (lex_loop_Raise_inv P g text) with (fuel := String.length text)
    (v := lex_start g) (e := LexerError t pos mode) as (v' & Hv & Hlt & Hb); auto.
  - intros v v' Hv _ Hb.
    destruct (lex_body_Ret _ _ _ _ Hb) as (top & tok & m & _ & _ & _ & Hst & _).
    unfold P. rewrite Hst. apply In_switch_states. exact Hv.
  - constructor; [left; reflexivity|constructor].
  - unfold lex_body in Hb. destruct (last (lx_states v')) as [top|] eqn:El; [|discriminate].
    assert (Htop : In top (modes g)).
    { unfold P in Hv. rewrite Forall_forall in Hv. apply Hv, list_elem_of_In, last_In, El. }
    apply res_bind_Raise in Hb as [Hb|([|tok m] & Ho & Hb)].
    + apply first_match_Raise_kind in Hb as [Hb|Hb]; discriminate.
    + apply res_bind_Raise in Hb as [Hb|([|tok m] & Ha & Hb)].
      * apply first_match_Raise_kind in Hb as [Hb|Hb]; discriminate.
      * injection Hb as <- <- <-. repeat split; auto.
        apply Forall_app. split; apply first_match_NoMatch; assumption.
      * discriminate.
    + discriminate.
Qed.
(** X3: every match [lex] returns is the match of a token symbol that
    stands in [tokens] of one of the lexer states of the grammar; a token
    that stands only in [omit] lists is never returned. *)
Theorem lex_tokens_of_modes g text toks :
  lex g text = Ret toks ->
  Forall (fun m =>
            (exists mode, In mode (modes g) /\ In (m_token m) (ls_tokens mode))
            /\ exists re mg, symtab g !! m_token m = Some (token re mg)) toks.
Proof.
  intros H.
  pose (P := fun v : lex_vars =>
               Forall (fun st => In st (modes g)) (lx_states v)
               /\ Forall (fun m =>
                    (exists mode, In mode (modes g) /\ In (m_token m) (ls_tokens mode))
                    /\ exists re mg, symtab g !! m_token m = Some (token re mg))
                    (lx_tokStream v)).
  destruct (lex_loop_Ret_inv P g text) with (fuel := String.length text)
    (v := lex_start g) (toks := toks) as (v' & [_ Hall] & <- & _); auto.
  - intros v v' [Hst Hall] _ Hb.
    destruct (lex_body_Ret _ _ _ _ Hb) as (top & tok & m & El & _ & Hm & Hs & _ & Hts).
    unfold P. split; [rewrite Hs; apply In_switch_states; exact Hst|].
    destruct Hts as [[_ ->]|(_ & Hin & ->)]; [exact Hall|].
    apply Forall_app. split; [exact Hall|]. apply Forall_cons_2; [|apply Forall_nil_2].
    destruct (match_at_Some _ _ _ _ _ Hm) as (re & mg & r & Ht & _ & Hk & _).
    rewrite Hk. split; [|eauto]. exists top. split; [|exact Hin].
    rewrite Forall_forall in Hst. apply Hst, list_elem_of_In, last_In, El.
  - split; simpl; [|apply Forall_nil_2].
    apply Forall_cons_2; [left; reflexivity|apply Forall_nil_2].
Qed.

Lemma joined_snoc l m : joined (l ++ [m]) = (joined l ++ m_text m)%string.
Proof.
  unfold joined. induction l as [|x l IH]; simpl.
  - induction (m_text m) as [|c s IHs]; simpl; [reflexivity|]. f_equal. exact IHs.
  - rewrite IH. clear IH.
    generalize (fold_right (fun m0 s => (m_text m0 ++ s)%string) "" l).
    induction (m_text x) as [|c s IHs]; intros u; simpl; [reflexivity|].
    f_equal. apply IHs.
Qed.

(** X4: when no lexer state of the grammar omits a token, the texts of the
    matches [lex] returns, joined in order, are the text that was lexed. *)
Theorem lex_joined g text toks :
  Forall (fun mode => ls_omit mode = []) (modes g) ->
  lex g text = Ret toks ->
  joined toks = text.
Proof.
  intros Hom H.
  pose (P := fun v : lex_vars =>
               Forall (fun st => In st (modes g)) (lx_states v)
               /\ joined (lx_tokStream v) = substring 0 (lx_pos v) text).
  destruct (lex_loop_Ret_inv P g text) with (fuel := String.length text)
    (v := lex_start g) (toks := toks) as (v' & [_ Hj] & <- & Hge); auto.
  - intros v v' [Hst Hj] _ Hb.
    destruct (lex_body_Ret _ _ _ _ Hb) as (top & tok & m & El & _ & Hm & Hs & Hp & Hts).
    unfold P. split; [rewrite Hs; apply In_switch_states; exact Hst|].
    assert (Htop : ls_omit top = []).
    { rewrite Forall_forall in Hom, Hst. apply Hom, list_elem_of_In.
      apply Hst, list_elem_of_In, last_In, El. }
    destruct (match_at_Some _ _ _ _ _ Hm) as (re & mg & r & _ & _ & _ & _ & Ht & He & _).
    destruct Hts as [[Ho _]|(_ & _ & Hts)].
    { rewrite Htop in Ho. discriminate. }
    rewrite Hts, joined_snoc, Hj, Hp, He, Ht. apply substring_glue.
  - split; [|simpl; destruct text; reflexivity].
    apply Forall_cons_2; [left; reflexivity|apply Forall_nil_2].
  - rewrite Hj. apply substring_all. exact Hge.
Qed.

(** X5: the state a token pushes is the last of the grammar's lexer states
    that names the token in [pushOn]: a later state overwrites the entry of
    an earlier one, and a token no state names pushes nothing. *)
Theorem pushOn_table_last states tok :
  pushOn_table states tok
  = last (List.filter (fun st => bool_decide (tok ∈ ls_pushOn st)) states).
Proof.
  unfold pushOn_table.
  assert (G : forall acc,
             fold_left (fun acc st => if bool_decide (tok ∈ ls_pushOn st) then Some st else acc)
               states acc
             = match last (List.filter (fun st => bool_decide (tok ∈ ls_pushOn st)) states) with
               | Some st => Some st
               | None => acc
               end).
  { induction states as [|s r IH]; intros acc; simpl; [reflexivity|].
    rewrite IH. destruct (bool_decide (tok ∈ ls_pushOn s)); [|reflexivity].
    rewrite last_cons. destruct (last _); reflexivity. }
  rewrite G. destruct (last _); reflexivity.
Qed.

(** ** The errors of the parser states *)

Lemma raises_ret {A} (a : A) : raises_in (ret a).
Proof. intros h ex H. discriminate. Qed.

Lemma raises_bind {A B} (c : M A) (k : A -> M B) :
  raises_in c -> (forall a, raises_in (k a)) -> raises_in (bind c k).
Proof.
  intros Hc Hk h ex. unfold bind. destruct (c h) as [[a h1]|e1|] eqn:E; try discriminate.
  - apply Hk.
  - intros H. injection H as <-. exact (Hc _ _ E).
Qed.

Lemma raises_get s : raises_in (get s).
Proof. intros h ex. unfold get. destruct (h !! s); discriminate. Qed.

Lemma raises_modify s f : raises_in (modify s f).
Proof. intros h ex. unfold modify. destruct (h !! s); discriminate. Qed.

Lemma raises_alloc st : raises_in (alloc st).
Proof. intros h ex. discriminate. Qed.

Lemma raises_raise {A} ex : running_error ex -> raises_in (@raise A ex).
Proof. intros He h ex' H. injection H as <-. exact He. Qed.

Lemma raises_assert b : raises_in (assert_ b).
Proof. destruct b; [apply raises_ret|apply raises_raise; exact I]. Qed.

Lemma raises_lookup_or {A} ex (o : option A) :
  running_error ex -> raises_in (lookup_or ex o).
Proof. intros He. destruct o; [apply raises_ret|apply raises_raise; exact He]. Qed.

Lemma raises_symbol_of tab st : raises_in (symbol_of tab st).
Proof. intros h ex. unfold symbol_of. destruct (tab !! st_symbol st); discriminate. Qed.

Lemma raises_not_defined {A} name :
  raises_in (@raise A (RuntimeError (name ++ " not defined."))).
Proof. apply raises_raise. right. right. exists name. reflexivity. Qed.

Create HintDb raises.
#[local] Hint Resolve raises_ret raises_get raises_modify raises_alloc raises_assert
  raises_symbol_of raises_not_defined : raises.

(** Walks through the body of a method. *)
Ltac rwalk :=
  repeat (cbv beta zeta;
    lazymatch goal with
    | |- raises_in (bind _ _) => apply raises_bind; [|intros ?]
    | |- raises_in (ret _) => apply raises_ret
    | |- raises_in (get _) => apply raises_get
    | |- raises_in (modify _ _) => apply raises_modify
    | |- raises_in (alloc _) => apply raises_alloc
    | |- raises_in (raise (RuntimeError (_ ++ _))) => apply raises_not_defined
    | |- raises_in (raise _) => apply raises_raise; simpl; auto
    | |- raises_in (assert_ _) => apply raises_assert
    | |- raises_in (assert_parent _) => apply raises_assert
    | |- raises_in (lookup_or _ _) => apply raises_lookup_or; simpl; auto
    | |- raises_in (symbol_of _ _) => apply raises_symbol_of
    | |- raises_in (if ?b then _ else _) => destruct b
    | |- raises_in (match ?x with _ => _ end) => destruct x
    | |- raises_in _ => solve [eauto with raises]
    end).

Lemma raises_addPossibility s p : raises_in (addPossibility s p).
Proof. unfold addPossibility. rwalk. Qed.

Lemma raises_addPossibilityNow s p : raises_in (addPossibilityNow s p).
Proof. unfold addPossibilityNow. rwalk. Qed.

Lemma raises_removePossibility s p : raises_in (removePossibility s p).
Proof. unfold removePossibility. rwalk. Qed.

Lemma raises_copyResAndCurPosFor s p : raises_in (copyResAndCurPosFor s p).
Proof. unfold copyResAndCurPosFor. rwalk. Qed.

Lemma raises_assert_tracked s p : raises_in (assert_tracked s p).
Proof. unfold assert_tracked. rwalk. Qed.

#[local] Hint Resolve raises_addPossibility raises_addPossibilityNow
  raises_removePossibility raises_copyResAndCurPosFor raises_assert_tracked : raises.

Lemma raises_chain_addPossibility s p : raises_in (chain_addPossibility s p).
Proof. unfold chain_addPossibility. rwalk. Qed.

Lemma raises_chain_addPossibilityNow s p : raises_in (chain_addPossibilityNow s p).
Proof. unfold chain_addPossibilityNow. rwalk. Qed.

Lemma raises_chain_removePossibility s p : raises_in (chain_removePossibility s p).
Proof. unfold chain_removePossibility. rwalk. Qed.

#[local] Hint Resolve raises_chain_addPossibility raises_chain_addPossibilityNow
  raises_chain_removePossibility : raises.

Lemma raises_call_addPossibility s p : raises_in (call_addPossibility s p).
Proof. unfold call_addPossibility. rwalk. Qed.

Lemma raises_call_removePossibility s p : raises_in (call_removePossibility s p).
Proof. unfold call_removePossibility. rwalk. Qed.

Lemma raises_append_result s state : raises_in (append_result s state).
Proof. unfold append_result. rwalk. Qed.

Lemma raises_result_count s state : raises_in (result_count s state).
Proof. unfold result_count. rwalk. Qed.

#[local] Hint Resolve raises_call_addPossibility raises_call_removePossibility
  raises_append_result raises_result_count : raises.

Lemma raises_fork s validState : raises_in (fork s validState).
Proof. unfold fork. rwalk. Qed.

#[local] Hint Resolve raises_fork : raises.

Lemma raises_possibilities_from n s body :
  (forall p, raises_in (body p)) ->
  forall i acc, raises_in (possibilities_from n s body i acc).
Proof.
  intros Hb. induction n as [|n IH]; intros i acc h ex; simpl;
    destruct (h !! s) as [st|]; try discriminate;
    destruct (_possibilities st !! i) as [p|]; try discriminate.
  destruct (mem p (_removedPossibilities st)); [apply IH|].
  destruct (body p h) as [[l h']|e1|] eqn:E; try discriminate.
  - apply IH.
  - intros H. injection H as <-. exact (Hb _ _ _ E).
Qed.

Section Errors.

Variable tab : list symbol.
Variable gas : nat.
Variable e : engine.
Hypothesis He : engine_raises e.

Lemma raises_e_getState sym par : raises_in (e_getState e sym par).
Proof. apply (proj1 He). Qed.

Lemma raises_e_pushToken s tok : raises_in (e_pushToken e s tok).
Proof. apply (proj1 (proj2 He)). Qed.

Lemma raises_e_leafs s : raises_in (e_leafs e s).
Proof. apply (proj1 (proj2 (proj2 He))). Qed.

Lemma raises_e_makeValid s : raises_in (e_makeValid e s).
Proof. apply (proj1 (proj2 (proj2 (proj2 He)))). Qed.

Lemma raises_e_makeInvalid s : raises_in (e_makeInvalid e s).
Proof. apply (proj2 (proj2 (proj2 (proj2 He)))). Qed.

Hint Resolve raises_e_getState raises_e_pushToken raises_e_leafs raises_e_makeValid
  raises_e_makeInvalid : raises.

Lemma raises_createNextState s validState : raises_in (createNextState tab e s validState).
Proof. unfold createNextState. rwalk. Qed.

Hint Resolve raises_createNextState : raises.

Lemma raises_root_setValidPossibility s state :
  raises_in (root_setValidPossibility s state).
Proof. unfold root_setValidPossibility. rwalk. Qed.

Lemma raises_chain_setValidPossibility s state :
  raises_in (chain_setValidPossibility tab e s state).
Proof. unfold chain_setValidPossibility. rwalk. Qed.

Lemma raises_repeat_setValidPossibility s state :
  raises_in (repeat_setValidPossibility tab e s state).
Proof. unfold repeat_setValidPossibility. rwalk. Qed.

Lemma raises_oneOf_setValidPossibility s state :
  raises_in (oneOf_setValidPossibility e s state).
Proof. unfold oneOf_setValidPossibility. rwalk. Qed.

Hint Resolve raises_root_setValidPossibility raises_chain_setValidPossibility
  raises_repeat_setValidPossibility raises_oneOf_setValidPossibility : raises.

Lemma raises_setValidPossibility s state : raises_in (setValidPossibility tab e s state).
Proof. unfold setValidPossibility. rwalk. Qed.

Hint Resolve raises_setValidPossibility : raises.

Lemma raises_makeValid s : raises_in (makeValid tab e s).
Proof. unfold makeValid. rwalk. Qed.

Lemma raises_setInvalidPossibility s state : raises_in (setInvalidPossibility e s state).
Proof. unfold setInvalidPossibility. rwalk. Qed.

Hint Resolve raises_makeValid raises_setInvalidPossibility : raises.

Lemma raises_makeInvalid s : raises_in (makeInvalid e s).
Proof. unfold makeInvalid. rwalk. Qed.

Hint Resolve raises_makeInvalid : raises.

Lemma raises_possibilities_end s : raises_in (possibilities_end e s).
Proof. unfold possibilities_end. rwalk. Qed.

Hint Resolve raises_possibilities_end : raises.

Lemma raises_possibilities s body :
  (forall p, raises_in (body p)) -> raises_in (possibilities gas e s body).
Proof.
  intros Hb. unfold possibilities. rwalk. apply raises_possibilities_from. exact Hb.
Qed.

Lemma raises_leafs s : raises_in (leafs gas e s).
Proof.
  unfold leafs. apply raises_bind; [apply raises_get|intros st].
  destruct (st_class st); try apply raises_ret;
    apply raises_possibilities; apply raises_e_leafs.
Qed.

Lemma raises_token_pushToken s tok : raises_in (token_pushToken tab e s tok).
Proof. unfold token_pushToken. rwalk. Qed.

Lemma raises_chain_pushToken s tok : raises_in (chain_pushToken gas e s tok).
Proof.
  unfold chain_pushToken.
  apply raises_bind; [apply raises_get|intros st].
  apply raises_bind; [apply raises_assert|intros ?].
  apply raises_bind; [apply raises_assert|intros ?].
  apply raises_bind; [|intros ?; apply raises_modify].
  apply raises_possibilities. intros p. rwalk.
Qed.

Lemma raises_root_pushToken s tok : raises_in (root_pushToken gas e s tok).
Proof.
  unfold root_pushToken.
  apply raises_bind; [apply raises_modify|intros ?].
  apply raises_bind; [apply raises_get|intros st].
  destruct (length (_possibilities st) =? 0); [apply raises_raise; exact I|].
  apply raises_bind; [apply raises_modify|intros ?].
  apply raises_bind; [apply raises_possibilities; apply raises_e_leafs|intros ls].
  apply raises_bind; [apply raises_modify|intros ?].
  apply raises_bind; [|intros ?; apply raises_ret].
  apply raises_possibilities. intros p. rwalk.
Qed.

Hint Resolve raises_token_pushToken raises_chain_pushToken raises_root_pushToken : raises.

Lemma raises_pushToken s tok : raises_in (pushToken tab gas e s tok).
Proof. unfold pushToken. rwalk. Qed.

Lemma raises_chain_init s symbols : raises_in (chain_init e s symbols).
Proof. unfold chain_init. rwalk. Qed.

Lemma raises_addEmptyResultToParentEventually s From :
  raises_in (addEmptyResultToParentEventually e s From).
Proof. unfold addEmptyResultToParentEventually. rwalk. Qed.

Lemma raises_oneOf_init s symbols : raises_in (oneOf_init e s symbols).
Proof. induction symbols as [|sym rest IH]; simpl; rwalk. Qed.

Hint Resolve raises_chain_init raises_addEmptyResultToParentEventually
  raises_oneOf_init : raises.

Lemma raises_getState sym par : raises_in (getState tab e sym par).
Proof.
  unfold getState. apply raises_bind.
  - intros h ex. destruct (tab !! sym); discriminate.
  - intros sy. rwalk.
Qed.

End Errors.

Lemma engine_at_raises tab gas depth : engine_raises (engine_at tab gas depth).
Proof.
  induction depth as [|d IH]; simpl.
  - repeat split; intros; apply raises_raise; left; reflexivity.
  - split; [|split; [|split; [|split]]]; intros.
    + apply raises_getState. exact IH.
    + apply raises_pushToken. exact IH.
    + apply raises_leafs. exact IH.
    + apply raises_makeValid. exact IH.
    + apply raises_makeInvalid. exact IH.
Qed.

Lemma raises_parserRootState_init tab gas depth start :
  raises_in (parserRootState_init (engine_at tab gas depth) start).
Proof.
  pose proof (engine_at_raises tab gas depth) as He.
  unfold parserRootState_init. rwalk. apply (proj1 He).
Qed.

Lemma raises_push_tokens tab gas depth state tokens :
  raises_in (push_tokens (engine_at tab gas depth) state tokens).
Proof.
  pose proof (engine_at_raises tab gas depth) as He.
  induction tokens as [|t rest IH]; simpl; [apply raises_ret|].
  apply raises_bind; [apply (proj1 (proj2 He))|intros ?; exact IH].
Qed.

Lemma reraise_escaping state ex : running_error ex -> escaping_error (reraise state ex).
Proof.
  intros He. destruct ex; simpl; try (right; split; [exact He|intros ? ?; discriminate]).
  destruct (String.prefix "maxim" msg) eqn:Ep.
  - left. eexists. reflexivity.
  - right. split; [exact He|]. intros msg' E. injection E as <-. exact Ep.
Qed.

(** ** Errors of [parse] *)

Lemma lex_Raise g text e : lex g text = Raise e -> lex_error text e.
Proof. apply lex_loop_Raise. Qed.

Lemma lexer_of_tokens_defined g : lexer_of_tokens g -> lexer_defined g.
Proof.
  intros [H1 H2]. split.
  - eapply Forall_impl; [exact H1|]. intros tok (re & m & ->). eauto.
  - eapply Forall_impl; [exact H2|]. intros ls H.
    eapply Forall_impl; [exact H|]. intros tok (re & m & ->). eauto.
Qed.

Lemma first_match_Raise_tokens tab toks text pos ex :
  Forall (fun tok => exists re m, tab !! tok = Some (token re m)) toks ->
  first_match tab toks text pos = Raise ex -> ex = ValueError zero_length_msg.
Proof.
  induction 1 as [|t rest (re & m & Ht) _ IH]; simpl; [discriminate|].
  unfold match_at. rewrite Ht.
  destruct (token_match t re text pos) as [[m'|]| |] eqn:Em; try discriminate; auto.
  intros H. injection H as <-. exact (token_match_Raise _ _ _ _ _ Em).
Qed.

(** A start state without [popOn] stays at the bottom of the stack. *)
Lemma switch_states_bottom g tok rest :
  ls_popOn (lexerStartState g) = None ->
  exists rest', switch_states g tok (lexerStartState g :: rest) = lexerStartState g :: rest'.
Proof.
  intros Hp. unfold switch_states, push_state.
  assert (exists r1, pop_state tok (lexerStartState g :: rest) = lexerStartState g :: r1)
    as [r1 ->].
  { unfold pop_state. destruct (last (lexerStartState g :: rest)) as [top|] eqn:El; [|eauto].
    destruct (bool_decide (ls_popOn top = Some tok)) eqn:Eb; [|eauto].
    destruct rest as [|r rest'].
    - simpl in El. injection El as <-. apply bool_decide_eq_true in Eb. congruence.
    - exists (removelast (r :: rest')). reflexivity. }
  destruct (pushOn_table (lexerStates g) tok) as [l|]; eauto.
Qed.

Lemma lex_Raise_lexing g text ex :
  lexer_of_tokens g -> ls_popOn (lexerStartState g) = None ->
  lex g text = Raise ex -> lexing_error text ex.
Proof.
  intros [Hs Hl] Hp H.
  pose (P := fun v : lex_vars =>
               Forall (fun st => In st (modes g)) (lx_states v)
               /\ exists rest, lx_states v = lexerStartState g :: rest).
  destruct (lex_loop_Raise_inv P g text) with (fuel := String.length text)
    (v := lex_start g) (e := ex) as (v' & [Hv [rest Hb0]] & Hlt & Hb); auto.
  - intros v v' [Hv [rest Hr]] _ Hb.
    destruct (lex_body_Ret _ _ _ _ Hb) as (top & tok & m & _ & _ & _ & Hst & _).
    unfold P. rewrite Hst. split; [apply In_switch_states; exact Hv|].
    rewrite Hr. apply switch_states_bottom. exact Hp.
  - split; [constructor; [left; reflexivity|constructor]|exists []; reflexivity].
  - unfold lex_body in Hb. destruct (last (lx_states v')) as [top|] eqn:El.
    + assert (Hin : In top (modes g)).
      { rewrite Forall_forall in Hv. apply Hv. apply list_elem_of_In, last_In. exact El. }
      assert (Ht : mode_of_tokens (symtab g) top).
      { destruct Hin as [<-|Hin]; [exact Hs|].
        rewrite Forall_forall in Hl. apply Hl, list_elem_of_In, Hin. }
      apply Forall_app in Ht as [Ho Ha].
      apply res_bind_Raise in Hb as [Hb|([|tok m] & _ & Hb)].
      * right. exact (first_match_Raise_tokens _ _ _ _ _ Ho Hb).
      * apply res_bind_Raise in Hb as [Hb|([|tok' m'] & _ & Hb)].
        -- right. exact (first_match_Raise_tokens _ _ _ _ _ Ha Hb).
        -- injection Hb as <-. left. eauto.
        -- discriminate.
      * discriminate.
    + apply last_None in El. rewrite Hb0 in El. discriminate.
Qed.

Lemma results_of_Raise rec l ex :
  results_of rec l = Raise ex -> exists i, rec i = Raise ex.
Proof.
  induction l as [|i r IH]; simpl; [discriminate|].
  intros H. apply res_bind_Raise in H as [H|(v & _ & H)]; [eauto|].
  apply res_bind_Raise in H as [H|(vs & _ & H)]; [auto|discriminate].
Qed.

Lemma apply_merger_Raise tab ctx sy v ex :
  In sy tab -> apply_merger (merger_of sy) v ctx = Raise ex -> evaluation_error tab ctx ex.
Proof.
  intros Hin H. unfold apply_merger in H.
  destruct (merger_of sy) as [f|] eqn:Em; [|discriminate].
  do 6 right. exists sy, f, v. auto.
Qed.

Ltac ev :=
  unfold evaluation_error;
  first [ left; eexists; reflexivity
        | right; left; eexists; reflexivity
        | right; right; left; reflexivity
        | do 3 right; left; reflexivity
        | do 4 right; left; reflexivity
        | do 5 right; left; reflexivity ].

Ltac raised := let H := fresh in intros H; injection H as <-; ev.

Lemma result_Raise tab ord h ctx depth : forall s ex,
  result tab ord h ctx depth s = Raise ex -> evaluation_error tab ctx ex.
Proof.
  induction depth as [|d IH]; intros s ex; simpl; [raised|].
  destruct (h !! s) as [st|]; [|discriminate].
  destruct (tab !! st_symbol st) as [sy|] eqn:Et; [|discriminate].
  assert (Hin : In sy tab).
  { apply list_elem_of_In. eapply list_elem_of_lookup_2. exact Et. }
  assert (Hm : forall v, apply_merger (merger_of sy) v ctx = Raise ex ->
                         evaluation_error tab ctx ex).
  { intros v. apply apply_merger_Raise. exact Hin. }
  assert (Hl : forall l, results_of (result tab ord h ctx d) l = Raise ex ->
                         evaluation_error tab ctx ex).
  { intros l Hr. apply results_of_Raise in Hr as [i Hi]. eapply IH; eauto. }
  clear Et Hin.
  destruct (st_class st), sy; cbn [merger_of] in Hm; try raised;
    unfold token_result, chain_result, repeat_result, oneOf_result;
    repeat match goal with
      | |- Raise _ = Raise _ -> _ => raised
      | |- Ret _ = Raise _ -> _ => discriminate
      | |- results_of _ _ = Raise _ -> _ => apply Hl
      | |- apply_merger _ _ _ = Raise _ -> _ => apply Hm
      | |- result _ _ _ _ _ _ = Raise _ -> _ => apply IH
      | |- res_bind _ _ = Raise _ -> _ =>
          let H := fresh in
          intro H; apply res_bind_Raise in H as [H|(? & _ & H)]; revert H
      | |- context [match ?x with _ => _ end] => destruct x
      end.
Qed.

Lemma root_result_Raise tab ord h ctx depth s ex :
  root_result tab ord h ctx depth s = Raise ex -> evaluation_error tab ctx ex.
Proof.
  unfold root_result. destruct (h !! s) as [st|]; [|discriminate].
  destruct (validPossibilities st) as [|p [|q r]]; try raised. apply result_Raise.
Qed.


(** ** Evaluation and the order of the dicts *)

Lemma results_of_ext (rec1 rec2 : sid -> res value) l :
  (forall i, rec1 i = rec2 i) -> results_of rec1 l = results_of rec2 l.
Proof.
  intros E. induction l as [|i r IH]; simpl; [reflexivity|].
  rewrite E, IH. reflexivity.
Qed.

Lemma forallb_Permutation {A} (f : A -> bool) l1 l2 :
  Permutation l1 l2 -> forallb f l1 = forallb f l2.
Proof.
  induction 1 as [|x l l' _ IH|x y l|l l' l'' _ IH1 _ IH2]; simpl.
  - reflexivity.
  - rewrite IH. reflexivity.
  - destruct (f x), (f y); reflexivity.
  - congruence.
Qed.

(** Two iterations of the same dict yield the same values, in some order. *)
Lemma viewvalues_Permutation ord1 ord2 (d : pydict (list sid)) :
  Permutation (viewvalues ord1 d) (viewvalues ord2 d).
Proof.
  etransitivity; [apply viewvalues_perm|]. symmetry. apply viewvalues_perm.
Qed.

(** A choice that needs exactly one element does not see the order. *)
Lemma match_single_Permutation {A B} (l1 l2 : list A) (a c : B) (f : A -> B) :
  Permutation l1 l2 ->
  match l1 with [] => a | [r] => f r | _ => c end
  = match l2 with [] => a | [r] => f r | _ => c end.
Proof.
  intros Hp. pose proof (Permutation_length Hp) as Hl.
  destruct l1 as [|x [|y l1]].
  - apply Permutation_nil in Hp. subst. reflexivity.
  - apply Permutation_length_1_inv in Hp. subst. reflexivity.
  - destruct l2 as [|x' [|y' l2]]; simpl in Hl; try discriminate. reflexivity.
Qed.

Lemma chain_result_order_free ord1 ord2 ctx rec1 rec2 s st symbols m :
  (forall i, rec1 i = rec2 i) ->
  chain_result ord1 ctx rec1 s st symbols m = chain_result ord2 ctx rec2 s st symbols m.
Proof.
  intros E. unfold chain_result. destruct (st_parent st); [|reflexivity].
  rewrite (match_single_Permutation
             (List.filter (fun r => length r =? length symbols) (viewvalues ord1 (results st)))
             (List.filter (fun r => length r =? length symbols) (viewvalues ord2 (results st)))
             (Raise (NotCompleted s)) (Raise (AmbigiousResults s))
             (fun r => res_bind (results_of rec1 r) (fun l => apply_merger m (VList l) ctx))).
  - destruct (List.filter _ (viewvalues ord2 (results st))) as [|r [|? ?]]; try reflexivity.
    rewrite (results_of_ext rec1 rec2 r E). reflexivity.
  - apply filter_Permutation_bool, viewvalues_Permutation.
Qed.

Lemma oneOf_result_order_free ord1 ord2 ctx rec1 rec2 s st m :
  (forall i, rec1 i = rec2 i) ->
  oneOf_result ord1 ctx rec1 s st m = oneOf_result ord2 ctx rec2 s st m.
Proof.
  intros E. unfold oneOf_result.
  rewrite (forallb_Permutation _ _ _ (viewvalues_Permutation ord1 ord2 (results st))).
  destruct (forallb _ (viewvalues ord2 (results st))); [|reflexivity].
  rewrite (match_single_Permutation
             (List.filter (fun r => length r =? 1) (viewvalues ord1 (results st)))
             (List.filter (fun r => length r =? 1) (viewvalues ord2 (results st)))
             (Raise (NotCompleted s)) (Raise (AmbigiousResults s))
             (fun r => match r with
                       | i :: _ => res_bind (rec1 i) (fun l => apply_merger m l ctx)
                       | [] => Raise IndexError
                       end)).
  - destruct (List.filter _ (viewvalues ord2 (results st))) as [|r [|? ?]]; try reflexivity.
    destruct r as [|i r]; [reflexivity|]. rewrite E. reflexivity.
  - apply filter_Permutation_bool, viewvalues_Permutation.
Qed.

Lemma repeat_free_lookup tab i x From To m :
  repeat_free tab -> tab !! i = Some (repeat x From To m) -> False.
Proof.
  unfold repeat_free. intros Hf Hi. rewrite forallb_forall in Hf.
  specialize (Hf (repeat x From To m)). simpl in Hf.
  assert (Hin : In (repeat x From To m) tab).
  { apply list_elem_of_In. eapply list_elem_of_lookup_2. exact Hi. }
  specialize (Hf Hin). discriminate.
Qed.

Lemma result_order_free tab ord1 ord2 h ctx :
  repeat_free tab ->
  forall depth s, result tab ord1 h ctx depth s = result tab ord2 h ctx depth s.
Proof.
  intros Hf. induction depth as [|d IH]; intros s; simpl; [reflexivity|].
  destruct (h !! s) as [st|]; [|reflexivity].
  destruct (tab !! st_symbol st) as [sy|] eqn:Esy; [|reflexivity].
  destruct (st_class st), sy; try reflexivity.
  - apply chain_result_order_free. exact IH.
  - exfalso. exact (repeat_free_lookup _ _ _ _ _ _ Hf Esy).
  - apply oneOf_result_order_free. exact IH.
Qed.

(** X6: for a grammar without [repeat] and [optional] symbols, what
    [parse] returns or raises does not depend on the order in which the
    dicts [results] are iterated: [chain] and [oneOf] states evaluate the one
    complete branch and raise when there is none or more than one. *)
Theorem parse_order_free lim ord1 ord2 g text ctx :
  repeat_free (symtab g) ->
  parse lim ord1 g text ctx = parse lim ord2 g text ctx.
Proof.
  intros Hf. unfold parse. destruct (lex g text) as [tokens| |]; simpl; try reflexivity.
  destruct (except_RuntimeError None _) as [[state h]| |]; simpl; try reflexivity.
  destruct (except_RuntimeError (Some state) _) as [[u h']| |]; simpl; try reflexivity.
  unfold root_result. destruct (h' !! state) as [st|]; [|reflexivity].
  destruct (validPossibilities st) as [|p [|? ?]]; try reflexivity.
  apply result_order_free. exact Hf.
Qed.
(** ** Building states along first symbols *)

(** Building the state of a symbol starts by building the state of its
    first symbol; what this raises is raised. *)
Lemma getState_first_Raise tab e a par h sy b ex :
  tab !! a = Some sy ->
  first_symbol sy = Some b ->
  (forall par' h', e_getState e b par' h' = Raise ex) ->
  getState tab e a par h = Raise ex.
Proof.
  intros Ha Hb He. unfold getState. unfold bind at 1. rewrite Ha.
  unfold first_symbol in Hb. destruct sy as [re m|l m|x From To m|l m|name];
    simpl in Hb; try discriminate.
  - rewrite bind_alloc. unfold chain_init. rewrite !bind_bind, Hb. simpl lookup_or.
    rewrite bind_ret. unfold bind. rewrite He. reflexivity.
  - injection Hb as ->. rewrite bind_alloc. unfold chain_init. rewrite !bind_bind.
    simpl lookup_or. rewrite bind_ret. unfold bind. rewrite He. reflexivity.
  - destruct l as [|b' l]; [discriminate|]. injection Hb as ->.
    rewrite bind_alloc. simpl oneOf_init. rewrite !bind_bind. unfold bind. rewrite He.
    reflexivity.
Qed.

Lemma left_recursive_step tab a :
  left_recursive tab a ->
  exists sy b, tab !! a = Some sy /\ first_symbol sy = Some b /\ left_recursive tab b.
Proof.
  intros Hl. destruct (Hl 1) as [c Hc]. simpl in Hc.
  destruct (tab !! a) as [sy|] eqn:Ea; [|discriminate].
  destruct (first_symbol sy) as [b|] eqn:Eb; [|discriminate].
  exists sy, b. split; [reflexivity|]. split; [exact Eb|].
  intros k. specialize (Hl (S k)). simpl in Hl. rewrite Ea, Eb in Hl. exact Hl.
Qed.

Lemma left_recursive_getState tab gas a :
  left_recursive tab a ->
  forall depth par h,
    e_getState (engine_at tab gas depth) a par h = Raise (RuntimeError recursion_msg).
Proof.
  intros Hl depth. revert a Hl. induction depth as [|d IH]; intros a Hl par h.
  - reflexivity.
  - destruct (left_recursive_step _ _ Hl) as (sy & b & Ha & Hb & Hlb).
    simpl. eapply getState_first_Raise; eauto.
Qed.

(** X7: a grammar whose start symbol is left-recursive (the way from a
    symbol to its first symbol never ends) cannot be parsed: when the text
    passes the lexer, [parse] raises [InfiniteStateExpansion] with state
    [None], whatever the text and whatever the recursion limit. *)
Theorem left_recursion_expands lim ord g text ctx :
  left_recursive (symtab g) (startSymbol g) ->
  parse lim ord g text ctx
  = res_bind (lex g text) (fun _ => Raise (InfiniteStateExpansion None)).
Proof.
  intros Hl. unfold parse. destruct (lex g text) as [tokens| |]; simpl; try reflexivity.
  unfold parserRootState_init. rewrite bind_alloc. unfold bind at 1.
  rewrite (left_recursive_getState _ _ _ Hl). reflexivity.
Qed.

Lemma descend_add tab i : forall j a,
  descend tab (i + j) a
  = match descend tab i a with Some b => descend tab j b | None => None end.
Proof.
  induction i as [|i IH]; intros j a; simpl; [reflexivity|].
  destruct (tab !! a) as [sy|]; [|reflexivity].
  destruct (first_symbol sy) as [b|]; [|reflexivity]. apply IH.
Qed.

(** A symbol that is reached again from itself is left-recursive. *)
Lemma cycle_left_recursive tab a n :
  descend tab (S n) a = Some a -> left_recursive tab a.
Proof.
  intros Hc.
  assert (Hm : forall m, descend tab (m * S n) a = Some a).
  { induction m as [|m IH]; [reflexivity|].
    change (S m * S n) with (S n + m * S n). rewrite descend_add, Hc. exact IH. }
  intros k. specialize (Hm k).
  replace (k * S n) with (k + k * n) in Hm by lia.
  rewrite descend_add in Hm. destruct (descend tab k a); [eauto|discriminate].
Qed.

Lemma descend_definedLater tab gas name b : forall k a depth par h,
  descend tab k a = Some b ->
  tab !! b = Some (definedLater name) ->
  k < depth ->
  e_getState (engine_at tab gas depth) a par h
  = Raise (RuntimeError (name ++ " not defined.")).
Proof.
  induction k as [|k IH]; intros a depth par h Hd Hb Hk;
    destruct depth as [|d]; try lia; simpl in Hd |- *.
  - injection Hd as ->. unfold getState. unfold bind at 1. rewrite Hb. reflexivity.
  - destruct (tab !! a) as [sy|] eqn:Ea; [|discriminate].
    destruct (first_symbol sy) as [c|] eqn:Ec; [|discriminate].
    eapply getState_first_Raise; eauto. intros par' h'. apply IH; auto. lia.
Qed.


(** ** Runs on the grammars of the test suite *)

(** C4, counterexample: in [chain([a, b])] the token state of [a] is the
    alternative being iterated when it becomes valid, so it stands at (not
    behind) the iterated alternative; the state for [b] is not put on the
    live list but into [_addedPossibilities], and gets the next token. *)
Lemma next_child_queue_counterexample :
  index_of 2 [2] = Some 0
  /\ (exists h' st,
        makeValid chain_ab_symbols chain_ab_engine 2 chain_ab_pushing = Ret (tt, h')
        /\ h' !! 1 = Some st
        /\ _possibilities st = [2]
        /\ _addedPossibilities st = [3]
        /\ _removedPossibilities st = [2])
  /\ parse default_limits ord_insertion chain_ab_grammar "ab" []
     = Ret (VList [VStr "a"; VStr "b"]).
Proof.
  split; [reflexivity|]. split.
  - eexists. eexists. split; [vm_compute; reflexivity|].
    split; [reflexivity|]. split; [reflexivity|]. split; reflexivity.
  - vm_compute. reflexivity.
Qed.

Lemma createNextState_queue_witness :
  exists st2,
    heap_after (createNextState chain_ab_symbols chain_ab_engine 1 2 chain_ab_recorded) !! 1
    = Some st2
    /\ (after_current 2 (Some 2) [2] ->
        _possibilities st2 = [2] ++ [3] /\ _addedPossibilities st2 = [])
    /\ (~ after_current 2 (Some 2) [2] ->
        _possibilities st2 = [2] /\ _addedPossibilities st2 = [] ++ [3]).
Proof.
  refine (createNextState_queue chain_ab_symbols chain_ab_engine 1 2 chain_ab_recorded
            (set_currentlyWorksOn (Some 2)
               (set_yieldsPossibilities true
                  (set_currentPositions [(Some 2, 1)]
                     (set_results [(Some 2, [2])]
                        (set_possibilities [2] (new_state KChain 2 (Some 0)))))))
            1 (chain [0; 1] None) 1 3
            (chain_ab_recorded ++ [new_state KToken 1 (Some 1)])
            (set_currentlyWorksOn (Some 2)
               (set_yieldsPossibilities true
                  (set_currentPositions [(Some 2, 1)]
                     (set_results [(Some 2, [2])]
                        (set_possibilities [2] (new_state KChain 2 (Some 0)))))))
            tt
            (heap_after (createNextState chain_ab_symbols chain_ab_engine 1 2
                           chain_ab_recorded))
            _ _ _ _ _ _ _); vm_compute; reflexivity.
Defined.

(** C10, counterexample: with the start symbol [repeat(repeat(a))] the
    states expand without end on the empty string, and with
    [repeat(optional(a), 0, 2)] the empty string has two completions. *)
Lemma empty_input_counterexample :
  symtab nested_repeat_grammar !! startSymbol nested_repeat_grammar
  = Some (repeat 1 0 (-1) None)
  /\ parse default_limits ord_insertion nested_repeat_grammar "" []
     = Raise (InfiniteStateExpansion None)
  /\ symtab repeat_optional_grammar !! startSymbol repeat_optional_grammar
     = Some (repeat 1 0 2 None)
  /\ parse default_limits ord_insertion repeat_optional_grammar "" []
     = Raise (AmbigiousResults 0).
Proof.
  split; [reflexivity|]. split; [vm_compute; reflexivity|].
  split; [reflexivity|]. vm_compute. reflexivity.
Qed.

Lemma parse_empty_repeat_witness :
  parse default_limits ord_insertion repeat_token_grammar "" [] = Ret (VList []).
Proof.
  refine (parse_empty_repeat default_limits ord_insertion repeat_token_grammar []
            0 (-1) None 998 2
            [new_state KRoot 1 None; new_state KRepeat 1 (Some 0);
             new_state KToken 0 (Some 1)]
            _ (or_intror eq_refl) _ _ _ _); vm_compute; reflexivity.
Defined.


(** The root state of [chain([a, b])] after "a": the second token is pushed,
    the leafs collected at this push are the token state of [b], and a third
    token finds no possibility left. *)
Lemma root_state_protocol_witness :
  exists st',
    chain_ab_after_ab !! 0 = Some st'
    /\ lastTokens st' = [3]
    /\ token_states chain_ab_after_ab [3]
    /\ forall tok',
         pushToken chain_ab_symbols 10 (engine_at chain_ab_symbols 10 9) 0 tok'
           chain_ab_after_ab
         = Raise (StatesExhausted 0 (Some [3])).
Proof.
  assert (Hs : chain_ab_after_a !! 0 = Some chain_ab_root_after_a)
    by (vm_compute; reflexivity).
  assert (Hf : fresh 0 chain_ab_after_a) by (apply freshb_fresh; vm_compute; reflexivity).
  destruct (root_state_protocol chain_ab_symbols 10 9 ord_insertion [] 2
              chain_ab_after_a 0 chain_ab_root_after_a match_b Hs eq_refl Hf)
    as (_ & _ & _ & H & _).
  destruct (H tt chain_ab_after_ab) as (ls & hm & st' & H1 & Ht & Hs' & _ & _ & Hl & Hx);
    [vm_compute; reflexivity|].
  vm_compute in H1. injection H1 as <- _.
  exists st'. split; [exact Hs'|]. split; [exact Hl|]. split; [exact Ht|].
  apply Hx. vm_compute in Hs'. injection Hs' as <-. reflexivity.
Defined.
(** ** Further runs *)

(** The chain state of [chain([a, b])] after "a" tracks its alternative, the
    token state of [b]. *)
Lemma chain_states_tracked_witness :
  dict_has (Some 3) (results chain_ab_waiting) = true
  /\ dict_has (Some 3) (currentPositions chain_ab_waiting) = true.
Proof.
  destruct chain_states_tracked as (H1 & _ & H3 & _).
  destruct (H1 chain_ab_symbols 10 10 2 [match_a] 0 chain_ab_built chain_ab_after_a)
    as [_ Hwf]; try (vm_compute; reflexivity).
  apply (H3 chain_ab_after_a 1 chain_ab_waiting 3 Hwf);
    first [ vm_compute; reflexivity | left; reflexivity | intros [] ].
Defined.



(** ** Runs of the lexer and of [parse] *)

Lemma lex_in_order_witness : in_order "ab" 0 [match_a; match_b].
Proof. apply (lex_in_order chain_ab_grammar "ab"). vm_compute. reflexivity. Defined.

Lemma lex_error_position_witness :
  "ac" = "ac"
  /\ 1 < String.length "ac"
  /\ In (plain_lexerState [0; 1]) (modes chain_ab_grammar)
  /\ none_matches (symtab chain_ab_grammar)
       (ls_omit (plain_lexerState [0; 1]) ++ ls_tokens (plain_lexerState [0; 1])) "ac" 1.
Proof.
  apply (lex_error_position chain_ab_grammar "ac" "ac" 1 (plain_lexerState [0; 1])).
  vm_compute. reflexivity.
Defined.

Lemma lex_tokens_of_modes_witness :
  Forall (fun m =>
            (exists mode, In mode (modes chain_ab_grammar) /\ In (m_token m) (ls_tokens mode))
            /\ exists re mg, symtab chain_ab_grammar !! m_token m = Some (token re mg))
         [match_a; match_b].
Proof. apply (lex_tokens_of_modes chain_ab_grammar "ab"). vm_compute. reflexivity. Defined.

Lemma lex_joined_witness : joined [match_a; match_b] = "ab".
Proof.
  apply (lex_joined chain_ab_grammar "ab"); [|vm_compute; reflexivity].
  repeat constructor.
Defined.

Lemma parse_order_free_witness :
  parse default_limits ord_insertion chain_ab_grammar "ab" []
  = parse default_limits ord_reversed chain_ab_grammar "ab" [].
Proof. apply parse_order_free. reflexivity. Defined.

Lemma left_recursion_expands_witness :
  parse default_limits ord_insertion infiniteExpansion_grammar "" []
  = res_bind (lex infiniteExpansion_grammar "") (fun _ => Raise (InfiniteStateExpansion None)).
Proof.
  apply left_recursion_expands. apply (cycle_left_recursive _ _ 1). reflexivity.
Defined.

